(** * Multi-agent linear system with MPC control: a shallow embedding

    The development follows the Python sources
      - [src/system.py]               (LinearAgentNd, LinearClusterNd, MultiAgentSystem)
      - [src/optimizer/mpc_solver.py] (conventional_solve, microcoupling_solve,
                                       mesocoupling_solve)

    numpy arrays are lists with their shape checks written out, Python
    exceptions are an explicit outcome type, objects mutated in place are
    threaded as state, and the numerical libraries the code calls (cvxpy,
    scipy, hdbscan, the clock) are parameters. *)

From Stdlib Require Import String.
From Stdlib Require Import List Arith Lia Bool ZArith Permutation.
Import ListNotations.
Local Open Scope string_scope.
Local Open Scope nat_scope.
Local Open Scope list_scope.

Set Implicit Arguments.

(** ** Python exceptions and results *)

Inductive exn : Type :=
| AssertionError
| ValueError (msg : string)
| IndexError
| KeyError
| TypeError
| AttributeError (msg : string)
| ZeroDivisionError
| Exception (msg : string)
| LibraryError (msg : string).

Inductive outcome (A : Type) : Type :=
| Ok (a : A)
| Raise (e : exn).

Arguments Ok {A} a.
Arguments Raise {A} e.

Definition obind {A B : Type} (m : outcome A) (k : A -> outcome B) : outcome B :=
  match m with
  | Ok a => k a
  | Raise e => Raise e
  end.

Declare Scope py_scope.
Delimit Scope py_scope with py.
Notation "x <- m ;; k" := (obind m (fun x => k))
  (at level 61, m at next level, right associativity) : py_scope.
Notation "'assert' b ;; k" := (if b then k else Raise AssertionError)
  (at level 61, b at next level, right associativity) : py_scope.
Local Open Scope py_scope.

(** [range(lo, hi)] *)
Definition py_range (lo hi : nat) : list nat := seq lo (hi - lo).

(** A [for] loop whose body may raise: the accumulator is what the body
    rebinds or extends ([+=]); the first exception stops the loop. *)
Fixpoint for_acc {X S : Type} (l : list X) (body : X -> S -> outcome S) (s : S)
  : outcome S :=
  match l with
  | [] => Ok s
  | i :: l' => s' <- body i s ;; for_acc l' body s'
  end.

(** [a // b] on non-negative integers *)
Definition floordiv (a b : nat) : outcome nat :=
  if b =? 0 then Raise ZeroDivisionError else Ok (a / b).

(** ** Objects mutated in place

    A method that mutates its object (or objects reachable from it) is a
    function from the state before the call to a result and the state
    after it.  When the method raises, the mutations made before the
    exception remain. *)

Definition M (S A : Type) : Type := S -> outcome A * S.

Definition ret {S A : Type} (a : A) : M S A := fun s => (Ok a, s).

Definition raise {S A : Type} (e : exn) : M S A := fun s => (Raise e, s).

Definition bind {S A B : Type} (m : M S A) (k : A -> M S B) : M S B :=
  fun s =>
    match m s with
    | (Ok a, s') => k a s'
    | (Raise e, s') => (Raise e, s')
    end.

Definition lift {S A : Type} (o : outcome A) : M S A := fun s => (o, s).

Definition gets {S A : Type} (f : S -> A) : M S A := fun s => (Ok (f s), s).

Definition modify {S : Type} (f : S -> S) : M S unit := fun s => (Ok tt, f s).

Notation "x <~ m ;; k" := (bind m (fun x => k))
  (at level 61, m at next level, right associativity) : py_scope.
Notation "m ;;; k" := (bind m (fun _ => k))
  (at level 61, right associativity) : py_scope.

(** A [for] loop over a snapshot of the iterated collection. *)
Fixpoint for_each {S X : Type} (l : list X) (body : X -> M S unit) : M S unit :=
  match l with
  | [] => ret tt
  | i :: l' => body i ;;; for_each l' body
  end.

(** A loop whose body threads a local variable. *)
Fixpoint for_fold {S X Acc : Type} (l : list X) (body : X -> Acc -> M S Acc)
         (acc : Acc) : M S Acc :=
  match l with
  | [] => ret acc
  | i :: l' => acc' <~ body i acc ;; for_fold l' body acc'
  end.

(** ** Scalars

    The arithmetic of numpy's float64 is kept abstract: every statement
    below holds for any interpretation of the operations.  [finf] is
    [np.inf]. *)

Class Scalar (F : Type) : Type := {
  f0 : F;
  f1 : F;
  fadd : F -> F -> F;
  fsub : F -> F -> F;
  fmul : F -> F -> F;
  fdiv : F -> F -> F;
  fsqrt : F -> F;
  fof_nat : nat -> F;
  finf : F
}.

#[export] Instance Z_Scalar : Scalar Z := {|
  f0 := 0%Z;
  f1 := 1%Z;
  fadd := Z.add;
  fsub := Z.sub;
  fmul := Z.mul;
  fdiv := Z.div;
  fsqrt := Z.sqrt;
  fof_nat := Z.of_nat;
  finf := 0%Z
|}.

(** ** numpy arrays

    A one-dimensional array is a list; a two-dimensional array carries its
    column count, so that an array with no rows still has a shape. *)

Section Arrays.
Context {F : Type} `{Scalar F}.

Definition Vec : Type := list F.

Record Mat : Type := mkMat { ncols : nat; rows : list Vec }.

Definition nrows (M : Mat) : nat := length (rows M).
Definition shape (M : Mat) : nat * nat := (nrows M, ncols M).

Definition wf_mat (M : Mat) : Prop :=
  Forall (fun r => length r = ncols M) (rows M).

Definition has_shape (M : Mat) (r c : nat) : Prop :=
  nrows M = r /\ ncols M = c /\ wf_mat M.

Definition shape_eqb (s1 s2 : nat * nat) : bool :=
  (fst s1 =? fst s2) && (snd s1 =? snd s2).

(** [np.zeros((r, c))] *)
Definition zeros (r c : nat) : Mat := mkMat c (repeat (repeat f0 c) r).

Definition vsum (v : Vec) : F := fold_left fadd v f0.

Definition dot (a b : Vec) : F :=
  vsum (map (fun p => fmul (fst p) (snd p)) (combine a b)).

(** [M @ v] for a 2-D [M] and a 1-D [v]: the inner dimensions must agree *)
Definition matvec (M : Mat) (v : Vec) : outcome Vec :=
  if ncols M =? length v
  then Ok (map (fun r => dot r v) (rows M))
  else Raise (ValueError "matmul: dimension mismatch").

(** Broadcasting of two 1-D arrays under an elementwise operation:
    equal lengths, or one of them of length one. *)
Definition bcast_len (n m : nat) : option nat :=
  if n =? m then Some n
  else if n =? 1 then Some m
  else if m =? 1 then Some n
  else None.

Definition bget (v : Vec) (i : nat) : F :=
  nth (if length v =? 1 then 0 else i) v f0.

Definition vzip (op : F -> F -> F) (a b : Vec) : outcome Vec :=
  match bcast_len (length a) (length b) with
  | Some n => Ok (map (fun i => op (bget a i) (bget b i)) (seq 0 n))
  | None => Raise (ValueError "operands could not be broadcast together")
  end.

Definition vadd : Vec -> Vec -> outcome Vec := vzip fadd.
Definition vsub : Vec -> Vec -> outcome Vec := vzip fsub.

(** [c * v] for a scalar [c] *)
Definition vscale (c : F) (v : Vec) : Vec := map (fmul c) v.

(** [M.flatten()] *)
Definition flatten (M : Mat) : Vec := concat (rows M).

(** [np.kron(a, b)] for 1-D arrays *)
Definition kron (a b : Vec) : Vec := flat_map (fun ai => map (fmul ai) b) a.

(** [np.ones((n))] *)
Definition ones (n : nat) : Vec := repeat f1 n.

(** A slice bound is clipped to the length of the axis. *)
Definition clip (i n : nat) : nat := Nat.min i n.

(** Writing a 1-D array [src] over a row segment of [len] entries:
    [src] has [len] entries, or one entry that is repeated. *)
Definition bcast_to (src : Vec) (len : nat) : outcome Vec :=
  if length src =? len then Ok src
  else if length src =? 1 then Ok (repeat (nth 0 src f0) len)
  else Raise (ValueError "could not broadcast input array").

(** [M[idx] = v] *)
Definition set_row (M : Mat) (idx : nat) (v : Vec) : outcome Mat :=
  if idx <? nrows M then
    r <- bcast_to v (ncols M) ;;
    Ok (mkMat (ncols M) (firstn idx (rows M) ++ r :: skipn (S idx) (rows M)))
  else Raise IndexError.

(** The 2-D source of a block assignment, stretched to the target shape. *)
Definition bcast_rows (src : Mat) (tr tc : nat) : outcome (list Vec) :=
  if (nrows src =? tr) || (nrows src =? 1) then
    if (ncols src =? tc) || (ncols src =? 1) then
      Ok (map (fun i =>
                 let r := nth (if nrows src =? 1 then 0 else i) (rows src) [] in
                 map (fun j => nth (if ncols src =? 1 then 0 else j) r f0) (seq 0 tc))
              (seq 0 tr))
    else Raise (ValueError "could not broadcast input array")
  else Raise (ValueError "could not broadcast input array").

(** Replace the entries [c0 .. c0 + length seg - 1] of a row. *)
Definition splice (row : Vec) (c0 : nat) (seg : Vec) : Vec :=
  firstn c0 row ++ seg ++ skipn (c0 + length seg) row.

(** [M[r0:r1, c0:c1] = src] *)
Definition set_block (M : Mat) (r0 r1 c0 c1 : nat) (src : Mat) : outcome Mat :=
  let r0' := clip r0 (nrows M) in
  let r1' := clip r1 (nrows M) in
  let c0' := clip c0 (ncols M) in
  let c1' := clip c1 (ncols M) in
  blk <- bcast_rows src (r1' - r0') (c1' - c0') ;;
  Ok (mkMat (ncols M)
        (firstn r0' (rows M)
         ++ map (fun p => splice (fst p) c0' (snd p))
                (combine (firstn (r1' - r0') (skipn r0' (rows M))) blk)
         ++ skipn (r0' + (r1' - r0')) (rows M))).

(** [M[lo:hi, -1]]: the last column, restricted to a row slice *)
Definition last_col_slice (M : Mat) (lo hi : nat) : outcome Vec :=
  if ncols M =? 0 then Raise IndexError
  else Ok (map (fun r => nth (ncols M - 1) r f0)
             (firstn (clip hi (nrows M) - clip lo (nrows M))
                (skipn (clip lo (nrows M)) (rows M)))).

(** [M[:, -1]] *)
Definition last_col (M : Mat) : outcome Vec :=
  if ncols M =? 0 then Raise IndexError
  else Ok (map (fun r => nth (ncols M - 1) r f0) (rows M)).

(** [M - g] for a 2-D [M] and a 1-D [g], row by row *)
Definition msub_row (M : Mat) (g : Vec) : outcome (list Vec) :=
  match bcast_len (ncols M) (length g) with
  | Some n =>
      Ok (map (fun r => map (fun j => fsub (nth (if ncols M =? 1 then 0 else j) r f0)
                                        (bget g j)) (seq 0 n)) (rows M))
  | None => Raise (ValueError "operands could not be broadcast together")
  end.

(** [np.linalg.norm(v)] of a row *)
Definition norm2 (v : Vec) : F := fsqrt (vsum (map (fun a => fmul a a) v)).

(** [v.mean(axis=0)] of a 1-D array *)
Definition vmean (v : Vec) : F := fdiv (vsum v) (fof_nat (length v)).

(** [np.mean(M, axis=0)]: the mean of every column *)
Definition mean_axis0 (M : Mat) : Vec :=
  map (fun j => vmean (map (fun r => nth j r f0) (rows M))) (seq 0 (ncols M)).

End Arrays.

Arguments Vec F : clear implicits.
Arguments Mat F : clear implicits.

(** ** [src/optimizer/mpc_solver.py]: the three MPC formulations

    Each function builds a cvxpy problem (an objective and a list of
    constraints over the decision variables) and hands it to [prob.solve].
    The problem is embedded as the syntax tree the code builds.  cvxpy
    checks the shapes of the operands while the tree is built and raises
    at the first expression that does not fit; these checks are written
    out below.  cvxpy's solver is a parameter. *)

Module mpc_solver.

(** The decision variables the three functions declare. *)
Inductive var : Type := x | u | x_mes | x_mic | u_mes | u_mic.

Definition var_eqb (a b : var) : bool :=
  match a, b with
  | x, x | u, u | x_mes, x_mes | x_mic, x_mic | u_mes, u_mes | u_mic, u_mic => true
  | _, _ => false
  end.

Section Problems.
Context {F : Type} `{Scalar F}.

(** [psd_wrap(W)] *)
Inductive weight : Type := psd_wrap (W : Mat F).

Inductive expr : Type :=
| Col (v : var) (t : nat)                  (* v[:, t] *)
| Slice (v : var) (lo hi : nat) (t : nat)  (* v[lo:hi, t] *)
| Whole (v : var)                          (* v *)
| Const (c : Vec F)                        (* a 1-D constant *)
| Col0 (m : Mat F)                         (* m[:, 0] of a constant *)
| ConstM (m : Mat F)                       (* a constant bound *)
| Sub (a b : expr)                         (* a - b *)
| Add (a b : expr)                         (* a + b *)
| Mul (M : Mat F) (e : expr).              (* M * e *)

(** The summands of the objective. *)
Inductive term : Type :=
| HalfQuad (e : expr) (W : weight)              (* 0.5 * quad_form(e, W) *)
| HalfScaledQuad (lam : F) (e : expr) (W : weight). (* 0.5 * lam * quad_form(e, W) *)

Inductive constr : Type :=
| EqC (a b : expr)              (* a == b *)
| GeC (a b : expr)              (* a >= b *)
| LeC (a b : expr)              (* a <= b *)
| Norm2Ge (e : expr) (d : F).   (* norm2(e) >= d *)

(** [costlist] starts as [0.0] and grows by [+=]: the list holds the
    summands in the order they are added. *)
Record problem : Type := mkProblem {
  costlist : list term;
  constrlist : list constr
}.

Definition add_cost (p : problem) (t : term) : problem :=
  mkProblem (costlist p ++ [t]) (constrlist p).

Definition add_constr (p : problem) (c : list constr) : problem :=
  mkProblem (costlist p) (constrlist p ++ c).

(** *** The shapes cvxpy checks

    A shape is the tuple of dimensions: [[n]] for a 1-D expression,
    [[r; c]] for a 2-D one. *)

Definition cshape : Type := list nat.

(** The declared shape of every variable. *)
Definition dims : Type := var -> nat * nat.

(** [psd_wrap(W)] refuses a matrix that is not square. *)
Definition wrap_psd (W : Mat F) : outcome weight :=
  if nrows W =? ncols W then Ok (psd_wrap W)
  else Raise (ValueError "The input must be a square matrix.").

(** [cvxpy.Variable((r, c))] refuses a dimension that is not positive. *)
Definition declare (r c : nat) : outcome unit :=
  if (0 <? r) && (0 <? c) then Ok tt
  else Raise (ValueError "Invalid dimensions").

(** An operand with a single entry is treated as a scalar. *)
Definition scalar_like (s : cshape) : bool := forallb (Nat.eqb 1) s.

(** numpy's broadcasting of two shapes, on the reversed tuples. *)
Fixpoint broadcast_rev (a b : cshape) : option cshape :=
  match a, b with
  | [], l | l, [] => Some l
  | d1 :: a', d2 :: b' =>
      if (d1 =? d2) || (d1 =? 1) || (d2 =? 1)
      then option_map (cons (Nat.max d1 d2)) (broadcast_rev a' b')
      else None
  end.

(** The shape of [a + b], [a - b] and of the difference a comparison
    [a == b], [a <= b], [a >= b] builds: the shapes are equal, or one
    operand is a scalar. *)
Definition sum_shapes (a b : cshape) : outcome cshape :=
  if list_eq_dec Nat.eq_dec a b then Ok a
  else if scalar_like a || scalar_like b then
    match broadcast_rev (rev a) (rev b) with
    | Some s => Ok (rev s)
    | None => Raise (ValueError "Cannot broadcast dimensions")
    end
  else Raise (ValueError "Cannot broadcast dimensions").

(** The shape of [M * e] for a constant matrix [M]: a matrix product
    when the inner dimensions agree, a product by a scalar when they do
    not and one operand has a single entry. *)
Definition mul_shapes (M : Mat F) (s : cshape) : outcome cshape :=
  match s with
  | [] => Ok [nrows M; ncols M]
  | k :: s' =>
      if ncols M =? k then Ok (nrows M :: s')
      else if (nrows M =? 1) && (ncols M =? 1) then Ok s
      else if scalar_like s then Ok [nrows M; ncols M]
      else Raise (ValueError "Incompatible dimensions")
  end.

Fixpoint shape_of (D : dims) (e : expr) : outcome cshape :=
  match e with
  | Col v t =>
      if t <? snd (D v) then Ok [fst (D v)] else Raise IndexError
  | Slice v lo hi t =>
      if t <? snd (D v)
      then Ok [clip hi (fst (D v)) - clip lo (fst (D v))]
      else Raise IndexError
  | Whole v => Ok [fst (D v); snd (D v)]
  | Const c => Ok [length c]
  | Col0 m => if ncols m =? 0 then Raise IndexError else Ok [nrows m]
  | ConstM m => Ok [nrows m; ncols m]
  | Sub a b | Add a b =>
      sa <- shape_of D a ;;
      sb <- shape_of D b ;;
      sum_shapes sa sb
  | Mul M e =>
      s <- shape_of D e ;;
      mul_shapes M s
  end.

(** [quad_form(e, W)]: [W] is square and has as many rows as [e] has
    entries; otherwise cvxpy raises
    [Exception("Invalid dimensions for arguments.")]. *)
Definition quad_form (D : dims) (e : expr) (W : weight) : outcome unit :=
  s <- shape_of D e ;;
  match W with
  | psd_wrap Wm =>
      match s with
      | [k] =>
          if (nrows Wm =? ncols Wm) && (k =? nrows Wm) then Ok tt
          else Raise (Exception "Invalid dimensions for arguments.")
      | _ => Raise (Exception "Invalid dimensions for arguments.")
      end
  end.

Definition check_term (D : dims) (t : term) : outcome unit :=
  match t with
  | HalfQuad e W | HalfScaledQuad _ e W => quad_form D e W
  end.

Definition check_constr (D : dims) (c : constr) : outcome unit :=
  match c with
  | EqC a b | GeC a b | LeC a b =>
      sa <- shape_of D a ;;
      sb <- shape_of D b ;;
      _ <- sum_shapes sa sb ;;
      Ok tt
  | Norm2Ge e _ =>
      _ <- shape_of D e ;;
      Ok tt
  end.

(** [costlist += t] and [constrlist += [c]]: the expression is built,
    which may raise, and then appended. *)
Definition cost (D : dims) (p : problem) (t : term) : outcome problem :=
  _ <- check_term D t ;;
  Ok (add_cost p t).

Definition constrain (D : dims) (p : problem) (c : constr) : outcome problem :=
  _ <- check_constr D c ;;
  Ok (add_constr p [c]).

Definition constrain_if {A : Type} (D : dims) (o : option A) (f : A -> constr)
           (p : problem) : outcome problem :=
  match o with
  | Some a => constrain D p (f a)
  | None => Ok p
  end.

(** The separation constraint between blocks [idx] and [jdx] at stage [t]. *)
Definition separation (v : var) (adim idx jdx t : nat) (coll_d : F) : constr :=
  Norm2Ge (Sub (Slice v (idx * adim) ((idx + 1) * adim) t)
               (Slice v (jdx * adim) ((jdx + 1) * adim) t)) coll_d.

(** The nested loops of [conventional_solve], lines 45-47:
    [for idx in range(nx//adim): for jdx in range(idx+1, nx//adim)]. *)
Definition collision_conventional (D : dims) (nx adim t : nat) (coll_d : F)
           (p : problem) : outcome problem :=
  nb <- floordiv nx adim ;;
  for_acc (py_range 0 nb)
    (fun idx p =>
       nb' <- floordiv nx adim ;;
       for_acc (py_range (idx + 1) nb')
         (fun jdx p => constrain D p (separation x adim idx jdx t coll_d)) p) p.

(** The nested loops of [microcoupling_solve] (lines 108-110) and of
    [mesocoupling_solve] (lines 209-211):
    [for idx in range(nx//adim): for jdx in range(idx+1, nx//adim - 1)]. *)
Definition collision_coupling (D : dims) (v : var) (nx adim t : nat) (coll_d : F)
           (p : problem) : outcome problem :=
  nb <- floordiv nx adim ;;
  for_acc (py_range 0 nb)
    (fun idx p =>
       nb' <- floordiv nx adim ;;
       for_acc (py_range (idx + 1) (nb' - 1))
         (fun jdx p => constrain D p (separation v adim idx jdx t coll_d)) p) p.

(** The stage cost on the state: with and without a reference. *)
Definition state_cost (v : var) (t : nat) (x_star_in : option (Vec F)) (Q : weight)
  : term :=
  match x_star_in with
  | Some x_star => HalfQuad (Sub (Col v t) (Const x_star)) Q
  | None => HalfQuad (Col v t) Q
  end.

(** The part of a stage that the three functions share: stage cost,
    dynamics, state bounds (lines 29-41, 92-104, 166-178). *)
Definition stage (D : dims) (xv uv : var) (A B : Mat F) (Q R : weight)
           (xmin xmax : option (Mat F)) (x_star_in : option (Vec F))
           (t : nat) (p : problem) : outcome problem :=
  p <- cost D p (state_cost xv t x_star_in Q) ;;
  p <- cost D p (HalfQuad (Col uv t) R) ;;
  p <- constrain D p (EqC (Col xv (t + 1))
                          (Add (Mul A (Col xv t)) (Mul B (Col uv t)))) ;;
  p <- constrain_if D xmin (fun m => GeC (Col xv t) (Col0 m)) p ;;
  constrain_if D xmax (fun m => LeC (Col xv t) (Col0 m)) p.

(** What follows the loop: terminal cost, terminal state bounds, input
    bounds, initial state (lines 49-60, 112-123, 180-191). *)
Definition closing (D : dims) (xv uv : var) (N : nat) (P : weight)
           (umax umin xmin xmax : option (Mat F)) (x0 : Vec F) (p : problem)
  : outcome problem :=
  p <- cost D p (HalfQuad (Col xv N) P) ;;
  p <- constrain_if D xmin (fun m => GeC (Col xv N) (Col0 m)) p ;;
  p <- constrain_if D xmax (fun m => LeC (Col xv N) (Col0 m)) p ;;
  p <- constrain_if D umax (fun m => LeC (Whole uv) (ConstM m)) p ;;
  p <- constrain_if D umin (fun m => GeC (Whole uv) (ConstM m)) p ;;
  constrain D p (EqC (Col xv 0) (Const x0)).

Definition empty_problem : problem := mkProblem [] [].

(** The variables of [conventional_solve] and [microcoupling_solve]:
    [x] of shape [(nx, N + 1)] and [u] of shape [(nu, N)]. *)
Definition single_scale (nx nu N : nat) : dims :=
  fun v =>
    match v with
    | x => (nx, N + 1)
    | u => (nu, N)
    | _ => (0, 0)
    end.

(** The variables of [mesocoupling_solve]. *)
Definition two_scale (nx_mes nu_mes N_mes nx_mic nu_mic N_mic : nat) : dims :=
  fun v =>
    match v with
    | x_mes => (nx_mes, N_mes + 1)
    | x_mic => (nx_mic, N_mic + 1)
    | u_mes => (nu_mes, N_mes)
    | u_mic => (nu_mic, N_mic)
    | _ => (0, 0)
    end.

(** The problem [conventional_solve] passes to [cvxpy.Problem]. *)
Definition conventional_problem (A B : Mat F) (N : nat) (Q R P : Mat F)
           (x0 : Vec F) (adim : nat)
           (umax umin xmin xmax : option (Mat F))
           (x_star_in : option (Vec F)) (coll_d : option F) : outcome problem :=
  let nx := nrows B in
  let nu := ncols B in
  Q <- wrap_psd Q ;;
  R <- wrap_psd R ;;
  P <- wrap_psd P ;;
  _ <- declare nx (N + 1) ;;
  _ <- declare nu N ;;
  let D := single_scale nx nu N in
  p <- for_acc (py_range 0 N)
         (fun t p =>
            p <- stage D x u A B Q R xmin xmax x_star_in t p ;;
            match coll_d with
            | Some d => collision_conventional D nx adim t d p
            | None => Ok p
            end) empty_problem ;;
  closing D x u N P umax umin xmin xmax x0 p.

(** The problem [microcoupling_solve] passes to [cvxpy.Problem]. *)
Definition microcoupling_problem (A B : Mat F) (N_mic : nat) (Q R P : Mat F)
           (x0 : Vec F) (adim N_cpl : nat) (L : option (Mat F)) (L_lambda : F)
           (umax umin xmin xmax : option (Mat F))
           (x_star_in : option (Vec F)) (coll_d : option F) : outcome problem :=
  let nx := nrows B in
  let nu := ncols B in
  Q <- wrap_psd Q ;;
  R <- wrap_psd R ;;
  P <- wrap_psd P ;;
  _ <- declare nx (N_mic + 1) ;;
  _ <- declare nu N_mic ;;
  let D := single_scale nx nu N_mic in
  p <- for_acc (py_range 0 N_mic)
         (fun t p =>
            p <- stage D x u A B Q R xmin xmax x_star_in t p ;;
            match coll_d with
            | Some d => collision_coupling D x nx adim t d p
            | None => Ok p
            end) empty_problem ;;
  p <- closing D x u N_mic P umax umin xmin xmax x0 p ;;
  match L with
  | Some L =>
      L <- wrap_psd L ;;
      for_acc (py_range 0 N_cpl)
        (fun t p => cost D p (HalfScaledQuad L_lambda (Col x t) L)) p
  | None => Ok p
  end.

(** One micro stage of [mesocoupling_solve] (lines 197-211). *)
Definition micro_stage (D : dims) (A_mic B_mic : Mat F) (R_mic L : weight)
           (L_lambda : F)
           (xmin_mic xmax_mic : option (Mat F)) (coll_d : option F)
           (nx_mic adim t : nat) (p : problem) : outcome problem :=
  p <- cost D p (HalfScaledQuad L_lambda (Col x_mic t) L) ;;
  p <- cost D p (HalfQuad (Col u_mic t) R_mic) ;;
  p <- constrain D p (EqC (Col x_mic (t + 1))
                          (Add (Mul A_mic (Col x_mic t)) (Mul B_mic (Col u_mic t)))) ;;
  p <- constrain_if D xmin_mic (fun m => GeC (Col x_mic t) (Col0 m)) p ;;
  p <- constrain_if D xmax_mic (fun m => LeC (Col x_mic t) (Col0 m)) p ;;
  match coll_d with
  | Some d => collision_coupling D x_mic nx_mic adim t d p
  | None => Ok p
  end.

(** The problem [mesocoupling_solve] passes to [cvxpy.Problem]. *)
Definition mesocoupling_problem (A_mes B_mes : Mat F) (N_mes : nat)
           (Q R_mes P : Mat F) (x0_mes : Vec F) (adim : nat)
           (A_mic B_mic : Mat F) (N_mic : nat) (R_mic : Mat F) (x0_mic : Vec F)
           (L : option (Mat F)) (L_lambda : F)
           (umax_mes umin_mes umax_mic umin_mic : option (Mat F))
           (xmin_mes xmax_mes xmin_mic xmax_mic : option (Mat F))
           (x_star_in : option (Vec F)) (coll_d : option F) : outcome problem :=
  let nx_mes := nrows B_mes in
  let nu_mes := ncols B_mes in
  let nx_mic := nrows B_mic in
  let nu_mic := ncols B_mic in
  Q <- wrap_psd Q ;;
  R_mes <- wrap_psd R_mes ;;
  R_mic <- wrap_psd R_mic ;;
  P <- wrap_psd P ;;
  _ <- declare nx_mes (N_mes + 1) ;;
  _ <- declare nx_mic (N_mic + 1) ;;
  _ <- declare nu_mes N_mes ;;
  _ <- declare nu_mic N_mic ;;
  let D := two_scale nx_mes nu_mes N_mes nx_mic nu_mic N_mic in
  p <- for_acc (py_range 0 N_mes)
         (fun t p => stage D x_mes u_mes A_mes B_mes Q R_mes
                       xmin_mes xmax_mes x_star_in t p) empty_problem ;;
  p <- closing D x_mes u_mes N_mes P umax_mes umin_mes xmin_mes xmax_mes x0_mes p ;;
  match L with
  | Some L =>
      L <- wrap_psd L ;;
      p <- for_acc (py_range 0 N_mic)
             (micro_stage D A_mic B_mic R_mic L L_lambda xmin_mic xmax_mic coll_d
                nx_mic adim) p ;;
      p <- constrain_if D umax_mic (fun m => LeC (Whole u_mic) (ConstM m)) p ;;
      p <- constrain_if D umin_mic (fun m => GeC (Whole u_mic) (ConstM m)) p ;;
      constrain D p (EqC (Col x_mic 0) (Const x0_mic))
  | None => Ok p
  end.

(** *** Which variables a problem mentions *)

Fixpoint expr_mentions (w : var) (e : expr) : bool :=
  match e with
  | Col v _ | Slice v _ _ _ | Whole v => var_eqb w v
  | Const _ | Col0 _ | ConstM _ => false
  | Sub a b | Add a b => expr_mentions w a || expr_mentions w b
  | Mul _ e => expr_mentions w e
  end.

Definition term_mentions (w : var) (t : term) : bool :=
  match t with
  | HalfQuad e _ | HalfScaledQuad _ e _ => expr_mentions w e
  end.

Definition constr_mentions (w : var) (c : constr) : bool :=
  match c with
  | EqC a b | GeC a b | LeC a b => expr_mentions w a || expr_mentions w b
  | Norm2Ge e _ => expr_mentions w e
  end.

Definition problem_mentions (w : var) (p : problem) : bool :=
  existsb (term_mentions w) (costlist p) || existsb (constr_mentions w) (constrlist p).

(** *** [prob.solve] and the values read back

    [cvxpy_solve] stands for cvxpy: it may raise, and otherwise gives
    the optimal value and a value for the variables it solved for.
    After [prob.solve()] a [Variable] that is not part of the problem
    still has [value None]. *)
Variable cvxpy_solve : problem -> outcome ((var -> option (Mat F)) * F).

Definition value_of (p : problem) (sol : var -> option (Mat F)) (v : var)
  : option (Mat F) :=
  if problem_mentions v p then sol v else None.

Definition conventional_solve A B N Q R P x0 adim umax umin xmin xmax x_star_in coll_d
  : outcome (option (Mat F) * option (Mat F) * F) :=
  prob <- conventional_problem A B N Q R P x0 adim umax umin xmin xmax
            x_star_in coll_d ;;
  sol <- cvxpy_solve prob ;;
  let cost_val := snd sol in
  Ok (value_of prob (fst sol) x, value_of prob (fst sol) u, cost_val).

Definition microcoupling_solve A B N_mic Q R P x0 adim N_cpl L L_lambda
           umax umin xmin xmax x_star_in coll_d
  : outcome (option (Mat F) * option (Mat F) * F) :=
  prob <- microcoupling_problem A B N_mic Q R P x0 adim N_cpl L L_lambda
            umax umin xmin xmax x_star_in coll_d ;;
  sol <- cvxpy_solve prob ;;
  let cost_val := snd sol in
  Ok (value_of prob (fst sol) x, value_of prob (fst sol) u, cost_val).

Definition mesocoupling_solve A_mes B_mes N_mes Q R_mes P x0_mes adim
           A_mic B_mic N_mic R_mic x0_mic L L_lambda
           umax_mes umin_mes umax_mic umin_mic
           xmin_mes xmax_mes xmin_mic xmax_mic x_star_in coll_d
  : outcome (option (Mat F) * option (Mat F) * option (Mat F) * option (Mat F) * F) :=
  prob <- mesocoupling_problem A_mes B_mes N_mes Q R_mes P x0_mes adim
            A_mic B_mic N_mic R_mic x0_mic L L_lambda
            umax_mes umin_mes umax_mic umin_mic
            xmin_mes xmax_mes xmin_mic xmax_mic x_star_in coll_d ;;
  sol <- cvxpy_solve prob ;;
  let cost_val := snd sol in
  Ok (value_of prob (fst sol) x_mes, value_of prob (fst sol) x_mic,
      value_of prob (fst sol) u_mes, value_of prob (fst sol) u_mic, cost_val).

End Problems.
End mpc_solver.

(** ** [src/system.py]: agents *)

Module LinearAgentNd.
Section Agent.
Context {F : Type} `{Scalar F}.

Record t : Type := mk {
  A : Mat F;
  B : Mat F;
  state : Vec F;
  agent_dim : nat
}.

(** [__init__(self, A, B, agent_dim, init_state)] *)
Definition init (A B : Mat F) (agent_dim : nat) (init_state : Vec F) : outcome t :=
  assert (length init_state =? agent_dim) ;;
  assert (shape_eqb (shape A) (agent_dim, agent_dim)) ;;
  assert (ncols B =? agent_dim) ;;
  Ok (mk A B init_state agent_dim).

(** [self.state = self.A @ self.state + self.B @ control_val] *)
Definition propagate_input (self : t) (control_val : Vec F) : outcome t :=
  ax <- matvec (A self) (state self) ;;
  bu <- matvec (B self) control_val ;;
  s <- vadd ax bu ;;
  Ok (mk (A self) (B self) s (agent_dim self)).

(** [set_state(self, input_state)] *)
Definition set_state (self : t) (input_state : Vec F) : outcome t :=
  assert (length (state self) =? length input_state) ;;
  Ok (mk (A self) (B self) input_state (agent_dim self)).

End Agent.
Arguments t F : clear implicits.
End LinearAgentNd.

(** ** The agent objects, shared by the system and its clusters

    The system keeps its agents in a dictionary from index to agent
    object, in insertion order.  A cluster keeps references to the same
    objects, so an agent is named by its index in the system's dictionary
    and a method that mutates an agent rewrites that entry. *)

Section Store.
Context {F : Type} `{Scalar F}.

Definition store : Type := list (nat * LinearAgentNd.t F).

Fixpoint find_agent (k : nat) (st : store) : option (LinearAgentNd.t F) :=
  match st with
  | [] => None
  | (k', a) :: st' => if k =? k' then Some a else find_agent k st'
  end.

Fixpoint put_agent (k : nat) (a : LinearAgentNd.t F) (st : store) : store :=
  match st with
  | [] => []
  | (k', a') :: st' =>
      if k =? k' then (k', a) :: st' else (k', a') :: put_agent k a st'
  end.

(** The dynamics of the agents, which no method is meant to touch. *)
Definition dynamics (st : store) : list (nat * (Mat F * Mat F * nat)) :=
  map (fun ka => (fst ka, (LinearAgentNd.A (snd ka), LinearAgentNd.B (snd ka),
                           LinearAgentNd.agent_dim (snd ka)))) st.

(** Calling a mutating agent method on the object named [k]. *)
Definition on_agent (k : nat) (f : LinearAgentNd.t F -> outcome (LinearAgentNd.t F))
  : M store unit :=
  fun st =>
    match find_agent k st with
    | None => (Raise KeyError, st)
    | Some a =>
        match f a with
        | Ok a' => (Ok tt, put_agent k a' st)
        | Raise e => (Raise e, st)
        end
    end.
End Store.

Arguments store F : clear implicits.

(** ** [src/system.py]: clusters *)

Module LinearClusterNd.
Section Cluster.
Context {F : Type} `{Scalar F}.

(** [agents] lists the values of the cluster's dictionary, in its
    order, as references into the agent store. *)
Record t : Type := mk {
  agents : list nat;
  n_agents : nat;
  full_cluster_state : Mat F;
  centroid : Vec F
}.

Definition set_full_cluster_state (m : Mat F) (c : t) : t :=
  mk (agents c) (n_agents c) m (centroid c).
Definition set_centroid (v : Vec F) (c : t) : t :=
  mk (agents c) (n_agents c) (full_cluster_state c) v.

(** [update_centroid(self)]: reads the agents, mutates the cluster. *)
Definition update_centroid (st : store F) : M t (Vec F) :=
  n <~ gets n_agents ;;
  for_each (py_range 0 n)
    (fun idx =>
       ags <~ gets agents ;;
       ref <~ lift (match nth_error ags idx with
                    | Some r => Ok r
                    | None => Raise IndexError
                    end) ;;
       agent <~ lift (match find_agent ref st with
                      | Some a => Ok a
                      | None => Raise KeyError
                      end) ;;
       fcs <~ gets full_cluster_state ;;
       fcs' <~ lift (set_row fcs idx (LinearAgentNd.state agent)) ;;
       modify (set_full_cluster_state fcs')) ;;;
  fcs <~ gets full_cluster_state ;;
  modify (set_centroid (mean_axis0 fcs)) ;;;
  gets centroid.

(** [__init__(self, agents, n_agents, agent_dim)] *)
Definition init (st : store F) (agents : list nat) (n_agents agent_dim : nat)
  : outcome t :=
  assert (n_agents =? length agents) ;;
  let self := mk agents n_agents (zeros n_agents agent_dim) [] in
  match update_centroid st self with
  | (Ok c, self) => Ok (set_centroid c self)
  | (Raise e, _) => Raise e
  end.

(** Running a method of the cluster inside a state that also holds
    the agents. *)
Definition on_store {X : Type} (m : M (store F) X) : M (store F * t) X :=
  fun s =>
    match m (fst s) with
    | (r, st') => (r, (st', snd s))
    end.

Definition on_self {X : Type} (m : store F -> M t X) : M (store F * t) X :=
  fun s =>
    match m (fst s) (snd s) with
    | (r, c') => (r, (fst s, c'))
    end.

(** [propagate_input(self, control_val)] *)
Definition propagate_input (control_val : Vec F) : M (store F * t) unit :=
  ags <~ gets (fun s => agents (snd s)) ;;
  for_each ags
    (fun ref =>
       on_store (on_agent ref
                   (fun a => LinearAgentNd.propagate_input a control_val))) ;;;
  _ <~ on_self update_centroid ;;
  ret tt.

End Cluster.
Arguments t F : clear implicits.
End LinearClusterNd.

(** ** [src/system.py]: the orchestrator *)

Module MultiAgentSystem.
Section System.
Context {F : Type} `{Scalar F}.

Record t : Type := mk {
  n_agents : nat;
  agent_dim : nat;
  control_dim : nat;
  full_system_state : Mat F;
  system_goal : Vec F;
  agents : store F;
  clust_algo : string;
  clust_algo_params : list F;
  avg_goal_dist : F;
  control_solution_time : F;
  clust_labels : list Z;
  n_clusters : Z;
  clusters : list (nat * LinearClusterNd.t F);
  cluster_centroids : list (nat * Vec F)
}.

(** What the methods leave behind besides the object: the calls they
    made, in order, and how often the clock was read. *)
Inductive event : Type :=
| EvSolve (A B : Mat F) (n_t : nat) (Q R P : Mat F) (x0 : Vec F)
          (x_star_in : option (Vec F)) (umax umin : option (Mat F))
| EvSetState (adx : nat) (input_state : Vec F)
| EvReEval.

Record world : Type := mkWorld {
  self : t;
  trace : list event;
  ticks : nat
}.

(** The libraries and collaborators the class calls. *)
Record externals : Type := mkExt {
  (* [hcluster.fclusterdata(X, thresh, criterion='distance')] *)
  fclusterdata : Mat F -> F -> outcome (list Z);
  (* [HDBSCAN(alpha, leaf_size, min_cluster_size, min_samples=1).fit(X).labels_] *)
  hdbscan_labels : F -> F -> F -> Mat F -> outcome (list Z);
  (* [mpc_solver.use_modeling_tool(A, B, n_t, Q, R, P, x0, x_star_in, umax, umin)];
     the state trajectory is [None] when the solver found no solution *)
  use_modeling_tool :
    Mat F -> Mat F -> nat -> Mat F -> Mat F -> Mat F -> Vec F ->
    option (Vec F) -> option (Mat F) -> option (Mat F) ->
    outcome (option (Mat F) * option (Mat F) * F);
  (* the successive readings of [time.time()] *)
  time_time : nat -> F
}.

Variable ext : externals.

(** *** Field assignments *)

Definition set_full_system_state (m : Mat F) (s : t) : t :=
  mk (n_agents s) (agent_dim s) (control_dim s) m (system_goal s) (agents s)
     (clust_algo s) (clust_algo_params s) (avg_goal_dist s)
     (control_solution_time s) (clust_labels s) (n_clusters s) (clusters s)
     (cluster_centroids s).
Definition set_agents (a : store F) (s : t) : t :=
  mk (n_agents s) (agent_dim s) (control_dim s) (full_system_state s)
     (system_goal s) a (clust_algo s) (clust_algo_params s) (avg_goal_dist s)
     (control_solution_time s) (clust_labels s) (n_clusters s) (clusters s)
     (cluster_centroids s).
Definition set_avg_goal_dist (d : F) (s : t) : t :=
  mk (n_agents s) (agent_dim s) (control_dim s) (full_system_state s)
     (system_goal s) (agents s) (clust_algo s) (clust_algo_params s) d
     (control_solution_time s) (clust_labels s) (n_clusters s) (clusters s)
     (cluster_centroids s).
Definition set_control_solution_time (d : F) (s : t) : t :=
  mk (n_agents s) (agent_dim s) (control_dim s) (full_system_state s)
     (system_goal s) (agents s) (clust_algo s) (clust_algo_params s)
     (avg_goal_dist s) d (clust_labels s) (n_clusters s) (clusters s)
     (cluster_centroids s).
Definition set_clust_labels (l : list Z) (s : t) : t :=
  mk (n_agents s) (agent_dim s) (control_dim s) (full_system_state s)
     (system_goal s) (agents s) (clust_algo s) (clust_algo_params s)
     (avg_goal_dist s) (control_solution_time s) l (n_clusters s) (clusters s)
     (cluster_centroids s).
Definition set_n_clusters (n : Z) (s : t) : t :=
  mk (n_agents s) (agent_dim s) (control_dim s) (full_system_state s)
     (system_goal s) (agents s) (clust_algo s) (clust_algo_params s)
     (avg_goal_dist s) (control_solution_time s) (clust_labels s) n (clusters s)
     (cluster_centroids s).
Definition set_clusters (c : list (nat * LinearClusterNd.t F)) (s : t) : t :=
  mk (n_agents s) (agent_dim s) (control_dim s) (full_system_state s)
     (system_goal s) (agents s) (clust_algo s) (clust_algo_params s)
     (avg_goal_dist s) (control_solution_time s) (clust_labels s) (n_clusters s) c
     (cluster_centroids s).
Definition set_cluster_centroids (c : list (nat * Vec F)) (s : t) : t :=
  mk (n_agents s) (agent_dim s) (control_dim s) (full_system_state s)
     (system_goal s) (agents s) (clust_algo s) (clust_algo_params s)
     (avg_goal_dist s) (control_solution_time s) (clust_labels s) (n_clusters s)
     (clusters s) c.

Definition on_sys (f : t -> t) (w : world) : world :=
  mkWorld (f (self w)) (trace w) (ticks w).

Definition getf {X : Type} (f : t -> X) : M world X := gets (fun w => f (self w)).
Definition setf (f : t -> t) : M world unit := modify (on_sys f).

Definition log (e : event) : M world unit :=
  modify (fun w => mkWorld (self w) (trace w ++ [e]) (ticks w)).

(** [time.time()] *)
Definition tick : M world F :=
  fun w => (Ok (time_time ext (ticks w)), mkWorld (self w) (trace w) (S (ticks w))).

(** [agent.m(...)] for the agent object stored under [k] *)
Definition call_agent (k : nat)
           (f : LinearAgentNd.t F -> outcome (LinearAgentNd.t F)) : M world unit :=
  fun w =>
    match on_agent k f (agents (self w)) with
    | (r, st') => (r, on_sys (set_agents st') w)
    end.

(** The agent object a loop variable is bound to, as it is now. *)
Definition the_agent (k : nat) : M world (LinearAgentNd.t F) :=
  ags <~ getf agents ;;
  lift (match find_agent k ags with
        | Some a => Ok a
        | None => Raise KeyError
        end).

(** *** [_re_eval_clusters] *)

(** [np.where(labels == cdx)[0]] *)
Definition where_eq (labels : list Z) (cdx : Z) : list nat :=
  filter (fun i => Z.eqb (nth i labels 0%Z) cdx) (seq 0 (length labels)).

(** [max(labels)] *)
Definition py_max (labels : list Z) : outcome Z :=
  match labels with
  | [] => Raise (ValueError "max() arg is an empty sequence")
  | l :: ls => Ok (fold_left Z.max ls l)
  end.

(** The dictionary comprehension [{loc_idx : self.agents[loc_idx] ...}]:
    every index must be a key of [self.agents]. *)
Fixpoint agent_refs (st : store F) (idxs : list nat) : outcome (list nat) :=
  match idxs with
  | [] => Ok []
  | i :: idxs' =>
      match find_agent i st with
      | Some _ => rs <- agent_refs st idxs' ;; Ok (i :: rs)
      | None => Raise KeyError
      end
  end.

(** Lines 120-136: the labels of the configured algorithm. *)
Definition identify_clusters (algo : string) (algo_parameters : list F)
           (full_system_state : Mat F) : outcome (list Z) :=
  if String.eqb algo "hierarchy" then
    thresh <- match algo_parameters with
              | th :: _ => Ok th
              | [] => Raise IndexError
              end ;;
    ls <- fclusterdata ext full_system_state thresh ;;
    Ok (map (fun l => (l - 1)%Z) ls)
  else if String.eqb algo "hdbscan" then
    p <- match algo_parameters with
         | [alpha; leaf_size; min_cluster_size] =>
             Ok (alpha, leaf_size, min_cluster_size)
         | _ => Raise (ValueError "wrong number of values to unpack")
         end ;;
    hdbscan_labels ext (fst (fst p)) (snd (fst p)) (snd p) full_system_state
  else
    Raise (ValueError "Cluster identification algorithm not implemented").

Definition _re_eval_clusters : M world unit :=
  algo <~ getf clust_algo ;;
  algo_parameters <~ getf clust_algo_params ;;
  fss <~ getf full_system_state ;;
  ls <~ lift (identify_clusters algo algo_parameters fss) ;;
  setf (set_clust_labels ls) ;;;
  labels <~ getf clust_labels ;;
  mx <~ lift (py_max labels) ;;
  setf (set_n_clusters (mx + 1)%Z) ;;;
  setf (set_clusters []) ;;;
  setf (set_cluster_centroids []) ;;;
  n <~ getf n_clusters ;;
  for_each (py_range 0 (Z.to_nat n))
    (fun cdx =>
       labels <~ getf clust_labels ;;
       let agent_indices := where_eq labels (Z.of_nat cdx) in
       let n_agents_clust := length agent_indices in
       ags <~ getf agents ;;
       refs <~ lift (agent_refs ags agent_indices) ;;
       d <~ getf agent_dim ;;
       cluster <~ lift (LinearClusterNd.init ags refs n_agents_clust d) ;;
       cs <~ getf clusters ;;
       setf (set_clusters (cs ++ [(cdx, cluster)])) ;;;
       ccs <~ getf cluster_centroids ;;
       setf (set_cluster_centroids (ccs ++ [(cdx, LinearClusterNd.centroid cluster)]))).

(** *** [_re_eval_system] *)

(** [np.linalg.norm(M - goal, axis=1).mean(axis=0)] *)
Definition goal_distance (M : Mat F) (goal : Vec F) : outcome F :=
  d <- msub_row M goal ;;
  Ok (vmean (map norm2 d)).

(** Lines 111-113: the state matrix and the average goal distance. *)
Definition gather_agent_states : M world unit :=
  ags <~ getf agents ;;
  for_each (map fst ags)
    (fun idx =>
       agent <~ the_agent idx ;;
       fss <~ getf full_system_state ;;
       fss' <~ lift (set_row fss idx (LinearAgentNd.state agent)) ;;
       setf (set_full_system_state fss')) ;;;
  fss <~ getf full_system_state ;;
  goal <~ getf system_goal ;;
  d <~ lift (goal_distance fss goal) ;;
  setf (set_avg_goal_dist d).

Definition _re_eval_system : M world unit :=
  log EvReEval ;;;
  gather_agent_states ;;;
  _re_eval_clusters.

(** *** [__init__] *)

Definition state_generator : Type :=
  (Mat F -> Mat F -> nat -> Vec F -> outcome (LinearAgentNd.t F)) ->
  nat -> nat -> list F -> outcome (store F).

(** Lines 97-106.  The attributes that [_re_eval_clusters] binds
    ([clust_labels], [n_clusters], [clusters], [cluster_centroids]) do not
    exist yet; they are given empty values, which no path that returns
    from [__init__] leaves in place. *)
Definition new_system (n_agents agent_dim control_dim : nat) (global_goal : Vec F)
           (agents : store F) (clust_algo : string) (clust_algo_params : list F) : t :=
  mk n_agents agent_dim control_dim (zeros n_agents agent_dim) global_goal agents
     clust_algo clust_algo_params finf f0 [] 0%Z [] [].

Definition init (n_agents agent_dim control_dim : nat) (global_goal : Vec F)
           (state_gen : state_generator) (state_gen_args : list F)
           (clust_algo : string) (clust_algo_params : list F)
           (w0 : list event * nat) : outcome unit * world :=
  match state_gen LinearAgentNd.init agent_dim n_agents state_gen_args with
  | Raise e =>
      (Raise e,
       mkWorld (new_system n_agents agent_dim control_dim global_goal []
                  clust_algo clust_algo_params) (fst w0) (snd w0))
  | Ok ags =>
      _re_eval_system
        (mkWorld (new_system n_agents agent_dim control_dim global_goal ags
                    clust_algo clust_algo_params) (fst w0) (snd w0))
  end.

(** *** [update_system_simplified] *)

(** What a loop variable over a dictionary of clusters can be bound to:
    a key of the dictionary or one of its values. *)
Inductive pyobj : Type :=
| PyInt (n : nat)
| PyCluster (key : nat).

(** Iterating a dictionary yields its keys. *)
Definition iter_dict {V : Type} (d : list (nat * V)) : list pyobj :=
  map (fun kv => PyInt (fst kv)) d.

Fixpoint find_cluster (k : nat) (cs : list (nat * LinearClusterNd.t F))
  : option (LinearClusterNd.t F) :=
  match cs with
  | [] => None
  | (k', c) :: cs' => if k =? k' then Some c else find_cluster k cs'
  end.

Fixpoint put_cluster (k : nat) (c : LinearClusterNd.t F)
         (cs : list (nat * LinearClusterNd.t F)) : list (nat * LinearClusterNd.t F) :=
  match cs with
  | [] => []
  | (k', c') :: cs' =>
      if k =? k' then (k', c) :: cs' else (k', c') :: put_cluster k c cs'
  end.

(** [o.centroid] *)
Definition getattr_centroid (dict : list (nat * LinearClusterNd.t F)) (o : pyobj)
  : outcome (Vec F) :=
  match o with
  | PyInt _ => Raise (AttributeError "'int' object has no attribute 'centroid'")
  | PyCluster k =>
      match find_cluster k dict with
      | Some c => Ok (LinearClusterNd.centroid c)
      | None => Raise KeyError
      end
  end.

(** [o.propagate_input(control)]: for a cluster of the dictionary
    [dict] the call mutates the member agents and the cluster; the
    dictionary with the mutated cluster is returned. *)
Definition call_propagate_input (dict : list (nat * LinearClusterNd.t F))
           (o : pyobj) (control : Vec F)
  : M world (list (nat * LinearClusterNd.t F)) :=
  match o with
  | PyInt _ =>
      raise (AttributeError "'int' object has no attribute 'propagate_input'")
  | PyCluster k =>
      match find_cluster k dict with
      | None => raise KeyError
      | Some c =>
          fun w =>
            match LinearClusterNd.propagate_input control (agents (self w), c) with
            | (r, (st', c')) =>
                (match r with
                 | Ok _ => Ok (put_cluster k c' dict)
                 | Raise e => Raise e
                 end,
                 on_sys (set_agents st') w)
            end
      end
  end.

(** [for cluster in self.clusters:] runs over the dictionary that
    [self.clusters] names when the loop starts; [_re_eval_system]
    rebinds the attribute to a new dictionary and leaves that one as
    it is. *)
Definition update_system_simplified (step_size : F) : M world unit :=
  dict <~ getf clusters ;;
  _ <~ for_fold (iter_dict dict)
         (fun cluster dict =>
            centroid <~ lift (getattr_centroid dict cluster) ;;
            goal <~ getf system_goal ;;
            diff <~ lift (vsub goal centroid) ;;
            let meso_control := vscale step_size diff in
            dict' <~ call_propagate_input dict cluster meso_control ;;
            _re_eval_system ;;;
            ret dict') dict ;;
  ret tt.

(** *** [update_system_mpc_distributed] *)

(** [state_dynamics[:, -1]] *)
Definition terminal_state (state_dynamics : option (Mat F)) : outcome (Vec F) :=
  match state_dynamics with
  | None => Raise TypeError
  | Some sd => last_col sd
  end.

(** [state_dynamics[lo:hi, -1]] *)
Definition terminal_slice (state_dynamics : option (Mat F)) (lo hi : nat)
  : outcome (Vec F) :=
  match state_dynamics with
  | None => Raise TypeError
  | Some sd => last_col_slice sd lo hi
  end.

Definition solve (A B : Mat F) (n_t : nat) (Q R P : Mat F) (x0 : Vec F)
           (x_star_in : option (Vec F)) (umax umin : option (Mat F))
  : M world (option (Mat F) * option (Mat F) * F) :=
  log (EvSolve A B n_t Q R P x0 x_star_in umax umin) ;;;
  lift (use_modeling_tool ext A B n_t Q R P x0 x_star_in umax umin).

Definition set_state (adx : nat) (input_state : Vec F) : M world unit :=
  log (EvSetState adx input_state) ;;;
  call_agent adx (fun a => LinearAgentNd.set_state a input_state).

(** [cost_val /= self.n_agents]: the Python float [0.], left untouched
    by an empty loop, raises on a zero divisor; a value returned by the
    solver is divided as numpy divides. *)
Definition divide_cost (cost_val : F) (looped : bool) (n : nat) : outcome F :=
  if negb looped && (n =? 0) then Raise ZeroDivisionError
  else Ok (fdiv cost_val (fof_nat n)).

(** The body of the loop over the agents, lines 185-194, for the agent
    stored under [k]. *)
Definition solve_round (Q R P : Mat F) (n_t : nat) (umax umin : option (Mat F))
           (k : nat) (cost_val : F) : M world F :=
  agent <~ the_agent k ;;
  let A := LinearAgentNd.A agent in
  let B := LinearAgentNd.B agent in
  let x0 := LinearAgentNd.state agent in
  goal <~ getf system_goal ;;
  r <~ solve A B n_t Q R P x0 (Some goal) umax umin ;;
  let state_dynamics := fst (fst r) in
  let cost_val_agnt := snd r in
  let cost_val := fadd cost_val cost_val_agnt in
  xN <~ lift (terminal_state state_dynamics) ;;
  set_state k xN ;;;
  _re_eval_system ;;;
  ret cost_val.

Definition update_system_mpc_distributed (Q R P : Mat F) (n_t : nat)
           (umax umin : option (Mat F)) : M world (F * F) :=
  time_0 <~ tick ;;
  ags <~ getf agents ;;
  cost_val <~ for_fold (map fst ags) (solve_round Q R P n_t umax umin) f0 ;;
  time_1 <~ tick ;;
  t <~ getf control_solution_time ;;
  setf (set_control_solution_time (fadd t (fsub time_1 time_0))) ;;;
  n <~ getf n_agents ;;
  cost_val <~ lift (divide_cost cost_val (negb (length ags =? 0)) n) ;;
  d <~ getf avg_goal_dist ;;
  ret (d, cost_val).

(** *** [update_system_mpc] *)

(** Lines 218-224: the joint dynamics, filled block by block. *)
Definition joint_dynamics (s : t) : outcome (Mat F * Mat F) :=
  let d := agent_dim s in
  let c := control_dim s in
  let n := n_agents s in
  for_acc (agents s)
    (fun ka AB =>
       let adx := fst ka in
       let agent := snd ka in
       A <- set_block (fst AB) (adx * d) ((adx + 1) * d) (adx * d) ((adx + 1) * d)
              (LinearAgentNd.A agent) ;;
       B <- set_block (snd AB) (adx * d) ((adx + 1) * d) (adx * c) ((adx + 1) * c)
              (LinearAgentNd.B agent) ;;
       Ok (A, B))
    (zeros (d * n) (d * n), zeros (d * n) (c * n)).

Definition update_system_mpc (Q R P : Mat F) (n_t : nat)
           (umax umin : option (Mat F)) : M world (F * F) :=
  time_0 <~ tick ;;
  s <~ gets self ;;
  AB <~ lift (joint_dynamics s) ;;
  let A := fst AB in
  let B := snd AB in
  let x0 := flatten (full_system_state s) in
  let goal := kron (ones (n_agents s)) (system_goal s) in
  r <~ solve A B n_t Q R P x0 (Some goal) umax umin ;;
  let state_dynamics := fst (fst r) in
  let cost_val := snd r in
  time_1 <~ tick ;;
  t <~ getf control_solution_time ;;
  setf (set_control_solution_time (fadd t (fsub time_1 time_0))) ;;;
  ags <~ getf agents ;;
  d <~ getf agent_dim ;;
  for_each (map fst ags)
    (fun adx =>
       xN <~ lift (terminal_slice state_dynamics (adx * d) ((adx + 1) * d)) ;;
       set_state adx xN) ;;;
  _re_eval_system ;;;
  dist <~ getf avg_goal_dist ;;
  ret (dist, cost_val).

End System.
Arguments t F : clear implicits.
Arguments world F : clear implicits.
Arguments event F : clear implicits.
Arguments externals F : clear implicits.
End MultiAgentSystem.

(** ** Closed forms of the problems built by [mpc_solver] *)

Module mpc_forms.
Import mpc_solver.
Section Forms.
Context {F : Type} `{Scalar F}.

(** A problem with further summands and constraints appended. *)
Definition extend (p : problem (F:=F)) (cs : list term) (ks : list constr) : problem :=
  mkProblem (costlist p ++ cs) (constrlist p ++ ks).

Definition opt_constr {A : Type} (o : option A) (f : A -> constr (F:=F))
  : list constr :=
  match o with
  | Some a => [f a]
  | None => []
  end.

(** Stage [t] of a single-scale problem. *)
Definition stage_costs (xv uv : var) (Q R : weight) (x_star_in : option (Vec F))
           (t : nat) : list term :=
  [state_cost xv t x_star_in Q; HalfQuad (Col uv t) R].

Definition stage_constrs (xv uv : var) (A B : Mat F) (xmin xmax : option (Mat F))
           (t : nat) : list constr :=
  [EqC (Col xv (t + 1)) (Add (Mul A (Col xv t)) (Mul B (Col uv t)))]
  ++ opt_constr xmin (fun m => GeC (Col xv t) (Col0 m))
  ++ opt_constr xmax (fun m => LeC (Col xv t) (Col0 m)).

Definition closing_constrs (xv uv : var) (N : nat)
           (umax umin xmin xmax : option (Mat F)) (x0 : Vec F) : list constr :=
  opt_constr xmin (fun m => GeC (Col xv N) (Col0 m))
  ++ opt_constr xmax (fun m => LeC (Col xv N) (Col0 m))
  ++ opt_constr umax (fun m => LeC (Whole uv) (ConstM m))
  ++ opt_constr umin (fun m => GeC (Whole uv) (ConstM m))
  ++ [EqC (Col xv 0) (Const x0)].

(** The separation constraints of one stage: [idx] over [nb] blocks,
    [jdx] from [idx + 1] up to [hi - 1]. *)
Definition separations (v : var) (adim nb hi t : nat) (d : F) : list constr :=
  flat_map (fun idx => map (fun jdx => separation v adim idx jdx t d)
                         (py_range (idx + 1) hi))
           (py_range 0 nb).

Definition opt_separations (v : var) (adim nb hi t : nat) (coll_d : option F)
  : list constr :=
  match coll_d with
  | Some d => separations v adim nb hi t d
  | None => []
  end.

(** The meso-scale part of the two-scale problem. *)
Definition meso_problem (A_mes B_mes : Mat F) (N_mes : nat) (Q R_mes P : Mat F)
           (x0_mes : Vec F) (umax_mes umin_mes xmin_mes xmax_mes : option (Mat F))
           (x_star_in : option (Vec F)) : problem :=
  mkProblem
    (flat_map (stage_costs x_mes u_mes (psd_wrap Q) (psd_wrap R_mes) x_star_in)
              (seq 0 N_mes)
     ++ [HalfQuad (Col x_mes N_mes) (psd_wrap P)])
    (flat_map (stage_constrs x_mes u_mes A_mes B_mes xmin_mes xmax_mes) (seq 0 N_mes)
     ++ closing_constrs x_mes u_mes N_mes umax_mes umin_mes xmin_mes xmax_mes x0_mes).

(** Stage [t] of the micro-scale part of the two-scale problem. *)
Definition micro_stage_costs (R_mic L : weight) (L_lambda : F) (t : nat)
  : list term :=
  [HalfScaledQuad L_lambda (Col x_mic t) L; HalfQuad (Col u_mic t) R_mic].

Definition micro_stage_constrs (A_mic B_mic : Mat F)
           (xmin_mic xmax_mic : option (Mat F)) (t : nat) : list constr :=
  [EqC (Col x_mic (t + 1)) (Add (Mul A_mic (Col x_mic t)) (Mul B_mic (Col u_mic t)))]
  ++ opt_constr xmin_mic (fun m => GeC (Col x_mic t) (Col0 m))
  ++ opt_constr xmax_mic (fun m => LeC (Col x_mic t) (Col0 m)).

Definition micro_closing_constrs (umax_mic umin_mic : option (Mat F))
           (x0_mic : Vec F) : list constr :=
  opt_constr umax_mic (fun m => LeC (Whole u_mic) (ConstM m))
  ++ opt_constr umin_mic (fun m => GeC (Whole u_mic) (ConstM m))
  ++ [EqC (Col x_mic 0) (Const x0_mic)].

(** The coupling terms [microcoupling_solve] adds to the objective. *)
Definition coupling_costs (L : option (Mat F)) (L_lambda : F) (N_cpl : nat)
  : list term :=
  match L with
  | Some L => map (fun t => HalfScaledQuad L_lambda (Col x t) (psd_wrap L))
                  (seq 0 N_cpl)
  | None => []
  end.

Definition is_separation (c : constr (F:=F)) : bool :=
  match c with
  | Norm2Ge _ _ => true
  | _ => false
  end.

(** The constraint [norm2(v[i*adim:(i+1)*adim, t] - v[j*adim:(j+1)*adim, t]) >= d]
    that keeps the blocks [i] and [j] of the state apart at stage [t]. *)
Definition block_pair (v : var) (adim i j t : nat) (d : F) : constr :=
  Norm2Ge (Sub (Slice v (i * adim) ((i + 1) * adim) t)
               (Slice v (j * adim) ((j + 1) * adim) t)) d.

(** The norm constraints among [cs] are exactly those between the
    blocks [i < j < hi] at the stages [t < N]. *)
Definition separates_exactly (v : var) (adim hi N : nat) (d : F)
           (cs : list constr) : Prop :=
  (forall c, In c cs -> is_separation c = true ->
             exists i j t, c = block_pair v adim i j t d /\ i < j < hi /\ t < N)
  /\ (forall i j t, i < j < hi -> t < N -> In (block_pair v adim i j t d) cs).

(** No constraint of [cs] relates the block [b] to another block. *)
Definition block_unconstrained (v : var) (adim b : nat) (cs : list constr) : Prop :=
  forall i t d, ~ In (block_pair v adim i b t d) cs
                /\ ~ In (block_pair v adim b i t d) cs.

(** *** Operands that fit

    The shapes under which cvxpy builds the problem: [B] is [nx] x [nu]
    with both positive, the horizon is positive, [A], [Q] and [P] are
    [nx] x [nx], [R] is [nu] x [nu], the initial state and the reference
    have [nx] entries, a state bound has [nx] rows and at least one
    column, an input bound has the shape of [u]. *)

Definition reference_fits (n : nat) (x_star_in : option (Vec F)) : Prop :=
  match x_star_in with
  | Some r => length r = n
  | None => True
  end.

Definition state_bound_fits (n : nat) (b : option (Mat F)) : Prop :=
  match b with
  | Some m => nrows m = n /\ 0 < ncols m
  | None => True
  end.

Definition input_bound_fits (nu N : nat) (b : option (Mat F)) : Prop :=
  match b with
  | Some m => nrows m = nu /\ ncols m = N
  | None => True
  end.

Definition square (n : nat) (W : Mat F) : Prop := nrows W = n /\ ncols W = n.

Definition horizon_fits (B : Mat F) (N : nat) : Prop :=
  0 < nrows B /\ 0 < ncols B /\ 0 < N.

Definition single_scale_fits (A B : Mat F) (N : nat) (Q R P : Mat F) (x0 : Vec F)
           (umax umin xmin xmax : option (Mat F)) (x_star_in : option (Vec F))
  : Prop :=
  horizon_fits B N
  /\ square (nrows B) A /\ square (nrows B) Q /\ square (ncols B) R
  /\ square (nrows B) P
  /\ length x0 = nrows B
  /\ reference_fits (nrows B) x_star_in
  /\ state_bound_fits (nrows B) xmin /\ state_bound_fits (nrows B) xmax
  /\ input_bound_fits (ncols B) N umax /\ input_bound_fits (ncols B) N umin.

(** The micro-scale operands of [mesocoupling_solve]. *)
Definition micro_scale_fits (A_mic B_mic : Mat F) (N_mic : nat) (R_mic L : Mat F)
           (x0_mic : Vec F) (umax_mic umin_mic xmin_mic xmax_mic : option (Mat F))
  : Prop :=
  horizon_fits B_mic N_mic
  /\ square (nrows B_mic) A_mic /\ square (ncols B_mic) R_mic
  /\ square (nrows B_mic) L
  /\ length x0_mic = nrows B_mic
  /\ state_bound_fits (nrows B_mic) xmin_mic /\ state_bound_fits (nrows B_mic) xmax_mic
  /\ input_bound_fits (ncols B_mic) N_mic umax_mic
  /\ input_bound_fits (ncols B_mic) N_mic umin_mic.

Definition is_micro (v : var) : bool :=
  match v with
  | x_mic | u_mic => true
  | _ => false
  end.

End Forms.
End mpc_forms.

(** ** Concrete data over the integers, for running the definitions *)

Module sample.
Definition I1 : Mat Z := mkMat 1 [[1%Z]].
Definition I2 : Mat Z := mkMat 2 [[1%Z; 0%Z]; [0%Z; 1%Z]].
Definition I3 : Mat Z :=
  mkMat 3 [[1%Z; 0%Z; 0%Z]; [0%Z; 1%Z; 0%Z]; [0%Z; 0%Z; 1%Z]].
(** A 2 x 1 input matrix: two state components, one control. *)
Definition B21 : Mat Z := mkMat 1 [[1%Z]; [1%Z]].

(** The identity matrix of order [d]. *)
Definition eye (d : nat) : Mat Z :=
  mkMat d (map (fun i => map (fun j => if i =? j then 1%Z else 0%Z) (seq 0 d)) (seq 0 d)).

(** A state generator: agent [k] of [n] starts at [(k, ..., k)] with
    identity dynamics, and the dictionary is filled in index order. *)
Definition blobs : MultiAgentSystem.state_generator (F:=Z) :=
  fun ctor agent_dim n_agents _ =>
    for_acc (seq 0 n_agents)
      (fun k ags =>
         a <- ctor (eye agent_dim) (eye agent_dim) agent_dim
                (repeat (Z.of_nat k) agent_dim) ;;
         Ok (ags ++ [(k, a)])) [].

(** A solver stand-in: the trajectory starts at [x0] and sits on the
    reference from the first step on; the cost is the horizon. *)
Definition jump_to_reference (A B : Mat Z) (n_t : nat) (Q R P : Mat Z) (x0 : Vec Z)
           (x_star_in : option (Vec Z)) (umax umin : option (Mat Z))
  : outcome (option (Mat Z) * option (Mat Z) * Z) :=
  let target := match x_star_in with
                | Some xs => xs
                | None => repeat 0%Z (length x0)
                end in
  Ok (Some (mkMat (n_t + 1)
              (map (fun i => nth i x0 0%Z :: repeat (nth i target 0%Z) n_t)
                   (seq 0 (length x0)))),
      Some (zeros (ncols B) n_t), Z.of_nat n_t).

(** Collaborators over the integers: one cluster for all agents. *)
Definition ext : MultiAgentSystem.externals Z :=
  MultiAgentSystem.mkExt
    (fun M _ => Ok (repeat 1%Z (nrows M)))
    (fun _ _ _ M => Ok (repeat 0%Z (nrows M)))
    jump_to_reference
    Z.of_nat.

(** Two agents in the plane, goal [(5, 5)], hierarchical clustering. *)
Definition two_agents : outcome unit * MultiAgentSystem.world Z :=
  MultiAgentSystem.init ext 2 2 2 [5%Z; 5%Z] blobs [] "hierarchy" [2%Z] ([], 0).

(** The system after construction, written out. *)
Definition world0 : MultiAgentSystem.world Z := Eval vm_compute in snd two_agents.

Definition agents0 : store Z :=
  Eval vm_compute in MultiAgentSystem.agents (MultiAgentSystem.self world0).

(** What [jump_to_reference] answers for the joint problem of [world0]
    over three steps. *)
Definition joint_trajectory : Mat Z :=
  mkMat 4 [[0%Z; 5%Z; 5%Z; 5%Z]; [0%Z; 5%Z; 5%Z; 5%Z];
           [1%Z; 5%Z; 5%Z; 5%Z]; [1%Z; 5%Z; 5%Z; 5%Z]].

(** The same system with a clustering algorithm the code does not know. *)
Definition two_agents_epsdel : outcome unit * MultiAgentSystem.world Z :=
  MultiAgentSystem.init ext 2 2 2 [5%Z; 5%Z] blobs [] "epsdel" [2%Z] ([], 0).
End sample.

(** The configuration error of [_re_eval_clusters]. *)
Definition not_implemented : exn :=
  ValueError "Cluster identification algorithm not implemented".

(** ** What the mutating methods leave untouched *)

(** Every run of [m], whether it returns or raises, leaves the state
    related by [R] to the state it started from. *)
Definition stable {S A : Type} (R : S -> S -> Prop) (m : M S A) : Prop :=
  forall s, R s (snd (m s)).

Module frame.
Section Frame.
Context {F : Type} `{Scalar F}.

(** The agents' matrices and dimension are the same in both stores. *)
Definition same_dynamics (st st' : store F) : Prop := dynamics st' = dynamics st.

(** The agents' dynamics and the configuration of the system are the
    same; what may differ are the agents' states and the derived fields
    (full state matrix, average goal distance, clustering, solve time). *)
Definition same_frame (s s' : MultiAgentSystem.t F) : Prop :=
  same_dynamics (MultiAgentSystem.agents s) (MultiAgentSystem.agents s')
  /\ MultiAgentSystem.n_agents s' = MultiAgentSystem.n_agents s
  /\ MultiAgentSystem.agent_dim s' = MultiAgentSystem.agent_dim s
  /\ MultiAgentSystem.control_dim s' = MultiAgentSystem.control_dim s
  /\ MultiAgentSystem.system_goal s' = MultiAgentSystem.system_goal s
  /\ MultiAgentSystem.clust_algo s' = MultiAgentSystem.clust_algo s
  /\ MultiAgentSystem.clust_algo_params s' = MultiAgentSystem.clust_algo_params s.

Definition world_frame (w w' : MultiAgentSystem.world F) : Prop :=
  same_frame (MultiAgentSystem.self w) (MultiAgentSystem.self w').

Definition cluster_frame (s s' : store F * LinearClusterNd.t F) : Prop :=
  same_dynamics (fst s) (fst s').

End Frame.
End frame.

(** ** The orchestrator: well-formed systems and closed forms *)

Module system_spec.
Import MultiAgentSystem.
Section Spec.
Context {F : Type} `{Scalar F}.
Variable ext : externals F.

(** [M[r, c]] *)
Definition entry (M : Mat F) (r c : nat) : F := nth c (nth r (rows M) []) f0.

Definition wf_agent (D C : nat) (a : LinearAgentNd.t F) : Prop :=
  has_shape (LinearAgentNd.A a) D D
  /\ has_shape (LinearAgentNd.B a) D C
  /\ length (LinearAgentNd.state a) = D.

(** The agents are indexed by [0 .. n_agents - 1] (in any order of
    insertion), every agent has the system's dimensions, and the state
    matrix and the goal have the shapes [__init__] gives them. *)
Definition wf_system (s : t F) : Prop :=
  NoDup (map fst (agents s))
  /\ (forall k, In k (map fst (agents s)) <-> k < n_agents s)
  /\ (forall k a, find_agent k (agents s) = Some a ->
                  wf_agent (agent_dim s) (control_dim s) a)
  /\ nrows (full_system_state s) = n_agents s
  /\ ncols (full_system_state s) = agent_dim s
  /\ length (system_goal s) = agent_dim s
  /\ 0 < n_agents s.

(** The configured clustering returns one label per row. *)
Definition labelling_ok (s : t F) : Prop :=
  forall M : Mat F,
    nrows M = n_agents s ->
    exists ls, identify_clusters ext (clust_algo s) (clust_algo_params s) M = Ok ls
               /\ length ls = n_agents s.

(** The state of the agent stored under [k]. *)
Definition state_of (st : store F) (k : nat) : Vec F :=
  match find_agent k st with
  | Some a => LinearAgentNd.state a
  | None => []
  end.

Definition A_of (st : store F) (k : nat) : Mat F :=
  match find_agent k st with
  | Some a => LinearAgentNd.A a
  | None => mkMat 0 []
  end.

Definition B_of (st : store F) (k : nat) : Mat F :=
  match find_agent k st with
  | Some a => LinearAgentNd.B a
  | None => mkMat 0 []
  end.

(** The block-diagonal matrix with [n] blocks of [h] rows and [wd]
    columns, block [k] being [blk k]. *)
Definition block_diag (n h wd : nat) (blk : nat -> Mat F) : Mat F :=
  mkMat (n * wd)
    (map (fun r =>
            map (fun c => if r / h =? c / wd
                          then entry (blk (r / h)) (r mod h) (c mod wd)
                          else f0)
                (seq 0 (n * wd)))
         (seq 0 (n * h))).

Definition block_diag_A (s : t F) : Mat F :=
  block_diag (n_agents s) (agent_dim s) (agent_dim s) (A_of (agents s)).

Definition block_diag_B (s : t F) : Mat F :=
  block_diag (n_agents s) (agent_dim s) (control_dim s) (B_of (agents s)).

(** The goal repeated once per agent. *)
Definition tiled_goal (s : t F) : Vec F :=
  concat (repeat (system_goal s) (n_agents s)).

(** Rows [adx * d .. (adx + 1) * d - 1] of the last column of [X]. *)
Definition terminal_block (X : Mat F) (d adx : nat) : Vec F :=
  map (fun r => nth (ncols X - 1) r f0) (firstn d (skipn (adx * d) (rows X))).

(** The state matrix and the average goal distance agree with the
    agents' states. *)
Definition consistent (s : t F) : Prop :=
  rows (full_system_state s) = map (state_of (agents s)) (seq 0 (n_agents s))
  /\ goal_distance (full_system_state s) (system_goal s) = Ok (avg_goal_dist s).

(** Everything but the clustering. *)
Definition core (s : t F) :=
  (n_agents s, agent_dim s, control_dim s, full_system_state s, system_goal s,
   agents s, clust_algo s, clust_algo_params s, avg_goal_dist s,
   control_solution_time s).

(** The clustering. *)
Definition clustering (s : t F) :=
  (clust_labels s, n_clusters s, clusters s, cluster_centroids s).

(** Replacing the row [k] of a list of rows. *)
Definition upd (k : nat) (v : Vec F) (rs : list (Vec F)) : list (Vec F) :=
  firstn k rs ++ v :: skipn (S k) rs.

(** [M] with the block [src] written at rows [r0 ..] and columns [c0 ..]. *)
Definition placed (M : Mat F) (r0 c0 : nat) (src : Mat F) : Mat F :=
  mkMat (ncols M)
    (firstn r0 (rows M)
     ++ map (fun p => splice (fst p) c0 (snd p))
            (combine (firstn (nrows src) (skipn r0 (rows M))) (rows src))
     ++ skipn (r0 + nrows src) (rows M)).

(** Whether [i] lies in [lo .. lo + len - 1]. *)
Definition within (lo len i : nat) : bool := (lo <=? i) && (i <? lo + len).

(** [M] has [n] x [n] blocks of [h] rows and [wd] columns; the diagonal
    blocks of the indices in [done] are those of [blk], every other entry
    is zero. *)
Definition blocks_placed (n h wd : nat) (blk : nat -> Mat F) (done : list nat)
           (M : Mat F) : Prop :=
  nrows M = n * h /\ ncols M = n * wd /\ wf_mat M
  /\ forall r c, r < n * h -> c < n * wd ->
                 entry M r c
                 = if (r / h =? c / wd) && (if in_dec Nat.eq_dec (r / h) done
                                            then true else false)
                   then entry (blk (r / h)) (r mod h) (c mod wd)
                   else f0.

(** The state matrix after the rows of the agents [l] were copied in. *)
Definition scatter (st : store F) (l : list nat) (M : Mat F) : Mat F :=
  mkMat (ncols M) (fold_left (fun rs k => upd k (state_of st k) rs) l (rows M)).

(** The world after lines 111-113. *)
Definition gathered (w : world F) : world F :=
  let s := self w in
  let fss := scatter (agents s) (map fst (agents s)) (full_system_state s) in
  let d := match goal_distance fss (system_goal s) with
           | Ok d => d
           | Raise _ => avg_goal_dist s
           end in
  on_sys (fun s => set_avg_goal_dist d (set_full_system_state fss s)) w.

(** The agent [a] after [set_state(v)]. *)
Definition with_state (v : Vec F) (a : LinearAgentNd.t F) : LinearAgentNd.t F :=
  LinearAgentNd.mk (LinearAgentNd.A a) (LinearAgentNd.B a) v (LinearAgentNd.agent_dim a).

(** Everything but the agents. *)
Definition but_agents (s : t F) :=
  (n_agents s, agent_dim s, control_dim s, full_system_state s, system_goal s,
   clust_algo s, clust_algo_params s, avg_goal_dist s, control_solution_time s,
   clustering s).

(** The world [w'] is [w] after the agents [l] were given the states
    [new_state k], in that order. *)
Definition committed (new_state : nat -> Vec F) (l : list nat) (w w' : world F) : Prop :=
  but_agents (self w') = but_agents (self w)
  /\ ticks w' = ticks w
  /\ trace w' = trace w ++ map (fun k => EvSetState k (new_state k)) l
  /\ map fst (agents (self w')) = map fst (agents (self w))
  /\ forall k,
       find_agent k (agents (self w'))
       = option_map (fun a => if in_dec Nat.eq_dec k l
                              then with_state (new_state k) a else a)
                    (find_agent k (agents (self w))).

(** *** The per-agent problems of [update_system_mpc_distributed] *)

Section Distributed.
Variables (Q R P : Mat F) (n_t : nat) (umax umin : option (Mat F)) (goal : Vec F).

(** The solver's answer for agent [a] alone. *)
Definition solved (a : LinearAgentNd.t F) :=
  use_modeling_tool ext (LinearAgentNd.A a) (LinearAgentNd.B a) n_t Q R P
    (LinearAgentNd.state a) (Some goal) umax umin.

(** The solver returns a trajectory with [d] rows and at least one column. *)
Definition solvable (d : nat) (a : LinearAgentNd.t F) : Prop :=
  exists X U c, solved a = Ok (Some X, U, c) /\ nrows X = d /\ 0 < ncols X.

(** The last column of the trajectory returned for [a]. *)
Definition solved_state (a : LinearAgentNd.t F) : Vec F :=
  match solved a with
  | Ok (Some X, _, _) => map (fun r => nth (ncols X - 1) r f0) (rows X)
  | _ => []
  end.

Definition solved_cost (a : LinearAgentNd.t F) : F :=
  match solved a with
  | Ok (_, _, c) => c
  | Raise _ => f0
  end.

(** The calls made for one agent: solve, commit, re-evaluate. *)
Definition agent_round (ka : nat * LinearAgentNd.t F) : list (event F) :=
  [EvSolve (LinearAgentNd.A (snd ka)) (LinearAgentNd.B (snd ka)) n_t Q R P
     (LinearAgentNd.state (snd ka)) (Some goal) umax umin;
   EvSetState (fst ka) (solved_state (snd ka));
   EvReEval].

(** The world [w'] is [w] after the rounds of the agents [l]. *)
Definition rounds_done (l : store F) (w w' : world F) : Prop :=
  n_agents (self w') = n_agents (self w)
  /\ agent_dim (self w') = agent_dim (self w)
  /\ control_dim (self w') = control_dim (self w)
  /\ system_goal (self w') = system_goal (self w)
  /\ clust_algo (self w') = clust_algo (self w)
  /\ clust_algo_params (self w') = clust_algo_params (self w)
  /\ control_solution_time (self w') = control_solution_time (self w)
  /\ ticks w' = ticks w
  /\ trace w' = trace w ++ flat_map agent_round l
  /\ map fst (agents (self w')) = map fst (agents (self w))
  /\ (forall k,
         find_agent k (agents (self w'))
         = option_map (fun a => if in_dec Nat.eq_dec k (map fst l)
                                then with_state (solved_state a) a else a)
                      (find_agent k (agents (self w))))
  /\ (l <> [] \/ consistent (self w) -> consistent (self w')).

End Distributed.

(** What a re-evaluation leaves as it was, and what it establishes. *)
Definition re_evaluated (w w' : world F) : Prop :=
  agents (self w') = agents (self w)
  /\ n_agents (self w') = n_agents (self w)
  /\ agent_dim (self w') = agent_dim (self w)
  /\ control_dim (self w') = control_dim (self w)
  /\ system_goal (self w') = system_goal (self w)
  /\ clust_algo (self w') = clust_algo (self w)
  /\ clust_algo_params (self w') = clust_algo_params (self w)
  /\ control_solution_time (self w') = control_solution_time (self w)
  /\ trace w' = trace w ++ [EvReEval]
  /\ ticks w' = ticks w
  /\ consistent (self w').

(** The clustering and its configuration are untouched. *)
Definition same_clustering (w w' : world F) : Prop :=
  clustering (self w') = clustering (self w)
  /\ clust_algo (self w') = clust_algo (self w).

End Spec.
End system_spec.

(** ** Clusters: closed forms *)

Module cluster_spec.
Section Spec.
Context {F : Type} `{Scalar F}.

(** The states of the agents [refs] of the store, one row each. *)
Definition member_states (st : store F) (refs : list nat) (D : nat) : Mat F :=
  mkMat D (map (system_spec.state_of st) refs).

(** The cluster of the agents [refs] with its state matrix and centroid
    read off the store. *)
Definition refreshed (st : store F) (refs : list nat) (D : nat) : LinearClusterNd.t F :=
  LinearClusterNd.mk refs (length refs) (member_states st refs D)
    (mean_axis0 (member_states st refs D)).

(** The agent [a] after [propagate_input(u)]. *)
Definition moved (u : Vec F) (a : LinearAgentNd.t F) : LinearAgentNd.t F :=
  match LinearAgentNd.propagate_input a u with
  | Ok a' => a'
  | Raise _ => a
  end.

(** The store [st'] is [st] after [propagate_input(u)] on the agents [l]. *)
Definition moved_all (u : Vec F) (l : list nat) (st st' : store F) : Prop :=
  map fst st' = map fst st
  /\ forall k,
       find_agent k st'
       = option_map (fun a => if in_dec Nat.eq_dec k l then moved u a else a)
                    (find_agent k st).

(** The bookkeeping of a cluster agrees with its dictionary, and its
    state matrix has one row of [D] entries per member. *)
Definition cluster_ok (D : nat) (c : LinearClusterNd.t F) : Prop :=
  LinearClusterNd.n_agents c = length (LinearClusterNd.agents c)
  /\ nrows (LinearClusterNd.full_cluster_state c) = length (LinearClusterNd.agents c)
  /\ ncols (LinearClusterNd.full_cluster_state c) = D.

End Spec.
End cluster_spec.

(** ** Further sample collaborators *)

Module sample_more.
(** A solver that finds no solution: cvxpy leaves the values at [None]. *)
Definition no_solution : MultiAgentSystem.externals Z :=
  MultiAgentSystem.mkExt
    (MultiAgentSystem.fclusterdata sample.ext)
    (MultiAgentSystem.hdbscan_labels sample.ext)
    (fun _ _ _ _ _ _ _ _ _ _ => Ok (None, None, 0%Z))
    Z.of_nat.

(** A solver that raises. *)
Definition solver_error : MultiAgentSystem.externals Z :=
  MultiAgentSystem.mkExt
    (MultiAgentSystem.fclusterdata sample.ext)
    (MultiAgentSystem.hdbscan_labels sample.ext)
    (fun _ _ _ _ _ _ _ _ _ _ => Raise (LibraryError "SolverError"))
    Z.of_nat.

(** A solver that solves the problems that start at the origin and
    finds no solution for the others. *)
Definition from_origin_only : MultiAgentSystem.externals Z :=
  MultiAgentSystem.mkExt
    (MultiAgentSystem.fclusterdata sample.ext)
    (MultiAgentSystem.hdbscan_labels sample.ext)
    (fun A B n_t Q R P x0 xs umax umin =>
       if forallb (Z.eqb 0) x0
       then sample.jump_to_reference A B n_t Q R P x0 xs umax umin
       else Ok (None, None, 0%Z))
    Z.of_nat.

(** The system of two agents configured without a threshold. *)
Definition no_threshold : MultiAgentSystem.world Z :=
  snd (MultiAgentSystem.init sample.ext 2 2 2 [5%Z; 5%Z] sample.blobs []
         "hierarchy" [] ([], 0)).
End sample_more.

(** ** The clustering, in closed form *)

Module clustering_spec.
Import MultiAgentSystem.
Section Spec.
Context {F : Type} `{Scalar F}.

(** [max(labels) + 1] *)
Definition n_clusters_of (labels : list Z) : Z :=
  match py_max labels with
  | Ok m => (m + 1)%Z
  | Raise _ => 0%Z
  end.

(** The cluster of the agents labelled [cdx]. *)
Definition cluster_of (st : store F) (labels : list Z) (D cdx : nat)
  : LinearClusterNd.t F :=
  cluster_spec.refreshed st (where_eq labels (Z.of_nat cdx)) D.

Definition clusters_of (st : store F) (labels : list Z) (D n : nat)
  : list (nat * LinearClusterNd.t F) :=
  map (fun cdx => (cdx, cluster_of st labels D cdx)) (seq 0 n).

Definition centroids_of (st : store F) (labels : list Z) (D n : nat)
  : list (nat * Vec F) :=
  map (fun cdx => (cdx, LinearClusterNd.centroid (cluster_of st labels D cdx)))
      (seq 0 n).

(** The system with the first [n] clusters of the labelling in place. *)
Definition with_clusters (labels : list Z) (n : nat) (s : t F) : t F :=
  set_cluster_centroids (centroids_of (agents s) labels (agent_dim s) n)
    (set_clusters (clusters_of (agents s) labels (agent_dim s) n)
       (set_n_clusters (n_clusters_of labels) (set_clust_labels labels s))).

(** The system after [_re_eval_clusters] found the labels [labels]. *)
Definition clustered (labels : list Z) (s : t F) : t F :=
  with_clusters labels (Z.to_nat (n_clusters_of labels)) s.

End Spec.
End clustering_spec.

(** ** A re-evaluated system, in explicit form *)

Module evaluation_spec.
Import MultiAgentSystem.
Section Spec.
Context {F : Type} `{Scalar F}.
Variable ext : externals F.

(** The Euclidean distance of [v] from [goal]. *)
Definition distance_to (goal v : Vec F) : F :=
  fsqrt (fold_left fadd
           (map (fun j => fmul (fsub (nth j v f0) (nth j goal f0))
                               (fsub (nth j v f0) (nth j goal f0)))
                (seq 0 (length goal)))
           f0).

(** The mean of the distances of the rows [rs] from [goal]. *)
Definition mean_distance (goal : Vec F) (rs : list (Vec F)) : F :=
  fdiv (fold_left fadd (map (distance_to goal) rs) f0) (fof_nat (length rs)).

(** The mean of each of the [D] columns of the rows [rs]. *)
Definition column_means (D : nat) (rs : list (Vec F)) : Vec F :=
  map (fun j => fdiv (fold_left fadd (map (fun r => nth j r f0) rs) f0)
                     (fof_nat (length rs)))
      (seq 0 D).

(** The agents that carry the label [cdx], in increasing order. *)
Definition members (labels : list Z) (cdx : nat) : list nat :=
  filter (fun k => Z.eqb (nth k labels 0%Z) (Z.of_nat cdx)) (seq 0 (length labels)).

(** The states of the agents [0 .. n_agents - 1]. *)
Definition agent_states (s : t F) : list (Vec F) :=
  map (system_spec.state_of (agents s)) (seq 0 (n_agents s)).

(** The derived fields of the system are those of its agents: row [k]
    of the state matrix is the state of agent [k]; the average goal
    distance is the mean distance of these states from the goal; the
    labels are those the configured algorithm gives for the state matrix;
    there is one cluster per label value [0 .. max], made of the agents
    that carry the label, with their states as its rows and the mean of
    the rows as its centroid; and the centroid dictionary lists the
    centroids of the clusters. *)
Definition evaluated (w : world F) : Prop :=
  let s := self w in
  full_system_state s = mkMat (agent_dim s) (agent_states s)
  /\ avg_goal_dist s = mean_distance (system_goal s) (agent_states s)
  /\ identify_clusters ext (clust_algo s) (clust_algo_params s)
       (mkMat (agent_dim s) (agent_states s)) = Ok (clust_labels s)
  /\ length (clust_labels s) = n_agents s
  /\ In (n_clusters s - 1)%Z (clust_labels s)
  /\ (forall l, In l (clust_labels s) -> (l < n_clusters s)%Z)
  /\ map fst (clusters s) = seq 0 (Z.to_nat (n_clusters s))
  /\ (forall cdx c,
         find_cluster cdx (clusters s) = Some c ->
         LinearClusterNd.agents c = members (clust_labels s) cdx
         /\ LinearClusterNd.n_agents c = length (members (clust_labels s) cdx)
         /\ LinearClusterNd.full_cluster_state c
            = mkMat (agent_dim s)
                (map (system_spec.state_of (agents s)) (members (clust_labels s) cdx))
         /\ LinearClusterNd.centroid c
            = column_means (agent_dim s)
                (map (system_spec.state_of (agents s)) (members (clust_labels s) cdx)))
  /\ cluster_centroids s
     = map (fun kc => (fst kc, LinearClusterNd.centroid (snd kc))) (clusters s).

End Spec.
End evaluation_spec.

(** * Properties *)

(** ** Loops *)

Lemma py_range_0 n : py_range 0 n = seq 0 n.
Proof. unfold py_range. now rewrite Nat.sub_0_r. Qed.

Lemma in_py_range i lo hi : In i (py_range lo hi) <-> lo <= i < hi.
Proof. unfold py_range. rewrite in_seq. lia. Qed.

Lemma flat_map_nil {X Y : Type} (l : list X) : flat_map (fun _ => @nil Y) l = [].
Proof. induction l; simpl; auto. Qed.

Lemma flat_map_single {X Y : Type} (f : X -> Y) (l : list X) :
  flat_map (fun i => [f i]) l = map f l.
Proof. induction l; simpl; [reflexivity | now f_equal]. Qed.

(** Normalises nested appends before comparing two lists. *)
Ltac norm_app :=
  repeat first [rewrite py_range_0 | rewrite app_nil_r | rewrite <- app_assoc];
  simpl; try reflexivity.

(** ** The problems of [mpc_solver] *)

Module mpc_facts.
Import mpc_solver mpc_forms.
Section Facts.
Context {F : Type} `{Scalar F}.

Local Abbreviation problem := (problem (F:=F)).
Local Abbreviation constr := (constr (F:=F)).
Local Abbreviation expr := (expr (F:=F)).
Local Abbreviation shape_of := (shape_of (F:=F)).
Local Abbreviation check_constr := (check_constr (F:=F)).
Local Abbreviation check_term := (check_term (F:=F)).
Local Abbreviation quad_form := (quad_form (F:=F)).

Lemma extend_nil (p : problem) : extend p [] [] = p.
Proof. destruct p; unfold extend; simpl. now rewrite !app_nil_r. Qed.

Lemma extend_extend (p : problem) cs ks cs' ks' :
  extend (extend p cs ks) cs' ks' = extend p (cs ++ cs') (ks ++ ks').
Proof. unfold extend; simpl. now rewrite !app_assoc. Qed.

Lemma add_cost_extend (p : problem) t : add_cost p t = extend p [t] [].
Proof. unfold add_cost, extend. now rewrite app_nil_r. Qed.

Lemma add_constr_extend (p : problem) ks : add_constr p ks = extend p [] ks.
Proof. unfold add_constr, extend. now rewrite app_nil_r. Qed.

(** A loop whose every round extends the problem extends it by the
    rounds' contributions, in order. *)
Lemma for_acc_extend {X} (l : list X) body (cs : X -> list term)
      (ks : X -> list constr) (p : problem) :
  (forall i q, In i l -> body i q = Ok (extend q (cs i) (ks i))) ->
  for_acc l body p = Ok (extend p (flat_map cs l) (flat_map ks l)).
Proof.
  revert p; induction l as [|i l IH]; intros p Hb; simpl.
  - now rewrite extend_nil.
  - rewrite Hb by (left; reflexivity). simpl.
    rewrite IH by (intros; apply Hb; right; assumption).
    now rewrite extend_extend.
Qed.

(** *** Expressions whose operands fit *)

(** Unfolds the shape computation of an expression by one constructor. *)
Ltac shp :=
  cbn [mpc_solver.shape_of mpc_solver.check_constr mpc_solver.check_term obind].

Lemma sum_shapes_same (s : cshape) : sum_shapes s s = Ok s.
Proof. unfold sum_shapes. destruct (list_eq_dec Nat.eq_dec s s); congruence. Qed.

Lemma shape_col (D : dims) v t :
  t < snd (D v) -> shape_of D (Col v t) = Ok [fst (D v)].
Proof. intros Ht. shp. now rewrite (proj2 (Nat.ltb_lt _ _) Ht). Qed.

Lemma shape_col0 (D : dims) (m : Mat F) :
  0 < ncols m -> shape_of D (Col0 m) = Ok [nrows m].
Proof. intros Hm. shp. destruct (Nat.eqb_spec (ncols m) 0); [lia | reflexivity]. Qed.

Lemma shape_sum (D : dims) (a b : expr) s :
  shape_of D a = Ok s -> shape_of D b = Ok s ->
  shape_of D (Add a b) = Ok s /\ shape_of D (Sub a b) = Ok s.
Proof. intros Ha Hb. shp. rewrite Ha, Hb. shp. now rewrite sum_shapes_same. Qed.

Lemma shape_mul (D : dims) (M : Mat F) (e : expr) k s :
  shape_of D e = Ok (k :: s) -> ncols M = k ->
  shape_of D (Mul M e) = Ok (nrows M :: s).
Proof. intros He Hk. shp. rewrite He. shp. unfold mul_shapes. now rewrite Hk, Nat.eqb_refl. Qed.

Lemma quad_form_ok (D : dims) (e : expr) (W : Mat F) n :
  shape_of D e = Ok [n] -> square n W -> quad_form D e (psd_wrap W) = Ok tt.
Proof.
  intros He (Hr & Hc). unfold mpc_solver.quad_form. rewrite He. shp.
  now rewrite Hr, Hc, !Nat.eqb_refl.
Qed.

Lemma compare_ok (D : dims) (a b : expr) s :
  shape_of D a = Ok s -> shape_of D b = Ok s ->
  check_constr D (EqC a b) = Ok tt
  /\ check_constr D (GeC a b) = Ok tt
  /\ check_constr D (LeC a b) = Ok tt.
Proof. intros Ha Hb. shp. rewrite Ha, Hb. shp. rewrite sum_shapes_same. shp. auto. Qed.

Lemma cost_ok (D : dims) (p : problem) t :
  check_term D t = Ok tt -> cost D p t = Ok (extend p [t] []).
Proof. intros E. unfold cost. rewrite E. cbn. now rewrite add_cost_extend. Qed.

Lemma constrain_ok (D : dims) (p : problem) c :
  check_constr D c = Ok tt -> constrain D p c = Ok (extend p [] [c]).
Proof. intros E. unfold constrain. rewrite E. cbn. now rewrite add_constr_extend. Qed.

Lemma constrain_if_ok {A} (D : dims) (o : option A) (f : A -> constr) (p : problem) :
  (forall a, o = Some a -> check_constr D (f a) = Ok tt) ->
  constrain_if D o f p = Ok (extend p [] (opt_constr o f)).
Proof.
  intros Hf. destruct o as [a|]; cbn.
  - apply constrain_ok. now apply Hf.
  - now rewrite extend_nil.
Qed.

Lemma wrap_psd_ok n (W : Mat F) : square n W -> wrap_psd W = Ok (psd_wrap W).
Proof. intros (Hr & Hc). unfold wrap_psd. now rewrite Hr, Hc, Nat.eqb_refl. Qed.

Lemma declare_ok r c : 0 < r -> 0 < c -> declare r c = Ok tt.
Proof.
  intros Hr Hc. unfold declare.
  now rewrite (proj2 (Nat.ltb_lt _ _) Hr), (proj2 (Nat.ltb_lt _ _) Hc).
Qed.

Lemma state_bound_ok (D : dims) v t n (b : option (Mat F)) m :
  fst (D v) = n -> t < snd (D v) -> state_bound_fits n b -> b = Some m ->
  check_constr D (GeC (Col v t) (Col0 m)) = Ok tt
  /\ check_constr D (LeC (Col v t) (Col0 m)) = Ok tt.
Proof.
  intros Hn Ht Hb ->. destruct Hb as (Hr & Hc).
  destruct (@compare_ok D (Col v t) (Col0 m) [n]) as (_ & Hge & Hle); auto.
  - rewrite shape_col by assumption. now rewrite Hn.
  - rewrite shape_col0 by assumption. now rewrite Hr.
Qed.

Lemma input_bound_ok (D : dims) v nu N (b : option (Mat F)) m :
  D v = (nu, N) -> input_bound_fits nu N b -> b = Some m ->
  check_constr D (GeC (Whole v) (ConstM m)) = Ok tt
  /\ check_constr D (LeC (Whole v) (ConstM m)) = Ok tt.
Proof.
  intros Hv Hb ->. destruct Hb as (Hr & Hc).
  destruct (@compare_ok D (Whole v) (ConstM m) [nu; N]) as (_ & Hge & Hle); auto.
  - shp. now rewrite Hv.
  - shp. now rewrite Hr, Hc.
Qed.

Lemma dynamics_ok (D : dims) xv uv (A B : Mat F) t nx nu :
  fst (D xv) = nx -> fst (D uv) = nu ->
  t + 1 < snd (D xv) -> t < snd (D uv) ->
  square nx A -> nrows B = nx -> ncols B = nu ->
  check_constr D (EqC (Col xv (t + 1)) (Add (Mul A (Col xv t)) (Mul B (Col uv t))))
  = Ok tt.
Proof.
  intros Hx Hu Htx Htu (HAr & HAc) HBr HBc.
  apply (@compare_ok D _ _ [nx]).
  - rewrite shape_col by assumption. now rewrite Hx.
  - apply shape_sum.
    + rewrite (@shape_mul D A (Col xv t) nx []); [now rewrite HAr| |assumption].
      rewrite shape_col by lia. now rewrite Hx.
    + rewrite (@shape_mul D B (Col uv t) nu []); [now rewrite HBr| |assumption].
      rewrite shape_col by lia. now rewrite Hu.
Qed.

Lemma state_cost_ok (D : dims) v t n (Q : Mat F) xs :
  fst (D v) = n -> t < snd (D v) -> square n Q -> reference_fits n xs ->
  check_term D (state_cost v t xs (psd_wrap Q)) = Ok tt.
Proof.
  intros Hn Ht HQ Hxs. unfold state_cost. destruct xs as [r|]; cbn [check_term].
  - apply (@quad_form_ok D _ Q n); [|assumption].
    apply shape_sum.
    + rewrite shape_col by assumption. now rewrite Hn.
    + shp. cbn in Hxs. now rewrite Hxs.
  - apply (@quad_form_ok D _ Q n); [|assumption].
    rewrite shape_col by assumption. now rewrite Hn.
Qed.

Lemma col_cost_ok (D : dims) v t n (W : Mat F) :
  fst (D v) = n -> t < snd (D v) -> square n W ->
  check_term D (HalfQuad (Col v t) (psd_wrap W)) = Ok tt
  /\ forall lam, check_term D (HalfScaledQuad lam (Col v t) (psd_wrap W)) = Ok tt.
Proof.
  intros Hn Ht HW.
  assert (E : quad_form D (Col v t) (psd_wrap W) = Ok tt).
  { apply (@quad_form_ok D _ W n); [|assumption].
    rewrite shape_col by assumption. now rewrite Hn. }
  split; [exact E | intros lam; exact E].
Qed.

(** One stage of a single-scale problem whose operands fit. *)
Lemma stage_extend (D : dims) xv uv (A B Q R : Mat F) xmin xmax xs t (p : problem)
      nx nu :
  fst (D xv) = nx -> fst (D uv) = nu ->
  t + 1 < snd (D xv) -> t < snd (D uv) ->
  square nx A -> nrows B = nx -> ncols B = nu ->
  square nx Q -> square nu R -> reference_fits nx xs ->
  state_bound_fits nx xmin -> state_bound_fits nx xmax ->
  stage D xv uv A B (psd_wrap Q) (psd_wrap R) xmin xmax xs t p
  = Ok (extend p (stage_costs xv uv (psd_wrap Q) (psd_wrap R) xs t)
          (stage_constrs xv uv A B xmin xmax t)).
Proof.
  intros Hx Hu Htx Htu HA HBr HBc HQ HR Hxs Hmin Hmax.
  unfold stage, stage_costs, stage_constrs.
  rewrite cost_ok by (apply (@state_cost_ok D xv t nx); auto; lia). cbn [obind].
  rewrite cost_ok by (apply (@col_cost_ok D uv t nu); auto). cbn [obind].
  rewrite constrain_ok by (apply (@dynamics_ok D xv uv A B t nx nu); auto).
  cbn [obind].
  rewrite constrain_if_ok
    by (intros m Hm; apply (@state_bound_ok D xv t nx xmin m); auto; lia).
  cbn [obind].
  rewrite constrain_if_ok
    by (intros m Hm; apply (@state_bound_ok D xv t nx xmax m); auto; lia).
  rewrite !extend_extend. reflexivity.
Qed.

(** What follows the loop, when the operands fit. *)
Lemma closing_extend (D : dims) xv uv N (P : Mat F) umax umin xmin xmax
      (x0 : Vec F) (p : problem) nx nu :
  fst (D xv) = nx -> N < snd (D xv) -> D uv = (nu, N) ->
  square nx P -> length x0 = nx ->
  state_bound_fits nx xmin -> state_bound_fits nx xmax ->
  input_bound_fits nu N umax -> input_bound_fits nu N umin ->
  closing D xv uv N (psd_wrap P) umax umin xmin xmax x0 p
  = Ok (extend p [HalfQuad (Col xv N) (psd_wrap P)]
          (closing_constrs xv uv N umax umin xmin xmax x0)).
Proof.
  intros Hx HN Hu HP Hx0 Hmin Hmax Humax Humin.
  unfold closing, closing_constrs.
  rewrite cost_ok by (apply (@col_cost_ok D xv N nx); auto). cbn [obind].
  rewrite constrain_if_ok
    by (intros m Hm; apply (@state_bound_ok D xv N nx xmin m); auto).
  cbn [obind].
  rewrite constrain_if_ok
    by (intros m Hm; apply (@state_bound_ok D xv N nx xmax m); auto).
  cbn [obind].
  rewrite constrain_if_ok
    by (intros m Hm; apply (@input_bound_ok D uv nu N umax m); auto).
  cbn [obind].
  rewrite constrain_if_ok
    by (intros m Hm; apply (@input_bound_ok D uv nu N umin m); auto).
  cbn [obind].
  rewrite constrain_ok.
  - rewrite !extend_extend. cbn [app]. reflexivity.
  - apply (@compare_ok D _ _ [nx]).
    + rewrite shape_col by lia. now rewrite Hx.
    + shp. now rewrite Hx0.
Qed.

Lemma floordiv_ok a b : b <> 0 -> floordiv a b = Ok (a / b).
Proof. intros Hb. unfold floordiv. now destruct (Nat.eqb_spec b 0). Qed.

Lemma block_in_range nx adim j : adim <> 0 -> j < nx / adim -> (j + 1) * adim <= nx.
Proof.
  intros Ha Hj. pose proof (Nat.div_mod_eq nx adim) as E.
  assert ((j + 1) * adim <= adim * (nx / adim)) by nia. lia.
Qed.

Lemma separation_is_block_pair v adim i j t (d : F) :
  separation v adim i j t d = block_pair v adim i j t d.
Proof. reflexivity. Qed.

Lemma separation_ok (D : dims) v adim i j t (d : F) nx :
  fst (D v) = nx -> t < snd (D v) ->
  (i + 1) * adim <= nx -> (j + 1) * adim <= nx ->
  check_constr D (separation v adim i j t d) = Ok tt.
Proof.
  intros Hx Ht Hi Hj. unfold separation. cbn [check_constr].
  assert (Hs : forall k, (k + 1) * adim <= nx ->
                 shape_of D (Slice v (k * adim) ((k + 1) * adim) t) = Ok [adim]).
  { intros k Hk. shp. rewrite (proj2 (Nat.ltb_lt _ _) Ht), Hx. unfold clip.
    do 2 f_equal. nia. }
  destruct (@shape_sum D (Slice v (i * adim) ((i + 1) * adim) t)
              (Slice v (j * adim) ((j + 1) * adim) t) [adim]) as (_ & E); auto.
  now rewrite E.
Qed.

Lemma inner_loop_extend (D : dims) v adim idx t d (l : list nat) (p : problem) nx :
  fst (D v) = nx -> t < snd (D v) -> (idx + 1) * adim <= nx ->
  (forall j, In j l -> (j + 1) * adim <= nx) ->
  for_acc l (fun jdx p => constrain D p (separation v adim idx jdx t d)) p
  = Ok (extend p [] (map (fun jdx => separation v adim idx jdx t d) l)).
Proof.
  intros Hx Ht Hi Hl.
  rewrite (for_acc_extend l _ (fun _ => []) (fun jdx => [separation v adim idx jdx t d])).
  - now rewrite flat_map_nil, flat_map_single.
  - intros j q Hj. apply constrain_ok.
    apply (@separation_ok D v adim idx j t d nx); auto.
Qed.

Lemma collision_conventional_extend (D : dims) nx adim t d (p : problem) :
  adim <> 0 -> fst (D x) = nx -> t < snd (D x) ->
  collision_conventional D nx adim t d p
  = Ok (extend p [] (separations x adim (nx / adim) (nx / adim) t d)).
Proof.
  intros Ha Hx Ht. unfold collision_conventional, separations.
  rewrite floordiv_ok by assumption. simpl.
  rewrite (for_acc_extend _ _ (fun _ => [])
             (fun idx => map (fun jdx => separation x adim idx jdx t d)
                           (py_range (idx + 1) (nx / adim)))).
  - now rewrite flat_map_nil.
  - intros i q Hi. apply in_py_range in Hi.
    apply (@inner_loop_extend D x adim i t d _ q nx); auto.
    + apply block_in_range; [assumption | lia].
    + intros j Hj. apply in_py_range in Hj. apply block_in_range; [assumption | lia].
Qed.

Lemma collision_coupling_extend (D : dims) v nx adim t d (p : problem) :
  adim <> 0 -> fst (D v) = nx -> t < snd (D v) ->
  collision_coupling D v nx adim t d p
  = Ok (extend p [] (separations v adim (nx / adim) (nx / adim - 1) t d)).
Proof.
  intros Ha Hx Ht. unfold collision_coupling, separations.
  rewrite floordiv_ok by assumption. simpl.
  rewrite (for_acc_extend _ _ (fun _ => [])
             (fun idx => map (fun jdx => separation v adim idx jdx t d)
                           (py_range (idx + 1) (nx / adim - 1)))).
  - now rewrite flat_map_nil.
  - intros i q Hi. apply in_py_range in Hi.
    apply (@inner_loop_extend D v adim i t d _ q nx); auto.
    + apply block_in_range; [assumption | lia].
    + intros j Hj. apply in_py_range in Hj. apply block_in_range; [assumption | lia].
Qed.

(** The problem of [conventional_solve], in closed form. *)
Lemma conventional_problem_form (A B : Mat F) N (Q R P : Mat F) (x0 : Vec F) adim
      (umax umin xmin xmax : option (Mat F)) (xs : option (Vec F))
      (coll_d : option F) :
  single_scale_fits A B N Q R P x0 umax umin xmin xmax xs ->
  coll_d = None \/ adim <> 0 ->
  conventional_problem A B N Q R P x0 adim umax umin xmin xmax xs coll_d
  = Ok (mkProblem
          (flat_map (stage_costs x u (psd_wrap Q) (psd_wrap R) xs) (seq 0 N)
           ++ [HalfQuad (Col x N) (psd_wrap P)])
          (flat_map (fun t => stage_constrs x u A B xmin xmax t
                              ++ opt_separations x adim (nrows B / adim)
                                   (nrows B / adim) t coll_d) (seq 0 N)
           ++ closing_constrs x u N umax umin xmin xmax x0)).
Proof.
  intros ((Hnx & Hnu & HN) & HA & HQ & HR & HP & Hx0 & Hxs & Hmin & Hmax & Hua & Hui) Hc.
  unfold conventional_problem.
  rewrite (wrap_psd_ok HQ), (wrap_psd_ok HR), (wrap_psd_ok HP). cbn [obind].
  rewrite !declare_ok by lia. cbn [obind].
  rewrite (for_acc_extend _ _
             (stage_costs x u (psd_wrap Q) (psd_wrap R) xs)
             (fun t => stage_constrs x u A B xmin xmax t
                       ++ opt_separations x adim (nrows B / adim)
                            (nrows B / adim) t coll_d)).
  - cbn [obind].
    rewrite (@closing_extend _ x u N P umax umin xmin xmax x0 _ (nrows B) (ncols B));
      auto; [|cbn; lia].
    unfold extend; simpl. now rewrite py_range_0.
  - intros t q Ht. apply in_py_range in Ht.
    rewrite (@stage_extend _ x u A B Q R xmin xmax xs t q (nrows B) (ncols B));
      auto; try (cbn; lia).
    cbn [obind]. destruct coll_d as [d|]; simpl.
    + destruct Hc as [Hc|Hc]; [discriminate|].
      rewrite collision_conventional_extend; auto; [|cbn; lia].
      now rewrite extend_extend, app_nil_r.
    + now rewrite app_nil_r.
Qed.

(** The problem of [microcoupling_solve], in closed form. *)
Lemma microcoupling_problem_form (A B : Mat F) N_mic (Q R P : Mat F) (x0 : Vec F)
      adim N_cpl (L : option (Mat F)) (L_lambda : F)
      (umax umin xmin xmax : option (Mat F)) (xs : option (Vec F))
      (coll_d : option F) :
  single_scale_fits A B N_mic Q R P x0 umax umin xmin xmax xs ->
  coll_d = None \/ adim <> 0 ->
  (forall Lm, L = Some Lm -> square (nrows B) Lm /\ N_cpl <= N_mic + 1) ->
  microcoupling_problem A B N_mic Q R P x0 adim N_cpl L L_lambda
    umax umin xmin xmax xs coll_d
  = Ok (mkProblem
          (flat_map (stage_costs x u (psd_wrap Q) (psd_wrap R) xs) (seq 0 N_mic)
           ++ [HalfQuad (Col x N_mic) (psd_wrap P)]
           ++ coupling_costs L L_lambda N_cpl)
          (flat_map (fun t => stage_constrs x u A B xmin xmax t
                              ++ opt_separations x adim (nrows B / adim)
                                   (nrows B / adim - 1) t coll_d) (seq 0 N_mic)
           ++ closing_constrs x u N_mic umax umin xmin xmax x0)).
Proof.
  intros ((Hnx & Hnu & HN) & HA & HQ & HR & HP & Hx0 & Hxs & Hmin & Hmax & Hua & Hui)
         Hc HL.
  unfold microcoupling_problem.
  rewrite (wrap_psd_ok HQ), (wrap_psd_ok HR), (wrap_psd_ok HP). cbn [obind].
  rewrite !declare_ok by lia. cbn [obind].
  rewrite (for_acc_extend _ _
             (stage_costs x u (psd_wrap Q) (psd_wrap R) xs)
             (fun t => stage_constrs x u A B xmin xmax t
                       ++ opt_separations x adim (nrows B / adim)
                            (nrows B / adim - 1) t coll_d)).
  - cbn [obind].
    rewrite (@closing_extend _ x u N_mic P umax umin xmin xmax x0 _
               (nrows B) (ncols B)); auto; [|cbn; lia].
    cbn [obind]. rewrite py_range_0. destruct L as [Lm|]; simpl.
    + destruct (HL Lm eq_refl) as (HLm & Hcpl).
      rewrite (wrap_psd_ok HLm). cbn [obind].
      rewrite (for_acc_extend _ _
                 (fun t => [HalfScaledQuad L_lambda (Col x t) (psd_wrap Lm)])
                 (fun _ => [])).
      * rewrite ?py_range_0, flat_map_nil, flat_map_single.
        unfold extend; simpl. norm_app.
      * intros t q Ht. apply in_seq in Ht. apply cost_ok.
        apply (@col_cost_ok (single_scale (nrows B) (ncols B) N_mic) x t (nrows B));
          auto. cbn. lia.
    + unfold extend; simpl. norm_app.
  - intros t q Ht. apply in_py_range in Ht.
    rewrite (@stage_extend _ x u A B Q R xmin xmax xs t q (nrows B) (ncols B));
      auto; try (cbn; lia).
    cbn [obind]. destruct coll_d as [d|]; simpl.
    + destruct Hc as [Hc|Hc]; [discriminate|].
      rewrite collision_coupling_extend; auto; [|cbn; lia].
      now rewrite extend_extend, app_nil_r.
    + now rewrite app_nil_r.
Qed.

(** The operands of the micro scale that [mesocoupling_solve] checks
    even without a coupling weight: the variables are declared and
    [R_mic] is wrapped before [L] is looked at. *)
Lemma meso_part_form (A_mes B_mes : Mat F) N_mes (Q R_mes P : Mat F)
      (x0_mes : Vec F) (B_mic : Mat F) N_mic
      (umax_mes umin_mes xmin_mes xmax_mes : option (Mat F)) (xs : option (Vec F))
      {X : Type} (k : problem -> outcome X) :
  single_scale_fits A_mes B_mes N_mes Q R_mes P x0_mes
    umax_mes umin_mes xmin_mes xmax_mes xs ->
  p <- for_acc (py_range 0 N_mes)
         (fun t p =>
            stage (two_scale (nrows B_mes) (ncols B_mes) N_mes
                     (nrows B_mic) (ncols B_mic) N_mic)
              x_mes u_mes A_mes B_mes (psd_wrap Q) (psd_wrap R_mes)
              xmin_mes xmax_mes xs t p) empty_problem ;;
  p <- closing (two_scale (nrows B_mes) (ncols B_mes) N_mes
                  (nrows B_mic) (ncols B_mic) N_mic)
         x_mes u_mes N_mes (psd_wrap P) umax_mes umin_mes xmin_mes xmax_mes
         x0_mes p ;;
  k p
  = k (meso_problem A_mes B_mes N_mes Q R_mes P x0_mes
         umax_mes umin_mes xmin_mes xmax_mes xs).
Proof.
  intros ((Hnx & Hnu & HN) & HA & HQ & HR & HP & Hx0 & Hxs & Hmin & Hmax & Hua & Hui).
  rewrite py_range_0.
  rewrite (for_acc_extend _ _
             (stage_costs x_mes u_mes (psd_wrap Q) (psd_wrap R_mes) xs)
             (stage_constrs x_mes u_mes A_mes B_mes xmin_mes xmax_mes)).
  - cbn [obind].
    rewrite (@closing_extend _ x_mes u_mes N_mes P umax_mes umin_mes xmin_mes
               xmax_mes x0_mes _ (nrows B_mes) (ncols B_mes));
      [|reflexivity|cbn; lia|reflexivity|assumption..].
    cbn [obind]. unfold meso_problem, extend; simpl. reflexivity.
  - intros t q Ht. apply in_seq in Ht.
    apply (@stage_extend _ x_mes u_mes A_mes B_mes Q R_mes xmin_mes xmax_mes xs t q
             (nrows B_mes) (ncols B_mes)); auto; cbn; lia.
Qed.

(** The problem of [mesocoupling_solve] without a coupling weight. *)
Lemma mesocoupling_problem_none (A_mes B_mes : Mat F) N_mes (Q R_mes P : Mat F)
      (x0_mes : Vec F) adim (A_mic B_mic : Mat F) N_mic (R_mic : Mat F)
      (x0_mic : Vec F) (L_lambda : F)
      (umax_mes umin_mes umax_mic umin_mic : option (Mat F))
      (xmin_mes xmax_mes xmin_mic xmax_mic : option (Mat F))
      (xs : option (Vec F)) (coll_d : option F) :
  single_scale_fits A_mes B_mes N_mes Q R_mes P x0_mes
    umax_mes umin_mes xmin_mes xmax_mes xs ->
  horizon_fits B_mic N_mic -> square (ncols B_mic) R_mic ->
  mesocoupling_problem A_mes B_mes N_mes Q R_mes P x0_mes adim
    A_mic B_mic N_mic R_mic x0_mic None L_lambda
    umax_mes umin_mes umax_mic umin_mic xmin_mes xmax_mes xmin_mic xmax_mic
    xs coll_d
  = Ok (meso_problem A_mes B_mes N_mes Q R_mes P x0_mes
          umax_mes umin_mes xmin_mes xmax_mes xs).
Proof.
  intros Hfit (Hmx & Hmu & HNm) HRm.
  pose proof Hfit as ((Hnx & Hnu & HN) & HA & HQ & HR & HP & _).
  unfold mesocoupling_problem.
  rewrite (wrap_psd_ok HQ), (wrap_psd_ok HR), (wrap_psd_ok HRm), (wrap_psd_ok HP).
  cbn [obind]. rewrite !declare_ok by lia. cbn [obind].
  apply (meso_part_form B_mic N_mic (fun p => Ok p) Hfit).
Qed.

(** The problem of [mesocoupling_solve] with a coupling weight. *)
Lemma mesocoupling_problem_some (A_mes B_mes : Mat F) N_mes (Q R_mes P : Mat F)
      (x0_mes : Vec F) adim (A_mic B_mic : Mat F) N_mic (R_mic : Mat F)
      (x0_mic : Vec F) (L : Mat F) (L_lambda : F)
      (umax_mes umin_mes umax_mic umin_mic : option (Mat F))
      (xmin_mes xmax_mes xmin_mic xmax_mic : option (Mat F))
      (xs : option (Vec F)) (coll_d : option F) :
  single_scale_fits A_mes B_mes N_mes Q R_mes P x0_mes
    umax_mes umin_mes xmin_mes xmax_mes xs ->
  micro_scale_fits A_mic B_mic N_mic R_mic L x0_mic
    umax_mic umin_mic xmin_mic xmax_mic ->
  coll_d = None \/ adim <> 0 ->
  mesocoupling_problem A_mes B_mes N_mes Q R_mes P x0_mes adim
    A_mic B_mic N_mic R_mic x0_mic (Some L) L_lambda
    umax_mes umin_mes umax_mic umin_mic xmin_mes xmax_mes xmin_mic xmax_mic
    xs coll_d
  = Ok (extend (meso_problem A_mes B_mes N_mes Q R_mes P x0_mes
                  umax_mes umin_mes xmin_mes xmax_mes xs)
          (flat_map (micro_stage_costs (psd_wrap R_mic) (psd_wrap L) L_lambda)
                    (seq 0 N_mic))
          (flat_map (fun t => micro_stage_constrs A_mic B_mic xmin_mic xmax_mic t
                              ++ opt_separations x_mic adim (nrows B_mic / adim)
                                   (nrows B_mic / adim - 1) t coll_d) (seq 0 N_mic)
           ++ micro_closing_constrs umax_mic umin_mic x0_mic)).
Proof.
  intros Hfit ((Hmx & Hmu & HNm) & HAm & HRm & HL & Hx0m & Hmin & Hmax & Hua & Hui) Hc.
  pose proof Hfit as ((Hnx & Hnu & HN) & HA & HQ & HR & HP & _).
  unfold mesocoupling_problem.
  rewrite (wrap_psd_ok HQ), (wrap_psd_ok HR), (wrap_psd_ok HRm), (wrap_psd_ok HP).
  cbn [obind]. rewrite !declare_ok by lia. cbn [obind].
  rewrite (meso_part_form B_mic N_mic _ Hfit).
  rewrite (wrap_psd_ok HL). cbn [obind].
  set (D := two_scale (nrows B_mes) (ncols B_mes) N_mes
              (nrows B_mic) (ncols B_mic) N_mic).
  rewrite (for_acc_extend _ _
             (micro_stage_costs (psd_wrap R_mic) (psd_wrap L) L_lambda)
             (fun t => micro_stage_constrs A_mic B_mic xmin_mic xmax_mic t
                       ++ opt_separations x_mic adim (nrows B_mic / adim)
                            (nrows B_mic / adim - 1) t coll_d)).
  - cbn [obind].
    rewrite constrain_if_ok
      by (intros m Hm;
          apply (@input_bound_ok D u_mic (ncols B_mic) N_mic umax_mic m); auto).
    cbn [obind].
    rewrite constrain_if_ok
      by (intros m Hm;
          apply (@input_bound_ok D u_mic (ncols B_mic) N_mic umin_mic m); auto).
    cbn [obind].
    rewrite constrain_ok.
    + rewrite !extend_extend.
      rewrite py_range_0. unfold meso_problem, extend, micro_closing_constrs; simpl.
      norm_app.
    + apply (@compare_ok D _ _ [nrows B_mic]).
      * rewrite shape_col by (cbn; lia). reflexivity.
      * shp. now rewrite Hx0m.
  - intros t q Ht. apply in_py_range in Ht. unfold micro_stage.
    rewrite cost_ok
      by (apply (@col_cost_ok D x_mic t (nrows B_mic)); auto; cbn; lia).
    cbn [obind].
    rewrite cost_ok
      by (apply (@col_cost_ok D u_mic t (ncols B_mic)); auto; cbn; lia).
    cbn [obind].
    rewrite constrain_ok
      by (apply (@dynamics_ok D x_mic u_mic A_mic B_mic t (nrows B_mic) (ncols B_mic));
          auto; cbn; lia).
    cbn [obind].
    rewrite constrain_if_ok
      by (intros m Hm;
          apply (@state_bound_ok D x_mic t (nrows B_mic) xmin_mic m); auto; cbn; lia).
    cbn [obind].
    rewrite constrain_if_ok
      by (intros m Hm;
          apply (@state_bound_ok D x_mic t (nrows B_mic) xmax_mic m); auto; cbn; lia).
    cbn [obind]. rewrite !extend_extend.
    destruct coll_d as [d|]; simpl.
    + destruct Hc as [Hc|Hc]; [discriminate|].
      rewrite collision_coupling_extend; auto; [|cbn; lia].
      rewrite extend_extend. unfold micro_stage_constrs, micro_stage_costs. simpl.
      norm_app.
    + unfold micro_stage_constrs, micro_stage_costs. simpl. norm_app.
Qed.

(** *** Where the separation constraints sit *)

Lemma in_separations v adim nb hi t d (c : constr) :
  In c (separations v adim nb hi t d)
  <-> exists i j, c = separation v adim i j t d /\ i < nb /\ i < j < hi.
Proof.
  unfold separations. rewrite in_flat_map. split.
  - intros (i & Hi & Hc). apply in_map_iff in Hc. destruct Hc as (j & Hj & Hin).
    apply in_py_range in Hi. apply in_py_range in Hin.
    exists i, j. repeat split; auto; lia.
  - intros (i & j & Hc & Hi & Hj). exists i. split.
    + apply in_py_range; lia.
    + apply in_map_iff. exists j. split; [auto|]. apply in_py_range; lia.
Qed.

Lemma opt_constr_not_separation {A} (o : option A) (f : A -> constr) :
  (forall a, is_separation (f a) = false) ->
  Forall (fun c => is_separation c = false) (opt_constr o f).
Proof. intros Hf. destruct o; simpl; auto. Qed.

Lemma stage_constrs_not_separation xv uv (A B : Mat F) xmin xmax t :
  Forall (fun c => is_separation c = false) (stage_constrs xv uv A B xmin xmax t).
Proof.
  unfold stage_constrs.
  repeat (apply Forall_app; split); try apply opt_constr_not_separation; auto.
Qed.

Lemma closing_constrs_not_separation xv uv N (umax umin xmin xmax : option (Mat F))
      (x0 : Vec F) :
  Forall (fun c => is_separation c = false)
         (closing_constrs xv uv N umax umin xmin xmax x0).
Proof.
  unfold closing_constrs.
  repeat (apply Forall_app; split); try apply opt_constr_not_separation; auto.
Qed.

Lemma micro_stage_constrs_not_separation (A B : Mat F) xmin xmax t :
  Forall (fun c => is_separation c = false) (micro_stage_constrs A B xmin xmax t).
Proof.
  unfold micro_stage_constrs.
  repeat (apply Forall_app; split); try apply opt_constr_not_separation; auto.
Qed.

Lemma micro_closing_constrs_not_separation (umax umin : option (Mat F)) (x0 : Vec F) :
  Forall (fun c => is_separation c = false) (micro_closing_constrs umax umin x0).
Proof.
  unfold micro_closing_constrs.
  repeat (apply Forall_app; split); try apply opt_constr_not_separation; auto.
Qed.

Lemma not_separation_in (cs : list constr) c :
  Forall (fun c => is_separation c = false) cs ->
  In c cs -> is_separation c = true -> False.
Proof.
  intros Hall Hin Hs. rewrite Forall_forall in Hall.
  specialize (Hall c Hin). congruence.
Qed.

(** A constraint list made of a prefix without separations, stages
    that each carry their separations, and a suffix without any. *)
Lemma separates_exactly_stages v adim nb hi N d
      (pre : list constr) (K : nat -> list constr) (post : list constr) :
  hi <= nb ->
  Forall (fun c => is_separation c = false) pre ->
  (forall t, Forall (fun c => is_separation c = false) (K t)) ->
  Forall (fun c => is_separation c = false) post ->
  separates_exactly v adim hi N d
    (pre ++ flat_map (fun t => K t ++ separations v adim nb hi t d) (seq 0 N) ++ post).
Proof.
  intros Hhi Hpre HK Hpost. split.
  - intros c Hin Hs. rewrite !in_app_iff in Hin.
    destruct Hin as [Hin|[Hin|Hin]].
    + exfalso; eapply not_separation_in; [exact Hpre | exact Hin | exact Hs].
    + apply in_flat_map in Hin. destruct Hin as (t & Ht & Hin).
      apply in_seq in Ht. apply in_app_iff in Hin. destruct Hin as [Hin|Hin].
      * exfalso; eapply not_separation_in; [exact (HK t) | exact Hin | exact Hs].
      * apply in_separations in Hin. destruct Hin as (i & j & Hc & _ & Hj).
        exists i, j, t. repeat split; auto; lia.
    + exfalso; eapply not_separation_in; [exact Hpost | exact Hin | exact Hs].
  - intros i j t Hij Ht. rewrite !in_app_iff. right; left.
    apply in_flat_map. exists t. split; [apply in_seq; lia|].
    apply in_app_iff. right. apply in_separations.
    exists i, j. repeat split; auto; lia.
Qed.

(** *** Which variables the meso problem mentions *)

Lemma existsb_false {X} (f : X -> bool) l :
  (forall a, In a l -> f a = false) -> existsb f l = false.
Proof.
  induction l as [|a l IH]; intros Hf; simpl; [reflexivity|].
  rewrite Hf by (left; reflexivity). apply IH.
  intros; apply Hf; right; assumption.
Qed.

Lemma meso_problem_no_micro (A_mes B_mes : Mat F) N_mes (Q R_mes P : Mat F)
      (x0_mes : Vec F) (umax_mes umin_mes xmin_mes xmax_mes : option (Mat F))
      (xs : option (Vec F)) v :
  is_micro v = true ->
  problem_mentions v (meso_problem A_mes B_mes N_mes Q R_mes P x0_mes
                        umax_mes umin_mes xmin_mes xmax_mes xs) = false.
Proof.
  intros Hv. unfold problem_mentions, meso_problem; simpl.
  apply orb_false_iff; split; apply existsb_false; intros a Ha.
  - apply in_app_iff in Ha. destruct Ha as [Ha|[Ha|[]]].
    + apply in_flat_map in Ha. destruct Ha as (t & _ & Ha).
      unfold stage_costs, state_cost in Ha.
      destruct xs; simpl in Ha; destruct Ha as [Ha|[Ha|[]]]; subst a;
        destruct v; try discriminate Hv; reflexivity.
    + subst a. destruct v; try discriminate Hv; reflexivity.
  - apply in_app_iff in Ha. destruct Ha as [Ha|Ha].
    + apply in_flat_map in Ha. destruct Ha as (t & _ & Ha).
      unfold stage_constrs in Ha.
      destruct xmin_mes, xmax_mes; simpl in Ha;
        repeat (destruct Ha as [Ha|Ha]; [subst a; destruct v; try discriminate Hv; reflexivity|]);
        destruct Ha.
    + unfold closing_constrs in Ha.
      destruct xmin_mes, xmax_mes, umax_mes, umin_mes; simpl in Ha;
        repeat (destruct Ha as [Ha|Ha]; [subst a; destruct v; try discriminate Hv; reflexivity|]);
        destruct Ha.
Qed.

Lemma meso_constrs_not_separation (A_mes B_mes : Mat F) N_mes (Q R_mes P : Mat F)
      (x0_mes : Vec F) (umax_mes umin_mes xmin_mes xmax_mes : option (Mat F))
      (xs : option (Vec F)) :
  Forall (fun c => is_separation c = false)
         (constrlist (meso_problem A_mes B_mes N_mes Q R_mes P x0_mes
                        umax_mes umin_mes xmin_mes xmax_mes xs)).
Proof.
  unfold meso_problem; simpl. apply Forall_app; split.
  - apply Forall_flat_map. apply Forall_forall. intros t _.
    apply stage_constrs_not_separation.
  - apply closing_constrs_not_separation.
Qed.

(** The last block of a list that separates exactly the blocks below
    it is in no norm constraint. *)
Lemma separates_exactly_last_block v adim b N (d : F) (cs : list constr) :
  adim <> 0 -> separates_exactly v adim b N d cs -> block_unconstrained v adim b cs.
Proof.
  intros Ha (Hall & _) i t d'. split; intros Hin;
    destruct (Hall _ Hin eq_refl) as (i' & j' & t' & E & Hij & _);
    unfold block_pair in E; injection E as E1 _ _ E4 _ _ _.
  - apply Nat.mul_cancel_r in E4; [lia | assumption].
  - apply Nat.mul_cancel_r in E1; [lia | assumption].
Qed.

(** C3: for operands that fit, with a reference [x_star] supplied, the
    objective of [conventional_solve] is, for every stage [t < N], the
    pair [0.5 * quad_form(x[:, t] - x_star, Q)],
    [0.5 * quad_form(u[:, t], R)], followed by the terminal term
    [0.5 * quad_form(x[:, N], P)] on the raw terminal state: the
    reference enters the stage cost only. *)
Theorem conventional_reference_only_in_stage_cost
        (A B : Mat F) N (Q R P : Mat F) (x0 : Vec F) adim
        (umax umin xmin xmax : option (Mat F)) (x_star : Vec F)
        (coll_d : option F) :
  single_scale_fits A B N Q R P x0 umax umin xmin xmax (Some x_star) ->
  coll_d = None \/ adim <> 0 ->
  exists p,
    conventional_problem A B N Q R P x0 adim umax umin xmin xmax
      (Some x_star) coll_d = Ok p
    /\ costlist p
       = flat_map (fun t => [HalfQuad (Sub (Col x t) (Const x_star)) (psd_wrap Q);
                             HalfQuad (Col u t) (psd_wrap R)]) (seq 0 N)
         ++ [HalfQuad (Col x N) (psd_wrap P)].
Proof.
  intros Hfit Hc. eexists. split; [apply conventional_problem_form; assumption|].
  reflexivity.
Qed.

(** C4: for meso-scale operands that fit (and micro-scale variables
    that can be declared), without a coupling weight ([L] is [None])
    the problem built by [mesocoupling_solve] is the meso-scale problem
    alone: no term and no constraint mentions [x_mic] or [u_mic]; the
    returned cost is the value of that problem and the micro
    trajectories come back as [None]. *)
Theorem mesocoupling_without_weight_is_meso_only
        (cvxpy_solve : problem -> outcome ((var -> option (Mat F)) * F))
        (A_mes B_mes : Mat F) N_mes (Q R_mes P : Mat F)
        (x0_mes : Vec F) adim (A_mic B_mic : Mat F) N_mic (R_mic : Mat F)
        (x0_mic : Vec F) (L_lambda : F)
        (umax_mes umin_mes umax_mic umin_mic : option (Mat F))
        (xmin_mes xmax_mes xmin_mic xmax_mic : option (Mat F))
        (xs : option (Vec F)) (coll_d : option F) :
  single_scale_fits A_mes B_mes N_mes Q R_mes P x0_mes
    umax_mes umin_mes xmin_mes xmax_mes xs ->
  horizon_fits B_mic N_mic -> square (ncols B_mic) R_mic ->
  let p := meso_problem A_mes B_mes N_mes Q R_mes P x0_mes
             umax_mes umin_mes xmin_mes xmax_mes xs in
  mesocoupling_problem A_mes B_mes N_mes Q R_mes P x0_mes adim
    A_mic B_mic N_mic R_mic x0_mic None L_lambda
    umax_mes umin_mes umax_mic umin_mic xmin_mes xmax_mes xmin_mic xmax_mic
    xs coll_d = Ok p
  /\ (forall v, is_micro v = true -> problem_mentions v p = false)
  /\ mesocoupling_solve cvxpy_solve A_mes B_mes N_mes Q R_mes P x0_mes adim
       A_mic B_mic N_mic R_mic x0_mic None L_lambda
       umax_mes umin_mes umax_mic umin_mic xmin_mes xmax_mes xmin_mic xmax_mic
       xs coll_d
     = match cvxpy_solve p with
       | Ok sol => Ok (value_of p (fst sol) x_mes, None,
                       value_of p (fst sol) u_mes, None, snd sol)
       | Raise e => Raise e
       end.
Proof.
  intros Hfit Hmic HRm p. subst p.
  split; [apply mesocoupling_problem_none; assumption|].
  split; [intros v Hv; apply meso_problem_no_micro; exact Hv|].
  unfold mesocoupling_solve. rewrite mesocoupling_problem_none by assumption.
  cbn [obind]. destruct (cvxpy_solve _) as [sol|e]; cbn [obind]; [|reflexivity].
  unfold value_of.
  rewrite (meso_problem_no_micro A_mes B_mes N_mes Q R_mes P x0_mes
             umax_mes umin_mes xmin_mes xmax_mes xs x_mic eq_refl).
  rewrite (meso_problem_no_micro A_mes B_mes N_mes Q R_mes P x0_mes
             umax_mes umin_mes xmin_mes xmax_mes xs u_mic eq_refl).
  reflexivity.
Qed.

(** C10: for operands that fit and a collision distance [d],
    [conventional_solve] has the constraint
    [norm2(x[i*adim:(i+1)*adim, t] - x[j*adim:(j+1)*adim, t]) >= d] for
    every pair of blocks [i < j < nx // adim] at every stage, and no
    other norm constraint.  [microcoupling_solve] and
    [mesocoupling_solve] have it only for the pairs
    [i < j < nx // adim - 1]: no constraint of theirs relates the last
    block, number [nx // adim - 1], to any block. *)
Theorem separation_pairs_of_the_three_solves
        (A B : Mat F) N (Q R P : Mat F) (x0 : Vec F) adim
        (umax umin xmin xmax : option (Mat F)) (xs : option (Vec F)) (d : F)
        N_cpl (L : option (Mat F)) (L_lambda : F)
        (A_mes B_mes : Mat F) N_mes (Q_mes R_mes P_mes : Mat F) (x0_mes : Vec F)
        (umax_mes umin_mes xmin_mes xmax_mes : option (Mat F))
        (xs_mes : option (Vec F)) (L_mes : Mat F) :
  adim <> 0 ->
  single_scale_fits A B N Q R P x0 umax umin xmin xmax xs ->
  (forall Lm, L = Some Lm -> square (nrows B) Lm /\ N_cpl <= N + 1) ->
  single_scale_fits A_mes B_mes N_mes Q_mes R_mes P_mes x0_mes
    umax_mes umin_mes xmin_mes xmax_mes xs_mes ->
  square (nrows B) L_mes ->
  (exists p,
      conventional_problem A B N Q R P x0 adim umax umin xmin xmax xs (Some d) = Ok p
      /\ separates_exactly x adim (nrows B / adim) N d (constrlist p))
  /\ (exists p,
         microcoupling_problem A B N Q R P x0 adim N_cpl L L_lambda
           umax umin xmin xmax xs (Some d) = Ok p
         /\ separates_exactly x adim (nrows B / adim - 1) N d (constrlist p)
         /\ block_unconstrained x adim (nrows B / adim - 1) (constrlist p))
  /\ (exists p,
         mesocoupling_problem A_mes B_mes N_mes Q_mes R_mes P_mes x0_mes adim
           A B N R x0 (Some L_mes) L_lambda
           umax_mes umin_mes umax umin xmin_mes xmax_mes xmin xmax xs_mes (Some d)
         = Ok p
         /\ separates_exactly x_mic adim (nrows B / adim - 1) N d (constrlist p)
         /\ block_unconstrained x_mic adim (nrows B / adim - 1) (constrlist p)).
Proof.
  intros Ha Hfit HL Hmes HLm.
  assert (Hmic : micro_scale_fits A B N R L_mes x0 umax umin xmin xmax).
  { destruct Hfit as (Hh & HA & _ & HR & _ & Hx0 & _ & Hmin & Hmax & Hua & Hui).
    unfold micro_scale_fits. auto 12. }
  assert (Hconv : separates_exactly x adim (nrows B / adim) N d
                    ([] ++ flat_map (fun t => stage_constrs x u A B xmin xmax t
                                              ++ separations x adim (nrows B / adim)
                                                   (nrows B / adim) t d) (seq 0 N)
                        ++ closing_constrs x u N umax umin xmin xmax x0)).
  { apply separates_exactly_stages; auto.
    - intros t. apply stage_constrs_not_separation.
    - apply closing_constrs_not_separation. }
  assert (Hcpl : separates_exactly x adim (nrows B / adim - 1) N d
                   ([] ++ flat_map (fun t => stage_constrs x u A B xmin xmax t
                                             ++ separations x adim (nrows B / adim)
                                                  (nrows B / adim - 1) t d) (seq 0 N)
                       ++ closing_constrs x u N umax umin xmin xmax x0)).
  { apply separates_exactly_stages; auto.
    - lia.
    - intros t. apply stage_constrs_not_separation.
    - apply closing_constrs_not_separation. }
  assert (Hmeso : separates_exactly x_mic adim (nrows B / adim - 1) N d
                    (constrlist (meso_problem A_mes B_mes N_mes Q_mes R_mes P_mes
                                   x0_mes umax_mes umin_mes xmin_mes xmax_mes xs_mes)
                     ++ flat_map (fun t => micro_stage_constrs A B xmin xmax t
                                           ++ separations x_mic adim (nrows B / adim)
                                                (nrows B / adim - 1) t d) (seq 0 N)
                     ++ micro_closing_constrs umax umin x0)).
  { apply separates_exactly_stages.
    - lia.
    - apply meso_constrs_not_separation.
    - intros t. apply micro_stage_constrs_not_separation.
    - apply micro_closing_constrs_not_separation. }
  split; [|split].
  - eexists. split; [apply conventional_problem_form; auto|]. exact Hconv.
  - eexists. split; [apply microcoupling_problem_form; auto|].
    split; [exact Hcpl|]. eapply separates_exactly_last_block; eauto.
  - eexists. split; [apply mesocoupling_problem_some; auto|].
    split; [exact Hmeso|]. eapply separates_exactly_last_block; eauto.
Qed.

End Facts.
End mpc_facts.

(** Decides the shape hypotheses at concrete operands. *)
Ltac fits :=
  unfold mpc_forms.single_scale_fits, mpc_forms.micro_scale_fits,
    mpc_forms.horizon_fits, mpc_forms.square, mpc_forms.reference_fits,
    mpc_forms.state_bound_fits, mpc_forms.input_bound_fits;
  cbn; repeat split; lia.

Lemma conventional_reference_only_in_stage_cost_witness :
  exists p,
    mpc_solver.conventional_problem sample.I2 sample.I2 2 sample.I2 sample.I2 sample.I2
      [0%Z; 1%Z] 1 None None None None (Some [5%Z; 5%Z]) None = Ok p
    /\ mpc_solver.costlist p
       = flat_map (fun t =>
                     [mpc_solver.HalfQuad
                        (mpc_solver.Sub (mpc_solver.Col mpc_solver.x t)
                                        (mpc_solver.Const [5%Z; 5%Z]))
                        (mpc_solver.psd_wrap sample.I2);
                      mpc_solver.HalfQuad (mpc_solver.Col mpc_solver.u t)
                        (mpc_solver.psd_wrap sample.I2)]) (seq 0 2)
         ++ [mpc_solver.HalfQuad (mpc_solver.Col mpc_solver.x 2)
               (mpc_solver.psd_wrap sample.I2)].
Proof.
  apply (@mpc_facts.conventional_reference_only_in_stage_cost Z
           sample.I2 sample.I2 2 sample.I2 sample.I2 sample.I2 [0%Z; 1%Z] 1
           None None None None [5%Z; 5%Z] None).
  - fits.
  - left; reflexivity.
Defined.

Lemma mesocoupling_without_weight_is_meso_only_witness :
  mpc_solver.mesocoupling_problem sample.I1 sample.I1 2 sample.I1 sample.I1 sample.I1
    [0%Z] 1 sample.I2 sample.I2 3 sample.I2 [0%Z; 1%Z] None 1%Z
    None None None None None None None None (Some [5%Z]) None
  = Ok (mpc_forms.meso_problem sample.I1 sample.I1 2 sample.I1 sample.I1 sample.I1
          [0%Z] None None None None (Some [5%Z])).
Proof.
  apply (@mpc_facts.mesocoupling_without_weight_is_meso_only Z
           (fun _ => Raise (LibraryError "SolverError"))
           sample.I1 sample.I1 2 sample.I1 sample.I1 sample.I1 [0%Z] 1
           sample.I2 sample.I2 3 sample.I2 [0%Z; 1%Z] 1%Z
           None None None None None None None None (Some [5%Z]) None).
  - fits.
  - fits.
  - fits.
Defined.

Lemma separation_pairs_of_the_three_solves_witness :
  (exists p,
      mpc_solver.conventional_problem sample.I3 sample.I3 2 sample.I3 sample.I3 sample.I3
        [0%Z; 0%Z; 0%Z] 1 None None None None None (Some 1%Z) = Ok p
      /\ mpc_forms.separates_exactly mpc_solver.x 1 (nrows sample.I3 / 1) 2 1%Z
           (mpc_solver.constrlist p))
  /\ (exists p,
         mpc_solver.microcoupling_problem sample.I3 sample.I3 2 sample.I3 sample.I3
           sample.I3 [0%Z; 0%Z; 0%Z] 1 3 (Some sample.I3) 1%Z
           None None None None None (Some 1%Z)
         = Ok p
         /\ mpc_forms.separates_exactly mpc_solver.x 1 (nrows sample.I3 / 1 - 1) 2 1%Z
              (mpc_solver.constrlist p)
         /\ mpc_forms.block_unconstrained mpc_solver.x 1 (nrows sample.I3 / 1 - 1)
              (mpc_solver.constrlist p))
  /\ (exists p,
         mpc_solver.mesocoupling_problem sample.I1 sample.I1 1 sample.I1 sample.I1
           sample.I1 [0%Z] 1 sample.I3 sample.I3 2 sample.I3 [0%Z; 0%Z; 0%Z]
           (Some sample.I3) 1%Z None None None None None None None None None (Some 1%Z)
         = Ok p
         /\ mpc_forms.separates_exactly mpc_solver.x_mic 1 (nrows sample.I3 / 1 - 1) 2 1%Z
              (mpc_solver.constrlist p)
         /\ mpc_forms.block_unconstrained mpc_solver.x_mic 1 (nrows sample.I3 / 1 - 1)
              (mpc_solver.constrlist p)).
Proof.
  apply (@mpc_facts.separation_pairs_of_the_three_solves Z
           sample.I3 sample.I3 2 sample.I3 sample.I3 sample.I3 [0%Z; 0%Z; 0%Z] 1
           None None None None None 1%Z 3 (Some sample.I3) 1%Z
           sample.I1 sample.I1 1 sample.I1 sample.I1 sample.I1 [0%Z]
           None None None None None sample.I3).
  - discriminate.
  - fits.
  - intros Lm E. injection E as <-. fits.
  - fits.
  - fits.
Defined.

(** Arithmetic on lengths of arrays. *)
Ltac vlia := unfold nrows, Vec in *; lia.

(** ** Arrays *)

Section ArrayFacts.
Context {F : Type} `{Scalar F}.

Lemma nth_map_in {X Y : Type} (f : X -> Y) (l : list X) i dx dy :
  i < length l -> nth i (map f l) dy = f (nth i l dx).
Proof.
  intros Hi. rewrite (nth_indep _ dy (f dx)) by (now rewrite length_map).
  apply map_nth.
Qed.

Lemma matvec_ok (M : Mat F) (v : Vec F) :
  ncols M = length v -> matvec M v = Ok (map (fun r => dot r v) (rows M)).
Proof. intros E. unfold matvec. rewrite E, Nat.eqb_refl. reflexivity. Qed.

Lemma bcast_len_same n : bcast_len n n = Some n.
Proof. unfold bcast_len. now rewrite Nat.eqb_refl. Qed.

Lemma bget_nth (v : Vec F) i : i < length v -> bget v i = nth i v f0.
Proof.
  intros Hi. unfold bget. destruct (Nat.eqb_spec (length v) 1) as [E|E]; [|reflexivity].
  replace i with 0 by lia. reflexivity.
Qed.

Lemma vzip_same_length op (a b : Vec F) :
  length a = length b ->
  vzip op a b = Ok (map (fun i => op (nth i a f0) (nth i b f0)) (seq 0 (length a))).
Proof.
  intros E. unfold vzip. rewrite <- E, bcast_len_same. f_equal.
  apply map_ext_in. intros i Hi. apply in_seq in Hi.
  rewrite !bget_nth by lia. reflexivity.
Qed.

Lemma bcast_to_same (v : Vec F) n : length v = n -> bcast_to v n = Ok v.
Proof. intros E. unfold bcast_to. now rewrite E, Nat.eqb_refl. Qed.

Lemma set_row_ok (M : Mat F) idx (v : Vec F) :
  idx < nrows M -> length v = ncols M ->
  set_row M idx v = Ok (mkMat (ncols M) (system_spec.upd idx v (rows M))).
Proof.
  intros Hi Hv. unfold set_row.
  destruct (Nat.ltb_spec idx (nrows M)); [|lia].
  rewrite bcast_to_same by assumption. reflexivity.
Qed.

Lemma length_upd k (v : Vec F) rs :
  k < length rs -> length (system_spec.upd k v rs) = length rs.
Proof.
  intros Hk. unfold system_spec.upd.
  rewrite length_app, length_firstn. cbn [length]. rewrite length_skipn. lia.
Qed.

Lemma nth_upd k (v : Vec F) rs i d :
  k < length rs ->
  nth i (system_spec.upd k v rs) d = if i =? k then v else nth i rs d.
Proof.
  intros Hk. unfold system_spec.upd.
  destruct (Nat.eqb_spec i k) as [->|Hne].
  - rewrite app_nth2 by (rewrite length_firstn; lia).
    rewrite length_firstn. replace (k - Nat.min k (length rs)) with 0 by lia.
    reflexivity.
  - destruct (Nat.lt_ge_cases i k) as [Hlt|Hge].
    + rewrite app_nth1 by (rewrite length_firstn; lia).
      now rewrite nth_firstn, (proj2 (Nat.ltb_lt i k) Hlt).
    + rewrite app_nth2 by (rewrite length_firstn; lia).
      rewrite length_firstn. replace (Nat.min k (length rs)) with k by lia.
      destruct (i - k) as [|m] eqn:Em; [lia|]. cbn [nth].
      rewrite nth_skipn. f_equal. lia.
Qed.

(** *** Block assignment *)

Lemma nth_splice {X : Type} (l seg : list X) a i d :
  a + length seg <= length l ->
  nth i (firstn a l ++ seg ++ skipn (a + length seg) l) d
  = if system_spec.within a (length seg) i then nth (i - a) seg d else nth i l d.
Proof.
  intros Hle. unfold system_spec.within.
  destruct (Nat.leb_spec a i) as [Hai|Hai]; cbn [andb].
  - rewrite app_nth2 by (rewrite length_firstn; lia).
    rewrite length_firstn. replace (Nat.min a (length l)) with a by lia.
    destruct (Nat.ltb_spec i (a + length seg)) as [Hi|Hi].
    + now rewrite app_nth1 by lia.
    + rewrite app_nth2 by lia. rewrite nth_skipn. f_equal. lia.
  - rewrite app_nth1 by (rewrite length_firstn; lia).
    rewrite nth_firstn. now destruct (Nat.ltb_spec i a); [|lia].
Qed.

Lemma length_splice {X : Type} (l seg : list X) a :
  a + length seg <= length l ->
  length (firstn a l ++ seg ++ skipn (a + length seg) l) = length l.
Proof.
  intros Hle. rewrite !length_app, length_firstn, length_skipn. lia.
Qed.

Lemma wf_mat_nth (M : Mat F) r :
  wf_mat M -> r < nrows M -> length (nth r (rows M) []) = ncols M.
Proof.
  intros Hwf Hr. unfold wf_mat in Hwf. rewrite Forall_forall in Hwf.
  apply Hwf. apply nth_In. exact Hr.
Qed.

Lemma wf_mat_of_nth (M : Mat F) :
  (forall r, r < nrows M -> length (nth r (rows M) []) = ncols M) -> wf_mat M.
Proof.
  intros Hn. unfold wf_mat. apply Forall_forall. intros x Hx.
  destruct (In_nth _ _ [] Hx) as (r & Hr & <-). now apply Hn.
Qed.

Lemma bcast_rows_same (src : Mat F) h wd :
  nrows src = h -> ncols src = wd -> wf_mat src ->
  bcast_rows src h wd = Ok (rows src).
Proof.
  intros Hh Hw Hwf. unfold bcast_rows.
  rewrite Hh, Hw, !Nat.eqb_refl. cbn [orb]. f_equal.
  apply (nth_ext _ _ [] []).
  - rewrite length_map, length_seq. symmetry. exact Hh.
  - intros i Hi. rewrite length_map, length_seq in Hi.
    rewrite (nth_map_in _ _ 0) by (rewrite length_seq; lia).
    rewrite seq_nth by lia. cbn [Nat.add].
    assert (Ei : (if h =? 1 then 0 else i) = i).
    { destruct (Nat.eqb_spec h 1); [lia | reflexivity]. }
    rewrite Ei.
    assert (Hlen : length (nth i (rows src) []) = wd).
    { rewrite <- Hw. apply wf_mat_nth; [assumption | lia]. }
    apply (nth_ext _ _ f0 f0).
    + rewrite length_map, length_seq. symmetry. exact Hlen.
    + intros j Hj. rewrite length_map, length_seq in Hj.
      rewrite (nth_map_in _ _ 0) by (rewrite length_seq; lia).
      rewrite seq_nth by lia. cbn [Nat.add].
      destruct (Nat.eqb_spec wd 1); [|reflexivity].
      replace j with 0 by lia. reflexivity.
Qed.

Lemma set_block_placed (M src : Mat F) r0 r1 c0 c1 :
  r1 = r0 + nrows src -> c1 = c0 + ncols src ->
  r1 <= nrows M -> c1 <= ncols M -> wf_mat src ->
  set_block M r0 r1 c0 c1 src = Ok (system_spec.placed M r0 c0 src).
Proof.
  intros -> -> Hr Hc Hwf. unfold set_block, clip.
  replace (Nat.min r0 (nrows M)) with r0 by lia.
  replace (Nat.min (r0 + nrows src) (nrows M)) with (r0 + nrows src) by lia.
  replace (Nat.min c0 (ncols M)) with c0 by lia.
  replace (Nat.min (c0 + ncols src) (ncols M)) with (c0 + ncols src) by lia.
  replace (r0 + nrows src - r0) with (nrows src) by lia.
  replace (c0 + ncols src - c0) with (ncols src) by lia.
  rewrite bcast_rows_same by auto. reflexivity.
Qed.

Lemma placed_row (M src : Mat F) r0 c0 r :
  r0 + nrows src <= nrows M ->
  nth r (rows (system_spec.placed M r0 c0 src)) []
  = if system_spec.within r0 (nrows src) r
    then splice (nth r (rows M) []) c0 (nth (r - r0) (rows src) [])
    else nth r (rows M) [].
Proof.
  intros Hr. unfold system_spec.placed. cbn [rows].
  set (mid := map (fun p : Vec F * Vec F => splice (fst p) c0 (snd p))
                  (combine (firstn (nrows src) (skipn r0 (rows M))) (rows src))).
  assert (Hlen1 : length (firstn (nrows src) (skipn r0 (rows M))) = nrows src).
  { rewrite length_firstn, length_skipn. vlia. }
  assert (Hmid : length mid = nrows src).
  { unfold mid. rewrite length_map, length_combine, Hlen1. vlia. }
  rewrite <- Hmid. rewrite nth_splice by (rewrite Hmid; exact Hr).
  rewrite Hmid. unfold system_spec.within.
  destruct (Nat.leb_spec r0 r) as [H1|H1]; cbn [andb]; [|reflexivity].
  destruct (Nat.ltb_spec r (r0 + nrows src)) as [H2|H2]; [|reflexivity].
  unfold mid. rewrite (nth_map_in _ _ ([], []))
    by (rewrite length_combine, Hlen1; vlia).
  rewrite combine_nth by vlia. cbn [fst snd].
  rewrite nth_firstn. destruct (Nat.ltb_spec (r - r0) (nrows src)); [|lia].
  rewrite nth_skipn. do 2 f_equal. lia.
Qed.

Lemma placed_nrows (M src : Mat F) r0 c0 :
  r0 + nrows src <= nrows M -> nrows (system_spec.placed M r0 c0 src) = nrows M.
Proof.
  intros Hr. unfold nrows at 1. unfold system_spec.placed. cbn [rows].
  rewrite !length_app, length_firstn, length_map, length_combine, length_firstn,
    !length_skipn. vlia.
Qed.

Lemma placed_entry (M src : Mat F) r0 c0 r c :
  r0 + nrows src <= nrows M -> c0 + ncols src <= ncols M ->
  wf_mat M -> wf_mat src ->
  system_spec.entry (system_spec.placed M r0 c0 src) r c
  = if system_spec.within r0 (nrows src) r && system_spec.within c0 (ncols src) c
    then system_spec.entry src (r - r0) (c - c0)
    else system_spec.entry M r c.
Proof.
  intros Hr Hc HwfM Hwfs. unfold system_spec.entry. rewrite placed_row by assumption.
  destruct (system_spec.within r0 (nrows src) r) eqn:Er; cbn [andb]; [|reflexivity].
  unfold system_spec.within in Er. apply andb_true_iff in Er. destruct Er as (E1 & E2).
  apply Nat.leb_le in E1. apply Nat.ltb_lt in E2.
  assert (Hs : length (nth (r - r0) (rows src) []) = ncols src)
    by (apply wf_mat_nth; [assumption | lia]).
  assert (Hm : length (nth r (rows M) []) = ncols M)
    by (apply wf_mat_nth; [assumption | lia]).
  unfold splice. rewrite nth_splice by vlia.
  unfold Vec in *. rewrite Hs. reflexivity.
Qed.

Lemma placed_wf (M src : Mat F) r0 c0 :
  r0 + nrows src <= nrows M -> c0 + ncols src <= ncols M ->
  wf_mat M -> wf_mat src -> wf_mat (system_spec.placed M r0 c0 src).
Proof.
  intros Hr Hc HwfM Hwfs. apply wf_mat_of_nth. intros r Hlt.
  rewrite placed_nrows in Hlt by assumption.
  rewrite placed_row by assumption. cbn [ncols system_spec.placed].
  destruct (system_spec.within r0 (nrows src) r) eqn:Er.
  - unfold system_spec.within in Er. apply andb_true_iff in Er. destruct Er as (E1 & E2).
    apply Nat.leb_le in E1. apply Nat.ltb_lt in E2.
    assert (Hs : length (nth (r - r0) (rows src) []) = ncols src)
      by (apply wf_mat_nth; [assumption | lia]).
    assert (Hm : length (nth r (rows M) []) = ncols M)
      by (apply wf_mat_nth; [assumption | lia]).
    unfold splice. rewrite length_splice by vlia. exact Hm.
  - now apply wf_mat_nth.
Qed.

End ArrayFacts.

(** ** Agents *)

Module agent_facts.
Import LinearAgentNd.
Section Facts.
Context {F : Type} `{Scalar F}.

(** For an agent with [A] of shape D x D, [B] of shape D x C and a
    state of length D, and a control of length C, [propagate_input]
    returns normally; entry [i] of the new state is row [i] of [A] times
    the old state plus row [i] of [B] times the control, and [A], [B] and
    [agent_dim] are as before. *)
Lemma propagate_input_on_fitting_shapes (a : t F) (control_val : Vec F) (D C : nat) :
  has_shape (A a) D D ->
  has_shape (B a) D C ->
  length (state a) = D ->
  length control_val = C ->
  exists a',
    propagate_input a control_val = Ok a'
    /\ length (state a') = D
    /\ (forall i, i < D ->
          nth i (state a') f0
          = fadd (dot (nth i (rows (A a)) []) (state a))
                 (dot (nth i (rows (B a)) []) control_val))
    /\ A a' = A a /\ B a' = B a /\ agent_dim a' = agent_dim a.
Proof.
  intros (HAr & HAc & _) (HBr & HBc & _) Hs Hu.
  unfold propagate_input.
  rewrite matvec_ok by congruence. cbn [obind].
  rewrite matvec_ok by congruence. cbn [obind].
  unfold vadd.
  rewrite vzip_same_length by (rewrite !length_map; unfold nrows in *; congruence).
  cbn [obind]. eexists. split; [reflexivity|]. cbn [state A B agent_dim].
  rewrite length_map, length_seq, length_map. unfold nrows in *.
  split; [assumption|]. split; [|auto].
  intros i Hi.
  unfold Vec in *.
  rewrite (nth_map_in _ _ 0) by (rewrite length_seq; lia).
  rewrite seq_nth by lia. cbn [Nat.add].
  rewrite (nth_map_in _ _ []) by lia.
  rewrite (nth_map_in _ _ []) by lia.
  reflexivity.
Qed.

(** [__init__] returns an agent exactly when the three assertions hold. *)
Lemma init_ok_iff (A B : Mat F) (agent_dim : nat) (init_state : Vec F) :
  (exists a, init A B agent_dim init_state = Ok a)
  <-> length init_state = agent_dim /\ nrows A = agent_dim /\ ncols A = agent_dim
      /\ ncols B = agent_dim.
Proof.
  unfold init, shape_eqb, shape; cbn [fst snd].
  destruct (Nat.eqb_spec (length init_state) agent_dim);
    destruct (Nat.eqb_spec (nrows A) agent_dim);
    destruct (Nat.eqb_spec (ncols A) agent_dim);
    destruct (Nat.eqb_spec (ncols B) agent_dim); cbn [andb];
    split; intros Hx; try (destruct Hx as (a & Hx); discriminate);
    try (destruct Hx as (? & ? & ? & ?); contradiction);
    try (repeat split; assumption); eexists; reflexivity.
Qed.

(** Both agent methods keep [A], [B] and [agent_dim]. *)
Lemma propagate_input_frame (a a' : t F) u :
  propagate_input a u = Ok a' ->
  A a' = A a /\ B a' = B a /\ agent_dim a' = agent_dim a.
Proof.
  unfold propagate_input.
  destruct (matvec (A a) (state a)); cbn [obind]; [|discriminate].
  destruct (matvec (B a) u); cbn [obind]; [|discriminate].
  destruct (vadd _ _); cbn [obind]; [|discriminate].
  intros E; injection E as <-. auto.
Qed.

Lemma set_state_frame (a a' : t F) v :
  set_state a v = Ok a' ->
  A a' = A a /\ B a' = B a /\ agent_dim a' = agent_dim a /\ state a' = v.
Proof.
  unfold set_state. destruct (_ =? _); [|discriminate].
  intros E; injection E as <-. auto.
Qed.

End Facts.
End agent_facts.

(** C6 (the code departs from it): the constructor accepts, for an
    agent of dimension two, an input matrix with three rows and two
    columns, because it compares the column count of [B], and not its row
    count, with [agent_dim]; on a control of length two, the control
    dimension of this agent, [propagate_input] then raises [ValueError],
    as [A @ state] has two entries and [B @ control_val] three. *)
Theorem propagate_input_raises_on_a_constructed_agent :
  let B := mkMat 2 [[1%Z; 0%Z]; [0%Z; 1%Z]; [1%Z; 1%Z]] in
  LinearAgentNd.init sample.I2 B 2 [0%Z; 0%Z]
  = Ok (LinearAgentNd.mk sample.I2 B [0%Z; 0%Z] 2)
  /\ ncols B = length [1%Z; 1%Z]
  /\ LinearAgentNd.propagate_input
       (LinearAgentNd.mk sample.I2 B [0%Z; 0%Z] 2) [1%Z; 1%Z]
     = Raise (ValueError "operands could not be broadcast together").
Proof. repeat split. Qed.

(** C8 (the code departs from it): the constructor refuses an input
    matrix with two rows and one column for an agent of dimension two,
    because it compares the column count of [B] with [agent_dim]; the
    agent with these matrices, once it exists, takes a control of length
    one without error. *)
Theorem init_rejects_control_dim_other_than_agent_dim :
  LinearAgentNd.init sample.I2 sample.B21 2 [0%Z; 0%Z] = Raise AssertionError
  /\ LinearAgentNd.propagate_input
       (LinearAgentNd.mk sample.I2 sample.B21 [0%Z; 0%Z] 2) [3%Z]
     = Ok (LinearAgentNd.mk sample.I2 sample.B21 [3%Z; 3%Z] 2).
Proof. split; reflexivity. Qed.

(** ** Stability of stateful computations *)

Section Stable.
Context {S : Type} (R : S -> S -> Prop).
Hypothesis R_refl : forall s, R s s.
Hypothesis R_trans : forall a b c, R a b -> R b c -> R a c.

Lemma stable_ret {A} (a : A) : stable R (ret a).
Proof. intros s. apply R_refl. Qed.

Lemma stable_raise {A} e : stable R (@raise S A e).
Proof. intros s. apply R_refl. Qed.

Lemma stable_lift {A} (o : outcome A) : stable R (lift o).
Proof. intros s. apply R_refl. Qed.

Lemma stable_gets {A} (f : S -> A) : stable R (gets f).
Proof. intros s. apply R_refl. Qed.

Lemma stable_bind {A B} (m : M S A) (k : A -> M S B) :
  stable R m -> (forall a, stable R (k a)) -> stable R (bind m k).
Proof.
  intros Hm Hk s. unfold bind. specialize (Hm s).
  destruct (m s) as [[a|e] s']; cbn [snd] in *; [|assumption].
  eapply R_trans; [exact Hm | apply Hk].
Qed.

Lemma stable_for_each {X} (l : list X) (body : X -> M S unit) :
  (forall i, stable R (body i)) -> stable R (for_each l body).
Proof.
  intros Hb. induction l as [|i l IH]; cbn [for_each].
  - apply stable_ret.
  - apply stable_bind; auto.
Qed.

Lemma stable_for_fold {X Acc} (l : list X) (body : X -> Acc -> M S Acc) acc :
  (forall i a, stable R (body i a)) -> stable R (for_fold l body acc).
Proof.
  intros Hb. revert acc. induction l as [|i l IH]; intros acc; cbn [for_fold].
  - apply stable_ret.
  - apply stable_bind; auto.
Qed.

End Stable.

(** A loop whose body returns and keeps an invariant returns and keeps it. *)
Lemma for_each_inv {S X : Type} (P : S -> Prop) (l : list X) (body : X -> M S unit) :
  (forall i s, In i l -> P s -> exists s', body i s = (Ok tt, s') /\ P s') ->
  forall s, P s -> exists s', for_each l body s = (Ok tt, s') /\ P s'.
Proof.
  induction l as [|i l IH]; intros Hb s Hs; cbn [for_each].
  - exists s. split; [reflexivity | assumption].
  - destruct (Hb i s (or_introl eq_refl) Hs) as (s1 & E1 & H1).
    destruct (IH (fun j s Hj => Hb j s (or_intror Hj)) s1 H1) as (s2 & E2 & H2).
    exists s2. split; [|assumption]. unfold bind. now rewrite E1.
Qed.

(** ** The frame of the mutating methods *)

Module frame_facts.
Import frame.
Section Facts.
Context {F : Type} `{Scalar F}.
Variable ext : MultiAgentSystem.externals F.

Lemma same_dynamics_trans (a b c : store F) :
  same_dynamics a b -> same_dynamics b c -> same_dynamics a c.
Proof. unfold same_dynamics. congruence. Qed.

Lemma same_frame_refl (s : MultiAgentSystem.t F) : same_frame s s.
Proof. unfold same_frame, same_dynamics. repeat split. Qed.

Lemma same_frame_trans (a b c : MultiAgentSystem.t F) :
  same_frame a b -> same_frame b c -> same_frame a c.
Proof.
  unfold same_frame, same_dynamics.
  intros (?&?&?&?&?&?&?) (?&?&?&?&?&?&?). repeat split; congruence.
Qed.

Lemma world_frame_refl (w : MultiAgentSystem.world F) : world_frame w w.
Proof. apply same_frame_refl. Qed.

Lemma world_frame_trans (a b c : MultiAgentSystem.world F) :
  world_frame a b -> world_frame b c -> world_frame a c.
Proof. apply same_frame_trans. Qed.

Lemma cluster_frame_refl (s : store F * LinearClusterNd.t F) : cluster_frame s s.
Proof. reflexivity. Qed.

Lemma cluster_frame_trans (a b c : store F * LinearClusterNd.t F) :
  cluster_frame a b -> cluster_frame b c -> cluster_frame a c.
Proof. apply same_dynamics_trans. Qed.

Lemma dynamics_put_agent k (a a' : LinearAgentNd.t F) (st : store F) :
  find_agent k st = Some a ->
  LinearAgentNd.A a' = LinearAgentNd.A a ->
  LinearAgentNd.B a' = LinearAgentNd.B a ->
  LinearAgentNd.agent_dim a' = LinearAgentNd.agent_dim a ->
  dynamics (put_agent k a' st) = dynamics st.
Proof.
  intros Hf HA HB Hd. induction st as [|[k' b] st IH]; cbn in *; [reflexivity|].
  destruct (Nat.eqb_spec k k') as [->|Hne]; cbn.
  - injection Hf as ->. now rewrite HA, HB, Hd.
  - f_equal. auto.
Qed.

(** A method that keeps an agent's dynamics keeps the store's. *)
Lemma on_agent_stable k (f : LinearAgentNd.t F -> outcome (LinearAgentNd.t F)) :
  (forall a a', f a = Ok a' ->
                LinearAgentNd.A a' = LinearAgentNd.A a
                /\ LinearAgentNd.B a' = LinearAgentNd.B a
                /\ LinearAgentNd.agent_dim a' = LinearAgentNd.agent_dim a) ->
  stable same_dynamics (on_agent k f).
Proof.
  intros Hf st. unfold on_agent.
  destruct (find_agent k st) as [a|] eqn:Ea; cbn [snd]; [|reflexivity].
  destruct (f a) as [a'|e] eqn:Efa; cbn [snd]; [|reflexivity].
  destruct (Hf _ _ Efa) as (HA & HB & Hd).
  unfold same_dynamics. eapply dynamics_put_agent; eauto.
Qed.

Lemma propagate_keeps_dynamics u (a a' : LinearAgentNd.t F) :
  LinearAgentNd.propagate_input a u = Ok a' ->
  LinearAgentNd.A a' = LinearAgentNd.A a
  /\ LinearAgentNd.B a' = LinearAgentNd.B a
  /\ LinearAgentNd.agent_dim a' = LinearAgentNd.agent_dim a.
Proof. apply agent_facts.propagate_input_frame. Qed.

Lemma set_state_keeps_dynamics v (a a' : LinearAgentNd.t F) :
  LinearAgentNd.set_state a v = Ok a' ->
  LinearAgentNd.A a' = LinearAgentNd.A a
  /\ LinearAgentNd.B a' = LinearAgentNd.B a
  /\ LinearAgentNd.agent_dim a' = LinearAgentNd.agent_dim a.
Proof.
  intros E. destruct (agent_facts.set_state_frame _ _ E) as (?&?&?&?). auto.
Qed.

Lemma on_store_stable {X} (m : M (store F) X) :
  stable same_dynamics m -> stable cluster_frame (LinearClusterNd.on_store m).
Proof.
  intros Hm s. unfold LinearClusterNd.on_store. specialize (Hm (fst s)).
  destruct (m (fst s)) as [r st']. exact Hm.
Qed.

Lemma on_self_stable {X} (m : store F -> M (LinearClusterNd.t F) X) :
  stable cluster_frame (LinearClusterNd.on_self m).
Proof.
  intros s. unfold LinearClusterNd.on_self.
  destruct (m (fst s) (snd s)) as [r c']. reflexivity.
Qed.

(** [LinearClusterNd.propagate_input] keeps the dynamics of every agent. *)
Lemma cluster_propagate_input_stable (u : Vec F) :
  stable cluster_frame (LinearClusterNd.propagate_input u).
Proof.
  unfold LinearClusterNd.propagate_input.
  apply stable_bind; [apply cluster_frame_trans | apply stable_gets, cluster_frame_refl |].
  intros ags.
  apply stable_bind; [apply cluster_frame_trans | |].
  - apply stable_for_each; [apply cluster_frame_refl | apply cluster_frame_trans |].
    intros ref. apply on_store_stable, on_agent_stable.
    intros a a'. apply propagate_keeps_dynamics.
  - intros _. apply stable_bind; [apply cluster_frame_trans | apply on_self_stable |].
    intros _. apply stable_ret, cluster_frame_refl.
Qed.

(** *** The orchestrator *)

Local Abbreviation wstable := (stable (world_frame (F:=F))).

Lemma wbind {A B} (m : M (MultiAgentSystem.world F) A) (k : A -> M _ B) :
  wstable m -> (forall a, wstable (k a)) -> wstable (bind m k).
Proof. apply stable_bind, world_frame_trans. Qed.

Lemma wret {A} (a : A) : wstable (ret a).
Proof. apply stable_ret, world_frame_refl. Qed.

Lemma wraise {A} e : wstable (@raise _ A e).
Proof. apply stable_raise, world_frame_refl. Qed.

Lemma wlift {A} (o : outcome A) : wstable (lift o).
Proof. apply stable_lift, world_frame_refl. Qed.

Lemma wgetf {X} (f : MultiAgentSystem.t F -> X) : wstable (MultiAgentSystem.getf f).
Proof. apply stable_gets, world_frame_refl. Qed.

Lemma wgets {X} (f : MultiAgentSystem.world F -> X) : wstable (gets f).
Proof. apply stable_gets, world_frame_refl. Qed.

Lemma wsetf (f : MultiAgentSystem.t F -> MultiAgentSystem.t F) :
  (forall s, same_frame s (f s)) -> wstable (MultiAgentSystem.setf f).
Proof. intros Hf w. apply Hf. Qed.

Lemma wlog e : wstable (MultiAgentSystem.log e).
Proof. intros w. apply same_frame_refl. Qed.

Lemma wtick : wstable (MultiAgentSystem.tick ext).
Proof. intros w. apply same_frame_refl. Qed.

Lemma wfor_each {X} (l : list X) body :
  (forall i, wstable (body i)) -> wstable (for_each l body).
Proof. apply stable_for_each; [apply world_frame_refl | apply world_frame_trans]. Qed.

Lemma wfor_fold {X Acc} (l : list X) (body : X -> Acc -> M _ Acc) acc :
  (forall i a, wstable (body i a)) -> wstable (for_fold l body acc).
Proof. apply stable_for_fold; [apply world_frame_refl | apply world_frame_trans]. Qed.

Lemma wset_agents (st' : store F) (w : MultiAgentSystem.world F) :
  same_dynamics (MultiAgentSystem.agents (MultiAgentSystem.self w)) st' ->
  world_frame w (MultiAgentSystem.on_sys (MultiAgentSystem.set_agents st') w).
Proof. intros Hd. unfold world_frame, same_frame; cbn. repeat split. exact Hd. Qed.

Lemma wcall_agent k (f : LinearAgentNd.t F -> outcome (LinearAgentNd.t F)) :
  (forall a a', f a = Ok a' ->
                LinearAgentNd.A a' = LinearAgentNd.A a
                /\ LinearAgentNd.B a' = LinearAgentNd.B a
                /\ LinearAgentNd.agent_dim a' = LinearAgentNd.agent_dim a) ->
  wstable (MultiAgentSystem.call_agent k f).
Proof.
  intros Hf w. unfold MultiAgentSystem.call_agent.
  pose proof (on_agent_stable k f Hf (MultiAgentSystem.agents (MultiAgentSystem.self w)))
    as Hs.
  destruct (on_agent k f _) as [r st']. cbn [snd] in *. apply wset_agents, Hs.
Qed.

Lemma wthe_agent k : wstable (MultiAgentSystem.the_agent k).
Proof.
  unfold MultiAgentSystem.the_agent. apply wbind; [apply wgetf|]. intros. apply wlift.
Qed.

(** Assignments to derived fields. *)
Ltac derived_field := intros ?; unfold same_frame, same_dynamics; repeat split.

Ltac wstep :=
  first
    [ apply wret | apply wraise | apply wlift | apply wgetf | apply wgets
    | apply wlog | apply wtick | apply wthe_agent
    | apply wsetf; derived_field
    | lazymatch goal with
      | |- stable _ (bind _ _) => apply wbind; [|intros ?]
      end
    | apply wfor_each; intros ?
    | apply wfor_fold; intros ? ? ].

Lemma re_eval_clusters_stable : wstable (MultiAgentSystem._re_eval_clusters ext).
Proof. unfold MultiAgentSystem._re_eval_clusters. repeat wstep. Qed.

Lemma gather_agent_states_stable : wstable MultiAgentSystem.gather_agent_states.
Proof. unfold MultiAgentSystem.gather_agent_states. repeat wstep. Qed.

Lemma re_eval_system_stable : wstable (MultiAgentSystem._re_eval_system ext).
Proof.
  unfold MultiAgentSystem._re_eval_system.
  apply wbind; [apply wlog|]. intros _.
  apply wbind; [apply gather_agent_states_stable|]. intros _.
  apply re_eval_clusters_stable.
Qed.

Lemma solve_stable A B n_t Q R P x0 xs umax umin :
  wstable (MultiAgentSystem.solve ext A B n_t Q R P x0 xs umax umin).
Proof. unfold MultiAgentSystem.solve. repeat wstep. Qed.

Lemma set_state_stable adx v : wstable (MultiAgentSystem.set_state adx v).
Proof.
  unfold MultiAgentSystem.set_state. apply wbind; [apply wlog|]. intros _.
  apply wcall_agent. intros a a'. apply set_state_keeps_dynamics.
Qed.

Lemma call_propagate_input_stable dict o (u : Vec F) :
  wstable (MultiAgentSystem.call_propagate_input dict o u).
Proof.
  unfold MultiAgentSystem.call_propagate_input. destruct o as [n|k]; [apply wraise|].
  destruct (MultiAgentSystem.find_cluster k dict) as [c|]; [|apply wraise].
  intros w.
  pose proof (cluster_propagate_input_stable u
                (MultiAgentSystem.agents (MultiAgentSystem.self w), c)) as Hs.
  destruct (LinearClusterNd.propagate_input u _) as [r [st' c']].
  cbn [snd fst] in *. apply wset_agents, Hs.
Qed.

Lemma update_system_simplified_stable step_size :
  wstable (MultiAgentSystem.update_system_simplified ext step_size).
Proof.
  unfold MultiAgentSystem.update_system_simplified.
  apply wbind; [apply wgetf|]. intros dict.
  apply wbind; [|intros; apply wret].
  apply wfor_fold. intros cluster d.
  apply wbind; [apply wlift|]. intros centroid.
  apply wbind; [apply wgetf|]. intros goal.
  apply wbind; [apply wlift|]. intros diff.
  apply wbind; [apply call_propagate_input_stable|]. intros d'.
  apply wbind; [apply re_eval_system_stable|]. intros _. apply wret.
Qed.

Lemma update_system_mpc_distributed_stable Q R P n_t umax umin :
  wstable (MultiAgentSystem.update_system_mpc_distributed ext Q R P n_t umax umin).
Proof.
  unfold MultiAgentSystem.update_system_mpc_distributed.
  apply wbind; [apply wtick|]. intros time_0.
  apply wbind; [apply wgetf|]. intros ags.
  apply wbind.
  - apply wfor_fold. intros k cost.
    apply wbind; [apply wthe_agent|]. intros agent.
    apply wbind; [apply wgetf|]. intros goal.
    apply wbind; [apply solve_stable|]. intros r.
    apply wbind; [apply wlift|]. intros xN.
    apply wbind; [apply set_state_stable|]. intros _.
    apply wbind; [apply re_eval_system_stable|]. intros _. apply wret.
  - intros cost. repeat wstep.
Qed.

Lemma update_system_mpc_stable Q R P n_t umax umin :
  wstable (MultiAgentSystem.update_system_mpc ext Q R P n_t umax umin).
Proof.
  unfold MultiAgentSystem.update_system_mpc.
  apply wbind; [apply wtick|]. intros time_0.
  apply wbind; [apply wgets|]. intros s.
  apply wbind; [apply wlift|]. intros AB.
  apply wbind; [apply solve_stable|]. intros r.
  apply wbind; [apply wtick|]. intros time_1.
  apply wbind; [apply wgetf|]. intros t.
  apply wbind; [apply wsetf; derived_field|]. intros _.
  apply wbind; [apply wgetf|]. intros ags.
  apply wbind; [apply wgetf|]. intros d.
  apply wbind.
  - apply wfor_each. intros adx.
    apply wbind; [apply wlift|]. intros xN. apply set_state_stable.
  - intros _. apply wbind; [apply re_eval_system_stable|]. intros _. repeat wstep.
Qed.

(** C9: each mutating operation, whether it returns or raises, leaves
    every agent's [A], [B] and [agent_dim] as they were, together with the
    configuration of the system; the agents' states and the derived
    fields are all that can differ afterwards. *)
Theorem mutating_operations_keep_dynamics :
  (forall (a : LinearAgentNd.t F) u,
      match LinearAgentNd.propagate_input a u with
      | Ok a' =>
          LinearAgentNd.A a' = LinearAgentNd.A a /\ LinearAgentNd.B a' = LinearAgentNd.B a
          /\ LinearAgentNd.agent_dim a' = LinearAgentNd.agent_dim a
      | Raise _ => True
      end)
  /\ (forall (a : LinearAgentNd.t F) v,
         match LinearAgentNd.set_state a v with
         | Ok a' =>
             LinearAgentNd.A a' = LinearAgentNd.A a /\ LinearAgentNd.B a' = LinearAgentNd.B a
             /\ LinearAgentNd.agent_dim a' = LinearAgentNd.agent_dim a
         | Raise _ => True
         end)
  /\ (forall (u : Vec F) st c,
         same_dynamics st (fst (snd (LinearClusterNd.propagate_input u (st, c)))))
  /\ (forall step_size w,
         world_frame w (snd (MultiAgentSystem.update_system_simplified ext step_size w)))
  /\ (forall Q R P n_t umax umin w,
         world_frame w
           (snd (MultiAgentSystem.update_system_mpc_distributed ext Q R P n_t umax umin w)))
  /\ (forall Q R P n_t umax umin w,
         world_frame w (snd (MultiAgentSystem.update_system_mpc ext Q R P n_t umax umin w))).
Proof.
  split.
  { intros a u. destruct (LinearAgentNd.propagate_input a u) as [a'|e] eqn:E; [|exact I].
    eapply propagate_keeps_dynamics; exact E. }
  split.
  { intros a v. destruct (LinearAgentNd.set_state a v) as [a'|e] eqn:E; [|exact I].
    eapply set_state_keeps_dynamics; exact E. }
  split; [intros u st c; apply (cluster_propagate_input_stable u (st, c))|].
  split; [intros step_size w; apply update_system_simplified_stable|].
  split; [intros Q R P n_t umax umin w; apply update_system_mpc_distributed_stable|].
  intros Q R P n_t umax umin w; apply update_system_mpc_stable.
Qed.

End Facts.
End frame_facts.

(** ** Block-diagonal matrices *)

Section Blocks.
Context {F : Type} `{Scalar F}.
Import system_spec.

Lemma within_block h k r :
  0 < h -> within (k * h) h r = (r / h =? k).
Proof.
  intros Hh. unfold within.
  destruct (Nat.eqb_spec (r / h) k) as [E|E].
  - subst k. apply andb_true_iff. split.
    + apply Nat.leb_le. rewrite Nat.mul_comm. apply Nat.Div0.mul_div_le.
    + apply Nat.ltb_lt.
      pose proof (Nat.mul_succ_div_gt r h ltac:(lia)). nia.
  - apply andb_false_iff.
    destruct (Nat.leb_spec (k * h) r) as [H1|H1]; [right|left; reflexivity].
    apply Nat.ltb_ge. destruct (Nat.lt_ge_cases r (k * h + h)) as [H2|H2]; [|exact H2].
    exfalso. apply E. symmetry. apply (Nat.div_unique r h k (r - k * h)); lia.
Qed.

Lemma sub_block h r : 0 < h -> r - r / h * h = r mod h.
Proof.
  intros Hh. pose proof (Nat.div_mod_eq r h). nia.
Qed.

Lemma entry_zeros R C r c : entry (zeros (F:=F) R C) r c = f0.
Proof.
  unfold entry, zeros. cbn [rows].
  destruct (Nat.lt_ge_cases r R) as [Hr|Hr].
  - rewrite nth_repeat_lt by exact Hr.
    destruct (Nat.lt_ge_cases c C) as [Hc|Hc].
    + now rewrite nth_repeat_lt.
    + apply nth_overflow. now rewrite repeat_length.
  - rewrite (nth_overflow (repeat (repeat f0 C) R) []) by (now rewrite repeat_length).
    now destruct c.
Qed.

Lemma zeros_wf R C : wf_mat (zeros (F:=F) R C).
Proof.
  unfold wf_mat, zeros. cbn. apply Forall_forall. intros x Hx.
  apply repeat_spec in Hx. subst x. apply repeat_length.
Qed.

Lemma blocks_placed_zeros n h wd (blk : nat -> Mat F) R C :
  R = n * h -> C = n * wd -> blocks_placed n h wd blk [] (zeros R C).
Proof.
  intros -> ->. unfold blocks_placed. repeat split.
  - unfold nrows, zeros. cbn. apply repeat_length.
  - apply zeros_wf.
  - intros r c _ _. rewrite entry_zeros. cbn. now rewrite andb_false_r.
Qed.

Lemma blocks_placed_step n h wd (blk : nat -> Mat F) done M k :
  k < n -> has_shape (blk k) h wd ->
  blocks_placed n h wd blk done M ->
  blocks_placed n h wd blk (k :: done) (placed M (k * h) (k * wd) (blk k)).
Proof.
  intros Hk (Hbr & Hbc & Hbwf) (Hnr & Hnc & Hwf & Hent).
  assert (Hr : k * h + nrows (blk k) <= nrows M) by (rewrite Hbr, Hnr; nia).
  assert (Hc : k * wd + ncols (blk k) <= ncols M) by (rewrite Hbc, Hnc; nia).
  unfold blocks_placed. split; [|split; [|split]].
  - rewrite placed_nrows by assumption. exact Hnr.
  - exact Hnc.
  - now apply placed_wf.
  - intros r c Hrn Hcn. rewrite placed_entry by assumption.
    assert (Hh : 0 < h) by (destruct h; [lia | lia]).
    assert (Hw : 0 < wd) by (destruct wd; [lia | lia]).
    rewrite Hbr, Hbc, !within_block by assumption.
    rewrite Hent by assumption.
    destruct (Nat.eqb_spec (r / h) k) as [Erk|Erk]; cbn [andb].
    + destruct (Nat.eqb_spec (c / wd) k) as [Eck|Eck].
      * rewrite Erk, Eck, Nat.eqb_refl. cbn [andb].
        destruct (in_dec Nat.eq_dec k (k :: done)) as [_|Hn];
          [|exfalso; apply Hn; now left].
        rewrite <- Erk at 2. rewrite <- Eck at 2.
        now rewrite !sub_block by assumption.
      * destruct (Nat.eqb_spec (r / h) (c / wd)) as [E|E]; [congruence|].
        reflexivity.
    + destruct (Nat.eqb_spec (r / h) (c / wd)) as [E|E]; cbn [andb]; [|reflexivity].
      destruct (in_dec Nat.eq_dec (r / h) done) as [Hin|Hnin];
        destruct (in_dec Nat.eq_dec (r / h) (k :: done)) as [Hin'|Hnin'];
        try reflexivity.
      * exfalso. apply Hnin'. now right.
      * destruct Hin' as [Ek|Hin']; [congruence | contradiction].
Qed.

(** Once every index is placed the matrix is the block-diagonal one. *)
Lemma blocks_placed_all n h wd (blk : nat -> Mat F) done M :
  (forall k, k < n -> In k done) ->
  blocks_placed n h wd blk done M ->
  M = block_diag n h wd blk.
Proof.
  intros Hall (Hnr & Hnc & Hwf & Hent).
  destruct M as [mc mr]. unfold block_diag. cbn [ncols] in Hnc. subst mc. f_equal.
  apply (nth_ext _ _ [] []).
  - rewrite length_map, length_seq. exact Hnr.
  - intros r Hr. change (length mr) with (nrows (mkMat (n * wd) mr)) in Hr.
    rewrite Hnr in Hr.
    rewrite (nth_map_in _ _ 0) by (rewrite length_seq; lia).
    rewrite seq_nth by lia. cbn [Nat.add].
    assert (Hlen : length (nth r mr []) = n * wd).
    { apply (wf_mat_nth (M:=mkMat (n * wd) mr)); [assumption|]. now rewrite Hnr. }
    apply (nth_ext _ _ f0 f0).
    + rewrite length_map, length_seq. exact Hlen.
    + intros c Hc. unfold Vec in *. rewrite Hlen in Hc.
      rewrite (nth_map_in _ _ 0) by (rewrite length_seq; lia).
      rewrite seq_nth by lia. cbn [Nat.add].
      change (nth c (nth r mr []) f0) with (entry (mkMat (n * wd) mr) r c).
      rewrite (Hent r c Hr Hc).
      assert (Hh : 0 < h) by (destruct h; lia).
      assert (Hkn : r / h < n) by (apply Nat.Div0.div_lt_upper_bound; lia).
      destruct (in_dec Nat.eq_dec (r / h) done) as [_|Hn];
        [|exfalso; apply Hn, Hall, Hkn].
      now rewrite andb_true_r.
Qed.

Lemma block_diag_entry n h wd (blk : nat -> Mat F) r c :
  r < n * h -> c < n * wd ->
  entry (block_diag n h wd blk) r c
  = if r / h =? c / wd then entry (blk (r / h)) (r mod h) (c mod wd) else f0.
Proof.
  intros Hr Hc. unfold entry at 1. unfold block_diag. cbn [rows].
  rewrite (nth_map_in _ _ 0) by (rewrite length_seq; lia).
  rewrite seq_nth by lia. cbn [Nat.add].
  rewrite (nth_map_in _ _ 0) by (rewrite length_seq; lia).
  rewrite seq_nth by lia. reflexivity.
Qed.

(** Block [k] of the diagonal is [blk k]. *)
Lemma block_diag_diagonal n h wd (blk : nat -> Mat F) k i j :
  k < n -> i < h -> j < wd ->
  entry (block_diag n h wd blk) (k * h + i) (k * wd + j) = entry (blk k) i j.
Proof.
  intros Hk Hi Hj. rewrite block_diag_entry by nia.
  rewrite !Nat.div_add_l by lia. rewrite !Nat.div_small by lia.
  rewrite !Nat.add_0_r, Nat.eqb_refl.
  rewrite (Nat.add_comm (k * h)), (Nat.add_comm (k * wd)).
  rewrite !Nat.Div0.mod_add. now rewrite !Nat.mod_small by lia.
Qed.

Lemma kron_ones (g : Vec F) n :
  (forall a, fmul f1 a = a) -> kron (ones n) g = concat (repeat g n).
Proof.
  intros Hone. unfold kron, ones. induction n as [|n IH]; cbn; [reflexivity|].
  rewrite IH. f_equal. rewrite <- (map_id g) at 2. apply map_ext. exact Hone.
Qed.

End Blocks.

(** ** The orchestrator *)

Section MonadLaws.
Context {S : Type}.

Lemma bind_bind {A B C} (m : M S A) (k : A -> M S B) (k' : B -> M S C) s :
  bind (bind m k) k' s = bind m (fun a => bind (k a) k') s.
Proof. unfold bind. destruct (m s) as [[a|e] s']; reflexivity. Qed.

Lemma bind_ok {A B} (m : M S A) (k : A -> M S B) s a s' :
  m s = (Ok a, s') -> bind m k s = k a s'.
Proof. intros E. unfold bind. now rewrite E. Qed.

Lemma bind_fail {A B} (m : M S A) (k : A -> M S B) s e s' :
  m s = (Raise e, s') -> bind m k s = (Raise e, s').
Proof. intros E. unfold bind. now rewrite E. Qed.

Lemma bind_ret {A B} (a : A) (k : A -> M S B) s : bind (ret a) k s = k a s.
Proof. reflexivity. Qed.

Lemma bind_raise {A B} e (k : A -> M S B) s : bind (raise e) k s = (Raise e, s).
Proof. reflexivity. Qed.

Lemma bind_lift_ok {A B} (a : A) (k : A -> M S B) s : bind (lift (Ok a)) k s = k a s.
Proof. reflexivity. Qed.

Lemma bind_lift_raise {A B} e (k : A -> M S B) s :
  bind (lift (Raise e)) k s = (Raise e, s).
Proof. reflexivity. Qed.

Lemma bind_gets {A B} (f : S -> A) (k : A -> M S B) s : bind (gets f) k s = k (f s) s.
Proof. reflexivity. Qed.

Lemma bind_modify {B} (f : S -> S) (k : unit -> M S B) s :
  bind (modify f) k s = k tt (f s).
Proof. reflexivity. Qed.

End MonadLaws.

Section WorldLaws.
Context {F : Type} `{Scalar F}.
Import MultiAgentSystem.

Lemma bind_getf {A B} (f : t F -> A) (k : A -> M (world F) B) w :
  bind (getf f) k w = k (f (self w)) w.
Proof. reflexivity. Qed.

Lemma bind_setf {B} (f : t F -> t F) (k : unit -> M (world F) B) w :
  bind (setf f) k w = k tt (on_sys f w).
Proof. reflexivity. Qed.

Lemma bind_log {B} e (k : unit -> M (world F) B) w :
  bind (log e) k w = k tt (mkWorld (self w) (trace w ++ [e]) (ticks w)).
Proof. reflexivity. Qed.

Lemma bind_tick {B} ext (k : F -> M (world F) B) w :
  bind (tick ext) k w
  = k (time_time ext (ticks w)) (mkWorld (self w) (trace w) (Datatypes.S (ticks w))).
Proof. reflexivity. Qed.

End WorldLaws.

(** Runs the straight-line prefix of a stateful computation. *)
Ltac msimp :=
  repeat first
    [ rewrite bind_bind | rewrite bind_ret | rewrite bind_raise
    | rewrite bind_lift_ok | rewrite bind_lift_raise
    | rewrite bind_gets | rewrite bind_modify
    | rewrite bind_getf | rewrite bind_setf | rewrite bind_log | rewrite bind_tick ];
  cbn [MultiAgentSystem.on_sys MultiAgentSystem.self MultiAgentSystem.trace
       MultiAgentSystem.ticks fst snd].

(** Unfolds one layer of the state-and-exception plumbing. *)
Ltac mstep :=
  cbn [bind ret raise lift gets modify
       MultiAgentSystem.getf MultiAgentSystem.setf MultiAgentSystem.log
       MultiAgentSystem.on_sys MultiAgentSystem.self MultiAgentSystem.trace
       MultiAgentSystem.ticks fst snd].

Module system_facts.
Import MultiAgentSystem.
Section Facts.
Context {F : Type} `{Scalar F}.
Variable ext : externals F.

Lemma identify_clusters_unsupported algo params (fss : Mat F) :
  algo <> "hierarchy" -> algo <> "hdbscan" ->
  identify_clusters ext algo params fss = Raise not_implemented.
Proof.
  intros H1 H2. unfold identify_clusters.
  apply String.eqb_neq in H1. apply String.eqb_neq in H2.
  now rewrite H1, H2.
Qed.

Lemma re_eval_clusters_unsupported (w : world F) :
  clust_algo (self w) <> "hierarchy" -> clust_algo (self w) <> "hdbscan" ->
  _re_eval_clusters ext w = (Raise not_implemented, w).
Proof.
  intros H1 H2. unfold _re_eval_clusters. mstep.
  rewrite identify_clusters_unsupported by assumption. reflexivity.
Qed.

(** Iterating the dictionary of clusters binds the loop variable to a
    key, and the first attribute access on it raises. *)
Lemma update_system_simplified_raises step_size (w : world F) :
  clusters (self w) <> [] ->
  update_system_simplified ext step_size w
  = (Raise (AttributeError "'int' object has no attribute 'centroid'"), w).
Proof.
  intros Hne. unfold update_system_simplified. mstep.
  destruct (clusters (self w)) as [|[k c] cs]; [contradiction|].
  reflexivity.
Qed.

(** *** The agent dictionary *)

Lemma find_agent_in k (st : store F) a : find_agent k st = Some a -> In k (map fst st).
Proof.
  induction st as [|[k' b] st IH]; cbn; [discriminate|].
  destruct (Nat.eqb_spec k k'); [intros _; left; congruence|]. intros E; right; auto.
Qed.

Lemma in_find_agent k (st : store F) :
  In k (map fst st) -> exists a, find_agent k st = Some a.
Proof.
  induction st as [|[k' b] st IH]; cbn; [intros []|].
  destruct (Nat.eqb_spec k k'); [eauto|]. intros [E|Hin]; [congruence|auto].
Qed.

(** *** Lines 111-113 *)

Import system_spec.

Lemma fold_upd_length (f : nat -> Vec F) l rs :
  (forall k, In k l -> k < length rs) ->
  length (fold_left (fun rs k => upd k (f k) rs) l rs) = length rs.
Proof.
  revert rs. induction l as [|k l IH]; intros rs Hl; cbn [fold_left]; [reflexivity|].
  rewrite IH.
  - apply length_upd. apply Hl. now left.
  - intros k' Hk'. rewrite length_upd by (apply Hl; now left). apply Hl. now right.
Qed.

Lemma fold_upd_nth (f : nat -> Vec F) l rs i d :
  (forall k, In k l -> k < length rs) ->
  nth i (fold_left (fun rs k => upd k (f k) rs) l rs) d
  = if in_dec Nat.eq_dec i l then f i else nth i rs d.
Proof.
  revert rs. induction l as [|k l IH]; intros rs Hl; cbn [fold_left]; [reflexivity|].
  rewrite IH by (intros k' Hk'; rewrite length_upd by (apply Hl; now left);
                 apply Hl; now right).
  rewrite nth_upd by (apply Hl; now left).
  destruct (in_dec Nat.eq_dec i l) as [Hin|Hnin];
    destruct (in_dec Nat.eq_dec i (k :: l)) as [Hin'|Hnin']; try reflexivity.
  - exfalso. apply Hnin'. now right.
  - destruct Hin' as [->|Hin']; [now rewrite Nat.eqb_refl | contradiction].
  - destruct (Nat.eqb_spec i k) as [->|]; [|reflexivity].
    exfalso. apply Hnin'. now left.
Qed.

Lemma gather_loop (st : store F) (l : list nat) (w : world F) :
  agents (self w) = st ->
  (forall k, In k l ->
             k < nrows (full_system_state (self w))
             /\ exists a, find_agent k st = Some a
                          /\ length (LinearAgentNd.state a)
                             = ncols (full_system_state (self w))) ->
  for_each l
    (fun idx =>
       agent <~ the_agent idx ;;
       fss <~ getf full_system_state ;;
       fss' <~ lift (set_row fss idx (LinearAgentNd.state agent)) ;;
       setf (set_full_system_state fss')) w
  = (Ok tt,
     on_sys (set_full_system_state (scatter st l (full_system_state (self w)))) w).
Proof.
  revert w. induction l as [|k l IH]; intros w Hst Hl.
  - cbn [for_each]. unfold ret, scatter. cbn [fold_left].
    destruct w as [s tr tk]. destruct s. cbn.
    destruct full_system_state0. reflexivity.
  - destruct (Hl k (or_introl eq_refl)) as (Hk & a & Ha & Hlen).
    cbn [for_each]. unfold the_agent. msimp. rewrite Hst, Ha. msimp.
    rewrite set_row_ok by assumption. msimp.
    rewrite IH.
    + assert (Hs : state_of st k = LinearAgentNd.state a)
        by (unfold state_of; now rewrite Ha).
      f_equal. unfold scatter. cbn [fold_left]. rewrite Hs.
      destruct w as [s tr tk]. destruct s. reflexivity.
    + exact Hst.
    + intros k' Hk'. destruct (Hl k' (or_intror Hk')) as (Hk1 & a' & Ha' & Hlen').
      cbn. unfold nrows in *. cbn. rewrite length_upd by assumption. eauto.
Qed.

Lemma goal_distance_ok (M : Mat F) (goal : Vec F) :
  ncols M = length goal -> exists d, goal_distance M goal = Ok d.
Proof.
  intros E. unfold goal_distance, msub_row. rewrite E, bcast_len_same.
  cbn [obind]. eauto.
Qed.

(** On a well-formed system the state matrix is rebuilt from the agents'
    states and the average goal distance from that matrix. *)
Lemma gather_agent_states_ok (w : world F) :
  wf_system (self w) ->
  gather_agent_states w = (Ok tt, gathered w)
  /\ consistent (self (gathered w))
  /\ core (self (gathered w))
     = (n_agents (self w), agent_dim (self w), control_dim (self w),
        full_system_state (self (gathered w)), system_goal (self w),
        agents (self w), clust_algo (self w), clust_algo_params (self w),
        avg_goal_dist (self (gathered w)), control_solution_time (self w))
  /\ clustering (self (gathered w)) = clustering (self w)
  /\ trace (gathered w) = trace w /\ ticks (gathered w) = ticks w.
Proof.
  intros (Hnd & Hkeys & Hags & Hnr & Hnc & Hgoal & Hpos).
  assert (Hl : forall k, In k (map fst (agents (self w))) ->
                 k < nrows (full_system_state (self w))
                 /\ exists a, find_agent k (agents (self w)) = Some a
                              /\ length (LinearAgentNd.state a)
                                 = ncols (full_system_state (self w))).
  { intros k Hk. split; [rewrite Hnr; now apply Hkeys|].
    destruct (in_find_agent _ _ Hk) as (a & Ha). exists a. split; [exact Ha|].
    destruct (Hags _ _ Ha) as (_ & _ & Hs). congruence. }
  assert (Hrows : rows (scatter (agents (self w)) (map fst (agents (self w)))
                          (full_system_state (self w)))
                  = map (state_of (agents (self w))) (seq 0 (n_agents (self w)))).
  { unfold scatter. cbn [rows].
    apply (nth_ext _ _ [] []).
    - rewrite fold_upd_length by (intros k Hk; apply (Hl k Hk)).
      rewrite length_map, length_seq. exact Hnr.
    - intros i Hi.
      rewrite fold_upd_length in Hi by (intros k Hk; apply (Hl k Hk)).
      rewrite fold_upd_nth by (intros k Hk; apply (Hl k Hk)).
      fold (nrows (full_system_state (self w))) in Hi. rewrite Hnr in Hi.
      destruct (in_dec Nat.eq_dec i (map fst (agents (self w)))) as [Hin|Hnin].
      + rewrite (nth_map_in _ _ 0) by (rewrite length_seq; lia).
        rewrite seq_nth by lia. reflexivity.
      + exfalso. apply Hnin. now apply Hkeys. }
  destruct (goal_distance_ok
              (scatter (agents (self w)) (map fst (agents (self w)))
                 (full_system_state (self w))) (system_goal (self w))) as (d & Hd).
  { unfold scatter; cbn [ncols]. congruence. }
  split; [|split; [|repeat split]].
  - unfold gather_agent_states. msimp.
    erewrite bind_ok by (apply (gather_loop (st:=agents (self w))); auto).
    msimp. cbn [full_system_state set_full_system_state system_goal].
    unfold gathered. rewrite Hd. msimp. reflexivity.
  - unfold consistent, gathered. rewrite Hd. cbn.
    split; [exact Hrows | exact Hd].
Qed.

(** *** Clusters *)

Lemma cluster_init_ok (st : store F) refs D :
  (forall r, In r refs -> exists a, find_agent r st = Some a
                                    /\ length (LinearAgentNd.state a) = D) ->
  exists c, LinearClusterNd.init st refs (length refs) D = Ok c.
Proof.
  intros Hrefs. unfold LinearClusterNd.init. rewrite Nat.eqb_refl.
  set (c0 := LinearClusterNd.mk refs (length refs) (zeros (length refs) D) []).
  pose (P := fun c : LinearClusterNd.t F =>
               LinearClusterNd.agents c = refs
               /\ nrows (LinearClusterNd.full_cluster_state c) = length refs
               /\ ncols (LinearClusterNd.full_cluster_state c) = D).
  assert (HP0 : P c0).
  { unfold P, c0, zeros, nrows; cbn. rewrite repeat_length. auto. }
  unfold LinearClusterNd.update_centroid. msimp. cbn [LinearClusterNd.n_agents c0].
  match goal with
  | |- context [for_each ?l ?body] =>
      assert (Hbody : forall idx c, In idx l -> P c ->
                        exists c', body idx c = (Ok tt, c') /\ P c')
  end.
  { intros idx c Hidx (Hags & Hnr & Hnc). apply in_py_range in Hidx.
    msimp. rewrite Hags.
    destruct (nth_error refs idx) as [r|] eqn:Er;
      [|apply nth_error_None in Er; lia].
    msimp. destruct (Hrefs r (nth_error_In _ _ Er)) as (a & Ha & Hlen).
    rewrite Ha. msimp. rewrite set_row_ok by (unfold Vec in *; lia). msimp.
    eexists. split; [reflexivity|]. unfold P; cbn.
    repeat split; auto. unfold nrows in *; cbn.
    rewrite length_upd by lia. assumption. }
  destruct (for_each_inv P _ _ Hbody c0 HP0) as (c1 & E1 & H1).
  erewrite bind_ok by exact E1. msimp. unfold gets. eauto.
Qed.

Lemma agent_refs_ok (st : store F) idxs :
  (forall i, In i idxs -> exists a, find_agent i st = Some a) ->
  agent_refs st idxs = Ok idxs.
Proof.
  induction idxs as [|i idxs IH]; intros Hi; cbn [agent_refs]; [reflexivity|].
  destruct (Hi i (or_introl eq_refl)) as (a & Ha). rewrite Ha.
  rewrite IH by (intros j Hj; apply Hi; now right). reflexivity.
Qed.

Lemma in_where_eq labels cdx i : In i (where_eq labels cdx) -> i < length labels.
Proof.
  unfold where_eq. intros Hin. apply filter_In in Hin. destruct Hin as (Hin & _).
  apply in_seq in Hin. lia.
Qed.

(** On a well-formed system whose clustering returns one label per
    agent, [_re_eval_clusters] returns and touches the clustering only. *)
Lemma re_eval_clusters_ok (w : world F) :
  wf_system (self w) -> labelling_ok ext (self w) ->
  exists w', _re_eval_clusters ext w = (Ok tt, w')
             /\ core (self w') = core (self w)
             /\ trace w' = trace w /\ ticks w' = ticks w.
Proof.
  intros (Hnd & Hkeys & Hags & Hnr & Hnc & Hgoal & Hpos) Hlab.
  destruct (Hlab (full_system_state (self w)) Hnr) as (ls & Els & Hlen).
  unfold _re_eval_clusters. msimp. rewrite Els. msimp.
  cbn [clust_labels set_clust_labels].
  destruct ls as [|l0 ls]; [cbn in Hlen; lia|].
  cbn [py_max]. msimp. cbn [n_clusters set_n_clusters set_clusters set_cluster_centroids].
  pose (P := fun w1 : world F =>
               core (self w1) = core (self w)
               /\ clust_labels (self w1) = l0 :: ls
               /\ trace w1 = trace w /\ ticks w1 = ticks w).
  match goal with
  | |- exists w', for_each ?l ?body ?w0 = _ /\ _ =>
      assert (Hbody : forall cdx w1, In cdx l -> P w1 ->
                        exists w', body cdx w1 = (Ok tt, w') /\ P w');
      [|assert (HP0 : P w0);
        [|destruct (for_each_inv P _ _ Hbody w0 HP0) as (w1 & E1 & H1)]]
  end.
  - intros cdx w1 _ (Hcore & Hlabels & Htr & Htk). msimp. rewrite Hlabels.
    assert (Hagents : agents (self w1) = agents (self w)) by
      (unfold core in Hcore; congruence).
    assert (Hdim : agent_dim (self w1) = agent_dim (self w)) by
      (unfold core in Hcore; congruence).
    assert (Hfound : forall i, In i (where_eq (l0 :: ls) (Z.of_nat cdx)) ->
                       exists a, find_agent i (agents (self w1)) = Some a
                                 /\ length (LinearAgentNd.state a) = agent_dim (self w1)).
    { intros i Hi. apply in_where_eq in Hi. rewrite Hlen in Hi.
      apply Hkeys in Hi. destruct (in_find_agent _ _ Hi) as (a & Ha).
      exists a. rewrite Hagents, Hdim. split; [exact Ha|].
      now destruct (Hags _ _ Ha) as (_ & _ & Hs). }
    rewrite agent_refs_ok by (intros i Hi; destruct (Hfound i Hi) as (a & Ha & _); eauto).
    msimp.
    destruct (cluster_init_ok (agents (self w1))
                (where_eq (l0 :: ls) (Z.of_nat cdx)) Hfound) as (c & Ec).
    rewrite Ec. msimp. eexists. split; [reflexivity|].
    unfold P. destruct w1 as [s1 tr1 tk1]. destruct s1. cbn in *. auto.
  - unfold P. destruct w as [s0 tr0 tk0]. destruct s0. cbn. auto.
  - exists w1. destruct H1 as (Hcore & _ & Htr & Htk). auto.
Qed.

(** *** [_re_eval_system] *)

Lemma wf_system_transfer (s s' : t F) :
  agents s' = agents s -> n_agents s' = n_agents s -> agent_dim s' = agent_dim s ->
  control_dim s' = control_dim s ->
  nrows (full_system_state s') = n_agents s ->
  ncols (full_system_state s') = agent_dim s ->
  system_goal s' = system_goal s ->
  wf_system s -> wf_system s'.
Proof.
  intros Ea En Ed Ec Hr Hc Eg (Hnd & Hkeys & Hags & Hnr & Hnc & Hgoal & Hpos).
  unfold wf_system. rewrite Ea, En, Ed, Ec, Eg.
  split; [exact Hnd|]. split; [exact Hkeys|]. split; [exact Hags|]. auto.
Qed.

Lemma labelling_ok_transfer (s s' : t F) :
  n_agents s' = n_agents s -> clust_algo s' = clust_algo s ->
  clust_algo_params s' = clust_algo_params s ->
  labelling_ok ext s -> labelling_ok ext s'.
Proof. intros En Ea Ep Hl. unfold labelling_ok. now rewrite En, Ea, Ep. Qed.

(** On a well-formed system whose clustering answers, [_re_eval_system]
    returns, and the derived fields then agree with the agents. *)
Lemma re_eval_system_ok (w : world F) :
  wf_system (self w) -> labelling_ok ext (self w) ->
  exists w', _re_eval_system ext w = (Ok tt, w')
             /\ re_evaluated w w'
             /\ wf_system (self w') /\ labelling_ok ext (self w').
Proof.
  intros Hwf Hlab. unfold _re_eval_system. msimp.
  set (wl := mkWorld (self w) (trace w ++ [EvReEval]) (ticks w)).
  destruct (gather_agent_states_ok wl Hwf) as (Eg & (Hrows & Hdist) & Hcore & _ & Htr & Htk).
  erewrite bind_ok by exact Eg.
  clear Hcore.
  assert (En : n_agents (self (gathered wl)) = n_agents (self w)) by reflexivity.
  assert (Ed : agent_dim (self (gathered wl)) = agent_dim (self w)) by reflexivity.
  assert (Ec : control_dim (self (gathered wl)) = control_dim (self w)) by reflexivity.
  assert (Eg' : system_goal (self (gathered wl)) = system_goal (self w)) by reflexivity.
  assert (Ea : agents (self (gathered wl)) = agents (self w)) by reflexivity.
  assert (Eal : clust_algo (self (gathered wl)) = clust_algo (self w)) by reflexivity.
  assert (Ep : clust_algo_params (self (gathered wl)) = clust_algo_params (self w))
    by reflexivity.
  assert (Et : control_solution_time (self (gathered wl))
               = control_solution_time (self w)) by reflexivity.
  assert (Htr0 : trace wl = trace w ++ [EvReEval]) by reflexivity.
  assert (Htk0 : ticks wl = ticks w) by reflexivity.
  assert (Hwf1 : wf_system (self (gathered wl))).
  { apply (wf_system_transfer (s:=self w)); auto.
    - unfold nrows. rewrite Hrows, length_map, length_seq. exact En.
    - unfold gathered, scatter; cbn. apply Hwf. }
  assert (Hlab1 : labelling_ok ext (self (gathered wl)))
    by (apply (labelling_ok_transfer (s:=self w)); auto).
  destruct (re_eval_clusters_ok (gathered wl) Hwf1 Hlab1) as (w' & Ec' & Hcore' & Htr' & Htk').
  exists w'. split; [exact Ec'|].
  unfold core in Hcore'.
  injection Hcore' as En' Ed' Ecd' Ef' Eg2' Ea' Eal' Ep' Eavg' Et'.
  split; [|split].
  - unfold re_evaluated, consistent.
    repeat split; try congruence.
    + rewrite Ef', Ea', En'. exact Hrows.
    + rewrite Ef', Eg2', Eavg'. exact Hdist.
  - apply (wf_system_transfer (s:=self (gathered wl))); auto.
    + rewrite Ef'. apply Hwf1.
    + rewrite Ef'. apply Hwf1.
  - apply (labelling_ok_transfer (s:=self (gathered wl))); auto.
Qed.

(** *** An algorithm the code does not know *)

Lemma same_clustering_refl (w : world F) : same_clustering w w.
Proof. split; reflexivity. Qed.

Lemma same_clustering_trans (a b c : world F) :
  same_clustering a b -> same_clustering b c -> same_clustering a c.
Proof. unfold same_clustering. intros (?&?) (?&?). split; congruence. Qed.

Lemma gather_keeps_clustering : stable same_clustering (gather_agent_states (F:=F)).
Proof.
  unfold gather_agent_states.
  repeat first
    [ apply stable_ret, same_clustering_refl
    | apply stable_lift, same_clustering_refl
    | apply stable_gets, same_clustering_refl
    | lazymatch goal with
      | |- stable _ (bind _ _) =>
          apply stable_bind; [apply same_clustering_trans | | intros ?]
      | |- stable _ (for_each _ _) =>
          apply stable_for_each;
          [apply same_clustering_refl | apply same_clustering_trans | intros ?]
      | |- stable _ (getf _) => apply stable_gets, same_clustering_refl
      | |- stable _ (setf _) => intros ?; split; reflexivity
      | |- stable _ (the_agent _) => unfold the_agent
      end ].
Qed.

Lemma re_eval_system_unsupported (w : world F) :
  clust_algo (self w) <> "hierarchy" -> clust_algo (self w) <> "hdbscan" ->
  exists e w',
    _re_eval_system ext w = (Raise e, w')
    /\ clustering (self w') = clustering (self w)
    /\ (wf_system (self w) -> e = not_implemented).
Proof.
  intros H1 H2. unfold _re_eval_system. msimp.
  set (wl := mkWorld (self w) (trace w ++ [EvReEval]) (ticks w)).
  pose proof (gather_keeps_clustering wl) as Hk.
  destruct (gather_agent_states wl) as [[[]|e] w1] eqn:Eg; cbn [snd] in Hk;
    destruct Hk as (Hc & Ha).
  - erewrite bind_ok by exact Eg.
    rewrite re_eval_clusters_unsupported by (rewrite Ha; assumption).
    exists not_implemented, w1. repeat split; auto.
  - erewrite bind_fail by exact Eg.
    exists e, w1. repeat split; auto.
    intros Hwf. destruct (gather_agent_states_ok wl Hwf) as (Eg' & _).
    congruence.
Qed.

(** C7: with a clustering algorithm other than ['hierarchy'] and
    ['hdbscan'], [_re_eval_clusters] raises the configuration error and
    changes nothing; [_re_eval_system] and [__init__] never return
    normally and leave the clustering as it was, and on a well-formed
    system the exception they raise is that configuration error. *)
Theorem unsupported_algorithm_raises (algo : string) :
  algo <> "hierarchy" -> algo <> "hdbscan" ->
  (forall w : world F,
      clust_algo (self w) = algo ->
      _re_eval_clusters ext w = (Raise not_implemented, w))
  /\ (forall w : world F,
         clust_algo (self w) = algo ->
         exists e w',
           _re_eval_system ext w = (Raise e, w')
           /\ clustering (self w') = clustering (self w)
           /\ (wf_system (self w) -> e = not_implemented))
  /\ (forall n d c goal (state_gen : state_generator) args params w0,
         exists e w',
           init ext n d c goal state_gen args algo params w0 = (Raise e, w')
           /\ (forall ags,
                  state_gen LinearAgentNd.init d n args = Ok ags ->
                  wf_system (new_system n d c goal ags algo params) ->
                  e = not_implemented)).
Proof.
  intros H1 H2. split; [|split].
  - intros w <-. now apply re_eval_clusters_unsupported.
  - intros w <-. now apply re_eval_system_unsupported.
  - intros n d c goal state_gen args params w0. unfold init.
    destruct (state_gen LinearAgentNd.init d n args) as [ags|e] eqn:Eg.
    + destruct (re_eval_system_unsupported
                  (mkWorld (new_system n d c goal ags algo params) (fst w0) (snd w0)))
        as (e & w' & Er & _ & He); [exact H1 | exact H2 |].
      exists e, w'. split; [exact Er|]. intros ags' Eags Hwf.
      injection Eags as <-. now apply He.
    + eexists _, _. split; [reflexivity|]. intros ags' Eags. discriminate.
Qed.

(** *** The joint dynamics of [update_system_mpc] *)

Lemma NoDup_find_agent (st : store F) k a :
  NoDup (map fst st) -> In (k, a) st -> find_agent k st = Some a.
Proof.
  induction st as [|[k' b] st IH]; cbn; [intros _ []|].
  intros Hnd Hin. inversion Hnd as [|? ? Hnin Hnd']; subst.
  destruct Hin as [E|Hin].
  - injection E as -> ->. now rewrite Nat.eqb_refl.
  - destruct (Nat.eqb_spec k k') as [->|Hne]; [|auto].
    exfalso. apply Hnin. apply in_map_iff. exists (k', a). auto.
Qed.

Lemma joint_loop (st : store F) n D C (l : store F) done (JA JB : Mat F) :
  (forall k a, In (k, a) l ->
               k < n /\ LinearAgentNd.A a = A_of st k /\ LinearAgentNd.B a = B_of st k
               /\ has_shape (A_of st k) D D /\ has_shape (B_of st k) D C) ->
  blocks_placed n D D (A_of st) done JA ->
  blocks_placed n D C (B_of st) done JB ->
  exists JA' JB',
    for_acc l
      (fun ka AB =>
         let adx := fst ka in
         let agent := snd ka in
         A <- set_block (fst AB) (adx * D) ((adx + 1) * D) (adx * D) ((adx + 1) * D)
                (LinearAgentNd.A agent) ;;
         B <- set_block (snd AB) (adx * D) ((adx + 1) * D) (adx * C) ((adx + 1) * C)
                (LinearAgentNd.B agent) ;;
         Ok (A, B)) (JA, JB) = Ok (JA', JB')
    /\ blocks_placed n D D (A_of st) (rev (map fst l) ++ done) JA'
    /\ blocks_placed n D C (B_of st) (rev (map fst l) ++ done) JB'.
Proof.
  revert done JA JB. induction l as [|[k a] l IH]; intros done JA JB Hl HA HB.
  - cbn. eauto.
  - destruct (Hl k a (or_introl eq_refl)) as (Hk & EA & EB & HsA & HsB).
    cbn [for_acc fst snd]. rewrite EA, EB.
    destruct HsA as (HAr & HAc & HAwf). destruct HsB as (HBr & HBc & HBwf).
    pose proof HA as (HJAr & HJAc & _). pose proof HB as (HJBr & HJBc & _).
    rewrite (@set_block_placed _ _ JA (A_of st k) (k * D) ((k + 1) * D) (k * D) ((k + 1) * D)) by (rewrite ?HAr, ?HAc, ?HJAr, ?HJAc; auto; nia).
    cbn [obind].
    rewrite (@set_block_placed _ _ JB (B_of st k) (k * D) ((k + 1) * D) (k * C) ((k + 1) * C)) by (rewrite ?HBr, ?HBc, ?HJBr, ?HJBc; auto; nia).
    cbn [obind].
    destruct (IH (k :: done) (placed JA (k * D) (k * D) (A_of st k))
                (placed JB (k * D) (k * C) (B_of st k))) as (JA' & JB' & E & HA' & HB').
    + intros k' a' Hin. apply Hl. now right.
    + apply blocks_placed_step; auto. repeat split; auto.
    + apply blocks_placed_step; auto. repeat split; auto.
    + exists JA', JB'. split; [exact E|].
      cbn [map rev]. rewrite <- !app_assoc. cbn [app]. auto.
Qed.

Lemma joint_dynamics_ok (s : t F) :
  wf_system s -> joint_dynamics s = Ok (block_diag_A s, block_diag_B s).
Proof.
  intros (Hnd & Hkeys & Hags & Hnr & Hnc & Hgoal & Hpos).
  unfold joint_dynamics.
  destruct (joint_loop (st:=agents s) (n:=n_agents s) (D:=agent_dim s)
              (C:=control_dim s) (agents s) (done:=[])
              (JA:=zeros (agent_dim s * n_agents s) (agent_dim s * n_agents s))
              (JB:=zeros (agent_dim s * n_agents s) (control_dim s * n_agents s)))
    as (JA & JB & E & HA & HB).
  - intros k a Hin. pose proof (NoDup_find_agent _ _ _ Hnd Hin) as Hf.
    destruct (Hags _ _ Hf) as (HsA & HsB & _).
    unfold A_of, B_of. rewrite Hf.
    split; [apply Hkeys; apply in_map_iff; exists (k, a); auto|].
    split; [reflexivity|]. split; [reflexivity|]. split; assumption.
  - apply blocks_placed_zeros; lia.
  - apply blocks_placed_zeros; lia.
  - transitivity (Ok (JA, JB)); [exact E|]. f_equal. rewrite app_nil_r in HA, HB.
    assert (Hall : forall k, k < n_agents s -> In k (rev (map fst (agents s)))).
    { intros k Hk. apply in_rev. rewrite rev_involutive. now apply Hkeys. }
    unfold block_diag_A, block_diag_B.
    rewrite <- (blocks_placed_all Hall HA), <- (blocks_placed_all Hall HB).
    reflexivity.
Qed.

(** *** Committing states *)

Lemma find_put_agent k k' a' (st : store F) :
  find_agent k (put_agent k' a' st)
  = if k =? k'
    then match find_agent k st with
         | Some _ => Some a'
         | None => None
         end
    else find_agent k st.
Proof.
  induction st as [|[k0 b] st IH]; cbn [put_agent find_agent].
  - now destruct (k =? k').
  - destruct (Nat.eqb_spec k' k0) as [->|Hne]; cbn [find_agent].
    + destruct (Nat.eqb_spec k k0); reflexivity.
    + destruct (Nat.eqb_spec k k0) as [->|Hne'].
      * destruct (Nat.eqb_spec k0 k'); [congruence | reflexivity].
      * exact IH.
Qed.

Lemma keys_put_agent k a' (st : store F) : map fst (put_agent k a' st) = map fst st.
Proof.
  induction st as [|[k0 b] st IH]; cbn [put_agent map]; [reflexivity|].
  destruct (k =? k0); cbn [map fst]; [reflexivity | now rewrite IH].
Qed.

Lemma set_state_call k (v : Vec F) (w : world F) a :
  find_agent k (agents (self w)) = Some a ->
  length (LinearAgentNd.state a) = length v ->
  MultiAgentSystem.set_state k v w
  = (Ok tt,
     mkWorld (set_agents (put_agent k (with_state v a) (agents (self w))) (self w))
             (trace w ++ [EvSetState k v]) (ticks w)).
Proof.
  intros Hf Hlen. unfold MultiAgentSystem.set_state. msimp.
  unfold call_agent, on_agent. cbn [self]. rewrite Hf.
  unfold LinearAgentNd.set_state. rewrite Hlen, Nat.eqb_refl. reflexivity.
Qed.

Lemma terminal_block_length (X : Mat F) D k :
  (k + 1) * D <= nrows X -> length (terminal_block X D k) = D.
Proof.
  intros Hk. unfold terminal_block.
  rewrite length_map, length_firstn, length_skipn. unfold nrows in *. nia.
Qed.

Lemma terminal_slice_ok (X : Mat F) D k :
  0 < ncols X -> (k + 1) * D <= nrows X ->
  terminal_slice (Some X) (k * D) ((k + 1) * D) = Ok (terminal_block X D k).
Proof.
  intros Hc Hk. unfold terminal_slice, last_col_slice, terminal_block, clip.
  destruct (Nat.eqb_spec (ncols X) 0); [lia|].
  replace (Nat.min ((k + 1) * D) (nrows X)) with ((k + 1) * D) by lia.
  replace (Nat.min (k * D) (nrows X)) with (k * D) by nia.
  replace ((k + 1) * D - k * D) with D by nia. reflexivity.
Qed.

Lemma committed_nil new_state (w : world F) : committed new_state [] w w.
Proof.
  unfold committed. cbn [map]. rewrite app_nil_r. repeat split.
  intros k. destruct (find_agent k (agents (self w))); reflexivity.
Qed.

Lemma committed_cons new_state k l (w w1 w' : world F) a :
  find_agent k (agents (self w)) = Some a ->
  w1 = mkWorld (set_agents (put_agent k (with_state (new_state k) a) (agents (self w)))
                  (self w))
               (trace w ++ [EvSetState k (new_state k)]) (ticks w) ->
  committed new_state l w1 w' ->
  committed new_state (k :: l) w w'.
Proof.
  intros Hf -> (Hb & Htk & Htr & Hkeys & Hfind). cbn in Hb, Htk, Htr, Hkeys, Hfind.
  unfold committed. split; [|split; [|split; [|split]]].
  - rewrite Hb. reflexivity.
  - exact Htk.
  - rewrite Htr. cbn [map]. now rewrite <- app_assoc.
  - rewrite Hkeys. apply keys_put_agent.
  - intros k0. rewrite Hfind, find_put_agent.
    destruct (Nat.eqb_spec k0 k) as [->|Hne].
    + rewrite Hf. cbn [option_map].
      destruct (in_dec Nat.eq_dec k (k :: l)) as [_|Hn]; [|exfalso; apply Hn; now left].
      destruct (in_dec Nat.eq_dec k l); reflexivity.
    + destruct (find_agent k0 (agents (self w))) as [a0|]; [|reflexivity].
      cbn [option_map].
      destruct (in_dec Nat.eq_dec k0 l) as [Hin|Hnin];
        destruct (in_dec Nat.eq_dec k0 (k :: l)) as [Hin'|Hnin']; try reflexivity.
      * exfalso. apply Hnin'. now right.
      * destruct Hin' as [E|Hin']; [congruence | contradiction].
Qed.

(** The loop of lines 232-233. *)
Lemma commit_loop (X : Mat F) D (l : list nat) (w : world F) :
  0 < ncols X ->
  (forall k, In k l ->
             (k + 1) * D <= nrows X
             /\ exists a, find_agent k (agents (self w)) = Some a
                          /\ length (LinearAgentNd.state a) = D) ->
  exists w',
    for_each l
      (fun adx =>
         xN <~ lift (terminal_slice (Some X) (adx * D) ((adx + 1) * D)) ;;
         MultiAgentSystem.set_state adx xN) w = (Ok tt, w')
    /\ committed (terminal_block X D) l w w'.
Proof.
  intros Hc. revert w. induction l as [|k l IH]; intros w Hl.
  - exists w. split; [reflexivity | apply committed_nil].
  - destruct (Hl k (or_introl eq_refl)) as (Hk & a & Ha & Hlen).
    cbn [for_each]. msimp. rewrite terminal_slice_ok by assumption. msimp.
    erewrite bind_ok
      by (apply (set_state_call k (terminal_block X D k) w Ha);
          rewrite terminal_block_length by assumption; exact Hlen).
    match goal with
    | |- exists w', for_each _ _ ?w1 = _ /\ _ => destruct (IH w1) as (w' & E & Hcm)
    end.
    + intros k' Hk'. destruct (Hl k' (or_intror Hk')) as (Hk1 & a' & Ha' & Hlen').
      split; [exact Hk1|]. cbn [self agents set_agents]. rewrite find_put_agent.
      destruct (Nat.eqb_spec k' k) as [->|Hne].
      * rewrite Ha. eexists. split; [reflexivity|]. cbn.
        now apply terminal_block_length.
      * eauto.
    + exists w'. split; [exact E|].
      eapply committed_cons; [exact Ha | reflexivity | exact Hcm].
Qed.

Lemma committed_wf new_state D l (w w' : world F) :
  agent_dim (self w) = D ->
  (forall k, In k l -> length (new_state k) = D) ->
  committed new_state l w w' ->
  wf_system (self w) -> wf_system (self w').
Proof.
  intros Hd Hlen (Hb & _ & _ & Hkeys & Hfind)
         (Hnd & Hk & Hags & Hnr & Hnc & Hgoal & Hpos).
  unfold but_agents in Hb.
  injection Hb as En Ed Ec Ef Eg _ _ _ _ _.
  unfold wf_system. rewrite Hkeys, En, Ed, Ec, Ef, Eg.
  split; [exact Hnd|]. split; [exact Hk|]. split; [|auto].
  intros k a' Hf'. rewrite Hfind in Hf'.
  destruct (find_agent k (agents (self w))) as [a|] eqn:Ha; [|discriminate].
  cbn [option_map] in Hf'. injection Hf' as <-.
  destruct (Hags _ _ Ha) as (HA & HB & Hs).
  destruct (in_dec Nat.eq_dec k l) as [Hin|_];
    [|split; [exact HA | split; [exact HB | exact Hs]]].
  unfold wf_agent, with_state; cbn. split; [exact HA|]. split; [exact HB|].
  rewrite Hlen by assumption. congruence.
Qed.

(** *** [update_system_mpc] *)

(** The run of [update_system_mpc] on a well-formed system when the
    solver returns a trajectory: one solve of the joint problem, one
    [set_state] per agent, and a last [_re_eval_system] on the world [w3]
    the commits leave. *)
Lemma update_system_mpc_run (Q R P : Mat F) n_t (umax umin : option (Mat F))
        (w : world F) (X : Mat F) (U : option (Mat F)) (cost : F) :
  (forall a, fmul f1 a = a) ->
  wf_system (self w) ->
  labelling_ok ext (self w) ->
  use_modeling_tool ext (block_diag_A (self w)) (block_diag_B (self w)) n_t Q R P
    (flatten (full_system_state (self w))) (Some (tiled_goal (self w))) umax umin
  = Ok (Some X, U, cost) ->
  nrows X = n_agents (self w) * agent_dim (self w) ->
  0 < ncols X ->
  exists w',
    update_system_mpc ext Q R P n_t umax umin w
    = (Ok (avg_goal_dist (self w'), cost), w')
    /\ joint_dynamics (self w) = Ok (block_diag_A (self w), block_diag_B (self w))
    /\ (forall adx a i j,
           find_agent adx (agents (self w)) = Some a ->
           i < agent_dim (self w) ->
           (j < agent_dim (self w) ->
            entry (block_diag_A (self w))
                  (adx * agent_dim (self w) + i) (adx * agent_dim (self w) + j)
            = entry (LinearAgentNd.A a) i j)
           /\ (j < control_dim (self w) ->
               entry (block_diag_B (self w))
                     (adx * agent_dim (self w) + i) (adx * control_dim (self w) + j)
               = entry (LinearAgentNd.B a) i j))
    /\ kron (ones (n_agents (self w))) (system_goal (self w)) = tiled_goal (self w)
    /\ (forall adx a,
           find_agent adx (agents (self w)) = Some a ->
           find_agent adx (agents (self w'))
           = Some (with_state (terminal_block X (agent_dim (self w)) adx) a))
    /\ map fst (agents (self w')) = map fst (agents (self w))
    /\ trace w'
       = trace w
         ++ EvSolve (block_diag_A (self w)) (block_diag_B (self w)) n_t Q R P
              (flatten (full_system_state (self w))) (Some (tiled_goal (self w)))
              umax umin
            :: map (fun adx => EvSetState adx (terminal_block X (agent_dim (self w)) adx))
                   (map fst (agents (self w)))
         ++ [EvReEval]
    /\ consistent (self w')
    /\ (n_agents (self w') = n_agents (self w)
        /\ agent_dim (self w') = agent_dim (self w)
        /\ system_goal (self w') = system_goal (self w))
    /\ exists w3,
         wf_system (self w3) /\ labelling_ok ext (self w3)
         /\ _re_eval_system ext w3 = (Ok tt, w').
Proof.
  intros Hone Hwf Hlab Hsolve HXr HXc.
  pose proof Hwf as (Hnd & Hkeys & Hags & Hnr & Hnc & Hgoal & Hpos).
  assert (Hkron : kron (ones (n_agents (self w))) (system_goal (self w))
                  = tiled_goal (self w)) by (apply kron_ones; exact Hone).
  unfold update_system_mpc. msimp.
  rewrite (joint_dynamics_ok Hwf). msimp.
  unfold solve. msimp. rewrite Hkron, Hsolve. msimp.
  cbn [control_solution_time set_control_solution_time agents agent_dim].
  match goal with
  | |- exists w', bind (for_each _ _) _ ?w2t = _ /\ _ =>
      set (w2 := w2t);
      destruct (commit_loop X (D:=agent_dim (self w)) (map fst (agents (self w))) w2 HXc)
        as (w3 & E3 & Hcm)
  end.
  { intros k Hk. split.
    - apply Hkeys in Hk. rewrite HXr. nia.
    - destruct (in_find_agent _ _ Hk) as (a & Ha). exists a. split; [exact Ha|].
      now destruct (Hags _ _ Ha) as (_ & _ & Hs). }
  erewrite bind_ok by exact E3.
  assert (Hwf3 : wf_system (self w3)).
  { apply (committed_wf (D:=agent_dim (self w)) (w:=w2) (l:=map fst (agents (self w)))
             (new_state:=terminal_block X (agent_dim (self w)))); auto.
    intros k Hk. apply terminal_block_length. apply Hkeys in Hk. rewrite HXr. nia. }
  destruct Hcm as (Hb & Htk3 & Htr3 & Hkeys3 & Hfind3).
  unfold but_agents in Hb. cbn in Hb, Htk3, Htr3, Hkeys3, Hfind3.
  injection Hb as En Ed Ec Ef Eg Eal Ep Eavg Et Ecl.
  assert (Hlab3 : labelling_ok ext (self w3))
    by (apply (labelling_ok_transfer (s:=self w)); auto).
  destruct (re_eval_system_ok w3 Hwf3 Hlab3) as (w4 & E4 & Hre & _ & _).
  erewrite bind_ok by exact E4. msimp.
  destruct Hre as (Ea4 & En4 & Ed4 & _ & Eg4 & _ & _ & _ & Htr4 & _ & Hcons).
  exists w4. split; [reflexivity|]. split; [reflexivity|].
  split; [|split; [reflexivity|split; [|split; [|split]]]].
  - intros adx a i j Ha Hi.
    assert (Hadx : adx < n_agents (self w)) by (apply Hkeys; eapply find_agent_in; eauto).
    split; intros Hj.
    + unfold block_diag_A. rewrite block_diag_diagonal by assumption.
      unfold A_of. now rewrite Ha.
    + unfold block_diag_B. rewrite block_diag_diagonal by assumption.
      unfold B_of. now rewrite Ha.
  - intros adx a Ha. rewrite Ea4, Hfind3, Ha. cbn [option_map].
    destruct (in_dec Nat.eq_dec adx (map fst (agents (self w)))) as [_|Hn];
      [reflexivity|].
    exfalso. apply Hn. eapply find_agent_in; eauto.
  - now rewrite Ea4, Hkeys3.
  - rewrite Htr4, Htr3. now rewrite <- !app_assoc.
  - split; [exact Hcons|]. split; [|exists w3; auto].
    rewrite En4, Ed4, Eg4, En, Ed, Eg. auto.
Qed.

(** *** [update_system_mpc_distributed] *)

Lemma terminal_state_ok (X : Mat F) :
  0 < ncols X ->
  terminal_state (Some X) = Ok (map (fun r => nth (ncols X - 1) r f0) (rows X)).
Proof.
  intros Hc. unfold terminal_state, last_col.
  destruct (Nat.eqb_spec (ncols X) 0); [lia | reflexivity].
Qed.

Lemma the_agent_ok k (w : world F) a :
  find_agent k (agents (self w)) = Some a -> the_agent k w = (Ok a, w).
Proof. intros Ha. unfold the_agent. msimp. now rewrite Ha. Qed.

Lemma solve_ok (A B : Mat F) n_t (Q R P : Mat F) (x0 : Vec F) xs umax umin r
      (w : world F) :
  use_modeling_tool ext A B n_t Q R P x0 xs umax umin = Ok r ->
  solve ext A B n_t Q R P x0 xs umax umin w
  = (Ok r, mkWorld (self w) (trace w ++ [EvSolve A B n_t Q R P x0 xs umax umin])
                   (ticks w)).
Proof. intros E. unfold solve. msimp. now rewrite E. Qed.

Lemma distributed_loop (Q R P : Mat F) n_t (umax umin : option (Mat F))
      (goal : Vec F) D (l : store F) :
  forall (w : world F) acc,
    system_goal (self w) = goal -> agent_dim (self w) = D ->
    wf_system (self w) -> labelling_ok ext (self w) ->
    NoDup (map fst l) ->
    (forall k a, In (k, a) l ->
                 find_agent k (agents (self w)) = Some a
                 /\ solvable ext Q R P n_t umax umin goal D a) ->
    exists w',
      for_fold (map fst l) (solve_round ext Q R P n_t umax umin) acc w
      = (Ok (fold_left fadd
               (map (fun ka => solved_cost ext Q R P n_t umax umin goal (snd ka)) l) acc),
         w')
      /\ rounds_done ext Q R P n_t umax umin goal l w w'
      /\ wf_system (self w') /\ labelling_ok ext (self w')
      /\ (l <> [] ->
          exists w3, wf_system (self w3) /\ labelling_ok ext (self w3)
                     /\ _re_eval_system ext w3 = (Ok tt, w')).
Proof.
  induction l as [|[k a] l IH]; intros w acc Hgoal Hdim Hwf Hlab Hnd Hl.
  - exists w. split; [reflexivity|]. split; [|split; [auto|split; [auto|congruence]]].
    unfold rounds_done. cbn [flat_map map]. rewrite app_nil_r.
    do 10 (split; [reflexivity|]). split.
    + intros k. destruct (find_agent k (agents (self w))); reflexivity.
    + intros [Hne|Hc]; [congruence | exact Hc].
  - subst goal D.
    destruct (Hl k a (or_introl eq_refl)) as (Ha & X & U & c & Hs & HXr & HXc).
    inversion Hnd as [|? ? Hnin Hnd']; subst.
    assert (Hstate : solved_state ext Q R P n_t umax umin (system_goal (self w)) a
                     = map (fun r => nth (ncols X - 1) r f0) (rows X))
      by (unfold solved_state; now rewrite Hs).
    assert (Hcost : solved_cost ext Q R P n_t umax umin (system_goal (self w)) a = c)
      by (unfold solved_cost; now rewrite Hs).
    pose proof Hwf as (_ & Hkeys & Hags & _).
    destruct (Hags _ _ Ha) as (HA & HB & Hlen).
    cbn [map for_fold fst]. unfold solve_round at 1. msimp.
    erewrite bind_ok by (apply the_agent_ok; exact Ha). msimp.
    unfold solved in Hs.
    erewrite bind_ok by (apply solve_ok; exact Hs). msimp.
    rewrite terminal_state_ok by assumption. msimp. rewrite <- Hstate.
    set (xN := solved_state ext Q R P n_t umax umin (system_goal (self w)) a) in *.
    assert (HxN : length xN = agent_dim (self w))
      by (rewrite Hstate, length_map; exact HXr).
    match goal with
    | |- context [bind (MultiAgentSystem.set_state k xN) _ ?wt] => set (wS := wt)
    end.
    erewrite bind_ok by (apply (set_state_call k xN wS Ha); congruence).
    msimp.
    match goal with
    | |- context [bind (_re_eval_system ext) _ ?wt] => set (w1 := wt)
    end.
    assert (Hcm : committed (fun _ => xN) [k] wS w1)
      by (eapply committed_cons; [exact Ha | reflexivity | apply committed_nil]).
    assert (Hwf1 : wf_system (self w1)).
    { apply (committed_wf (D:=agent_dim (self w)) (w:=wS) (l:=[k])
               (new_state:=fun _ => xN)); auto. }
    assert (Hlab1 : labelling_ok ext (self w1))
      by (apply (labelling_ok_transfer (s:=self w)); auto).
    destruct (re_eval_system_ok w1 Hwf1 Hlab1) as (w2 & E2 & Hre & Hwf2 & Hlab2).
    erewrite bind_ok by exact E2. msimp.
    destruct Hre as (Ea2 & En2 & Ed2 & Ec2 & Eg2 & Eal2 & Ep2 & Et2 & Htr2 & Htk2 & Hcons2).
    cbn in Ea2, En2, Ed2, Ec2, Eg2, Eal2, Ep2, Et2, Htr2, Htk2.
    assert (Eg0 : system_goal (self w2) = system_goal (self w))
      by (rewrite Eg2; reflexivity).
    assert (Ed0 : agent_dim (self w2) = agent_dim (self w))
      by (rewrite Ed2; reflexivity).
    destruct (IH w2 (fadd acc c) Eg0 Ed0 Hwf2 Hlab2 Hnd')
      as (w' & E & Hrd & Hwf' & Hlab' & Hlast).
    + intros k' a' Hin. destruct (Hl k' a' (or_intror Hin)) as (Ha' & Hsv).
      split; [|exact Hsv]. rewrite Ea2, find_put_agent.
      destruct (Nat.eqb_spec k' k) as [->|Hne]; [|exact Ha'].
      exfalso. apply Hnin. apply in_map_iff. exists (k, a'). auto.
    + exists w'. split; [|split; [|split; [exact Hwf'|split; [exact Hlab'|]]]].
      3:{ intros _. destruct l as [|ka l']; [|apply Hlast; discriminate].
          cbn [map for_fold] in E. unfold ret in E.
          assert (Ew : w' = w2) by congruence. subst w'.
          exists w1. auto. }
      * etransitivity; [exact E|]. cbn [map fold_left snd]. now rewrite Hcost.
      * destruct Hrd as (En & Ed & Ec & Eg & Eal & Ep & Et & Htk & Htr & Hk' & Hfind & Hc').
        unfold rounds_done. unfold w1, wS in *.
        cbn in Ea2, En2, Ed2, Ec2, Eg2, Eal2, Ep2, Et2, Htr2, Htk2.
        split; [congruence|]. split; [congruence|]. split; [congruence|].
        split; [congruence|]. split; [congruence|]. split; [congruence|].
        split; [congruence|]. split; [congruence|].
        split; [|split; [|split]].
        -- rewrite Htr, Htr2. unfold agent_round at 2. cbn [flat_map fst snd].
           fold xN. rewrite <- !app_assoc. reflexivity.
        -- rewrite Hk', Ea2. apply keys_put_agent.
        -- intros k0. rewrite Hfind, Ea2, find_put_agent. cbn [map fst].
           destruct (Nat.eqb_spec k0 k) as [->|Hne].
           ++ rewrite Ha. cbn [option_map].
              destruct (in_dec Nat.eq_dec k (map fst l)) as [Hin|_]; [contradiction|].
              destruct (in_dec Nat.eq_dec k (k :: map fst l)) as [_|Hn];
                [reflexivity | exfalso; apply Hn; now left].
           ++ destruct (find_agent k0 (agents (self w))) as [a0|]; [|reflexivity].
              cbn [option_map].
              destruct (in_dec Nat.eq_dec k0 (map fst l)) as [Hin|Hnin'];
                destruct (in_dec Nat.eq_dec k0 (k :: map fst l)) as [Hin'|Hnin''];
                try reflexivity.
              ** exfalso. apply Hnin''. now right.
              ** destruct Hin' as [E0|Hin']; [congruence | contradiction].
        -- intros _. apply Hc'. right. exact Hcons2.
Qed.

End Facts.
End system_facts.

(** C5 (the code departs from it): on the system of two agents, which
    has one cluster, [update_system_simplified] raises [AttributeError] at
    its first statement and changes nothing; no control is applied and
    nothing is re-evaluated. *)
Theorem update_system_simplified_fails_on_a_cluster :
  fst sample.two_agents = Ok tt
  /\ map fst (MultiAgentSystem.clusters (MultiAgentSystem.self (snd sample.two_agents)))
     = [0]
  /\ MultiAgentSystem.update_system_simplified sample.ext 1%Z (snd sample.two_agents)
     = (Raise (AttributeError "'int' object has no attribute 'centroid'"),
        snd sample.two_agents).
Proof. vm_compute. repeat split. Qed.

(** ** The system of two agents *)

Lemma world0_wf : system_spec.wf_system (MultiAgentSystem.self sample.world0).
Proof.
  unfold system_spec.wf_system. cbn.
  split.
  { constructor; [intros [E|[]]; discriminate|].
    constructor; [intros []|]. constructor. }
  split; [intros k; lia|].
  split.
  { intros k a. destruct k as [|[|k]]; cbn; intros E; inversion E; subst;
      (split; [|split]); try reflexivity;
      (split; [reflexivity|split; [reflexivity|]]); repeat constructor. }
  repeat split; lia.
Qed.

Lemma world0_labelling :
  system_spec.labelling_ok sample.ext (MultiAgentSystem.self sample.world0).
Proof.
  intros M HM. cbn in HM. eexists. split; [reflexivity|].
  rewrite length_map, repeat_length. exact HM.
Qed.

Lemma agents0_wf algo params :
  system_spec.wf_system
    (MultiAgentSystem.new_system 2 2 2 [5%Z; 5%Z] sample.agents0 algo params).
Proof.
  unfold system_spec.wf_system. cbn.
  split.
  { constructor; [intros [E|[]]; discriminate|].
    constructor; [intros []|]. constructor. }
  split; [intros k; lia|].
  split.
  { intros k a. destruct k as [|[|k]]; cbn; intros E; inversion E; subst;
      (split; [|split]); try reflexivity;
      (split; [reflexivity|split; [reflexivity|]]); repeat constructor. }
  repeat split; lia.
Qed.

Lemma unsupported_algorithm_raises_witness :
  exists w', sample.two_agents_epsdel = (Raise not_implemented, w').
Proof.
  destruct (@system_facts.unsupported_algorithm_raises Z _ sample.ext "epsdel")
    as (_ & _ & Hinit).
  - discriminate.
  - discriminate.
  - destruct (Hinit 2 2 2 [5%Z; 5%Z] sample.blobs [] [2%Z] ([], 0))
      as (e & w' & E & He).
    exists w'. unfold sample.two_agents_epsdel. rewrite E. f_equal. f_equal.
    apply (He sample.agents0).
    + vm_compute. reflexivity.
    + apply agents0_wf.
Defined.

(** * Further properties of the code *)

(** ** [mpc_solver]: what the optional arguments switch on and off *)

Module mpc_more.
Import mpc_solver mpc_forms mpc_facts.
Section Facts.
Context {F : Type} `{Scalar F}.

Local Abbreviation problem := (problem (F:=F)).
Local Abbreviation constr := (constr (F:=F)).
Local Abbreviation term := (term (F:=F)).

Lemma in_opt_constr {A} (o : option A) (f : A -> constr) c :
  In c (opt_constr o f) <-> exists a, o = Some a /\ c = f a.
Proof.
  destruct o as [a|]; cbn; split.
  - intros [<-|[]]. eauto.
  - intros (a' & E & ->). injection E as <-. now left.
  - intros [].
  - intros (a' & E & _). discriminate.
Qed.

(** X1: for operands that fit, without bounds and without a collision
    distance the constraints of [conventional_solve] are the [N]
    dynamics equalities, in stage order, followed by the initial
    condition, and nothing else. *)
Theorem conventional_unconstrained (A B : Mat F) N (Q R P : Mat F) (x0 : Vec F) adim
        (xs : option (Vec F)) :
  single_scale_fits A B N Q R P x0 None None None None xs ->
  exists p,
    conventional_problem A B N Q R P x0 adim None None None None xs None = Ok p
    /\ constrlist p
       = map (fun t => EqC (Col x (t + 1)) (Add (Mul A (Col x t)) (Mul B (Col u t))))
             (seq 0 N)
         ++ [EqC (Col x 0) (Const x0)].
Proof.
  intros Hfit.
  eexists. split; [apply conventional_problem_form; [exact Hfit | now left]|].
  cbn [constrlist]. unfold closing_constrs, stage_constrs, opt_separations. cbn.
  now rewrite flat_map_single.
Qed.

(** X2: for operands that fit, a state bound given to
    [conventional_solve] is imposed on every column of the state
    trajectory, the initial column and the terminal column included, and
    on nothing else. *)
Theorem conventional_state_bound_every_stage
        (A B : Mat F) N (Q R P : Mat F) (x0 : Vec F) adim
        (umax umin xmin : option (Mat F)) (xmax : Mat F) (xs : option (Vec F))
        (coll_d : option F) :
  single_scale_fits A B N Q R P x0 umax umin xmin (Some xmax) xs ->
  coll_d = None \/ adim <> 0 ->
  exists p,
    conventional_problem A B N Q R P x0 adim umax umin xmin (Some xmax) xs coll_d = Ok p
    /\ (forall t, In (LeC (Col x t) (Col0 xmax)) (constrlist p) <-> t <= N)
    /\ (forall e b, In (LeC e b) (constrlist p) ->
                    (exists t, e = Col x t /\ b = Col0 xmax)
                    \/ (exists m, umax = Some m /\ e = Whole u /\ b = ConstM m)).
Proof.
  intros Hfit Hc. eexists. split; [apply conventional_problem_form; assumption|].
  cbn [constrlist]. split.
  - intros t. rewrite in_app_iff, in_flat_map. split.
    + intros [(s & Hs & Hin)|Hin].
      * apply in_seq in Hs. apply in_app_iff in Hin. destruct Hin as [Hin|Hin].
        -- unfold stage_constrs in Hin. cbn in Hin.
           rewrite in_app_iff in Hin. destruct Hin as [Hin|[Hin|Hin]]; try discriminate.
           ++ apply in_opt_constr in Hin. destruct Hin as (? & _ & ?). discriminate.
           ++ cbn in Hin. destruct Hin as [Hin|[]]. injection Hin as <-. lia.
        -- destruct coll_d as [d|]; [|destruct Hin].
           apply in_separations in Hin. destruct Hin as (? & ? & ? & _). discriminate.
      * unfold closing_constrs in Hin. rewrite !in_app_iff in Hin.
        destruct Hin as [Hin|[Hin|[Hin|[Hin|Hin]]]].
        -- apply in_opt_constr in Hin. destruct Hin as (? & _ & ?). discriminate.
        -- cbn in Hin. destruct Hin as [Hin|[]]. injection Hin as <-. lia.
        -- apply in_opt_constr in Hin. destruct Hin as (? & _ & ?). discriminate.
        -- apply in_opt_constr in Hin. destruct Hin as (? & _ & ?). discriminate.
        -- destruct Hin as [Hin|[]]. discriminate.
    + intros Ht. destruct (Nat.eq_dec t N) as [->|Hne].
      * right. unfold closing_constrs. rewrite !in_app_iff. right. left. now left.
      * left. exists t. split; [apply in_seq; lia|].
        apply in_app_iff. left. unfold stage_constrs. cbn. right.
        apply in_app_iff. right. now left.
  - intros e b Hin. rewrite in_app_iff, in_flat_map in Hin.
    destruct Hin as [(s & Hs & Hin)|Hin].
    + apply in_app_iff in Hin. destruct Hin as [Hin|Hin].
      * unfold stage_constrs in Hin. cbn in Hin.
        rewrite in_app_iff in Hin. destruct Hin as [Hin|[Hin|Hin]]; try discriminate.
        -- apply in_opt_constr in Hin. destruct Hin as (? & _ & ?). discriminate.
        -- cbn in Hin. destruct Hin as [Hin|[]]. injection Hin as <- <-. left. eauto.
      * destruct coll_d as [d|]; [|destruct Hin].
        apply in_separations in Hin. destruct Hin as (? & ? & ? & _). discriminate.
    + unfold closing_constrs in Hin. rewrite !in_app_iff in Hin.
      destruct Hin as [Hin|[Hin|[Hin|[Hin|Hin]]]].
      * apply in_opt_constr in Hin. destruct Hin as (? & _ & ?). discriminate.
      * cbn in Hin. destruct Hin as [Hin|[]]. injection Hin as <- <-. left. eauto.
      * apply in_opt_constr in Hin. destruct Hin as (m & Hm & Hc').
        injection Hc' as -> ->. right. eauto.
      * apply in_opt_constr in Hin. destruct Hin as (? & _ & ?). discriminate.
      * destruct Hin as [Hin|[]]. discriminate.
Qed.

(** X3: without a coupling weight and without a collision distance
    [microcoupling_solve] poses the problem of [conventional_solve] and
    returns what it returns, whatever [N_cpl] and [L_lambda] are. *)
Theorem microcoupling_without_weight_is_conventional
        (cvxpy_solve : problem -> outcome ((var -> option (Mat F)) * F))
        (A B : Mat F) N (Q R P : Mat F) (x0 : Vec F) adim N_cpl (L_lambda : F)
        (umax umin xmin xmax : option (Mat F)) (xs : option (Vec F)) :
  microcoupling_solve cvxpy_solve A B N Q R P x0 adim N_cpl None L_lambda
    umax umin xmin xmax xs None
  = conventional_solve cvxpy_solve A B N Q R P x0 adim umax umin xmin xmax xs None.
Proof.
  assert (E : microcoupling_problem A B N Q R P x0 adim N_cpl None L_lambda
                umax umin xmin xmax xs None
              = conventional_problem A B N Q R P x0 adim umax umin xmin xmax xs None).
  { unfold microcoupling_problem, conventional_problem.
    destruct (wrap_psd Q) as [Qw|e]; cbn [obind]; [|reflexivity].
    destruct (wrap_psd R) as [Rw|e]; cbn [obind]; [|reflexivity].
    destruct (wrap_psd P) as [Pw|e]; cbn [obind]; [|reflexivity].
    destruct (declare (nrows B) (N + 1)) as [[]|e]; cbn [obind]; [|reflexivity].
    destruct (declare (ncols B) N) as [[]|e]; cbn [obind]; [|reflexivity].
    destruct (for_acc _ _ _) as [p|e]; cbn [obind]; [|reflexivity].
    destruct (closing _ _ _ _ _ _ _ _ _ _ _) as [q|e]; reflexivity. }
  unfold microcoupling_solve, conventional_solve. now rewrite E.
Qed.

(** X4: for operands that fit, with a coupling weight [L] and no
    collision distance, the problem of [microcoupling_solve] is the
    problem of
    [conventional_solve] with [N_cpl] more summands in the objective,
    [0.5 * L_lambda * quad_form(x[:, t], L)] for [t < N_cpl], where
    [N_cpl] is at most the number [N_mic + 1] of columns of [x]; the
    coupling summands weigh the state itself, also when a reference is
    given, and the constraints are the same. *)
Theorem microcoupling_adds_coupling_terms
        (A B : Mat F) N (Q R P : Mat F) (x0 : Vec F) adim N_cpl (L : Mat F)
        (L_lambda : F) (umax umin xmin xmax : option (Mat F)) (xs : option (Vec F)) :
  single_scale_fits A B N Q R P x0 umax umin xmin xmax xs ->
  square (nrows B) L ->
  N_cpl <= N + 1 ->
  exists pc,
    conventional_problem A B N Q R P x0 adim umax umin xmin xmax xs None = Ok pc
    /\ microcoupling_problem A B N Q R P x0 adim N_cpl (Some L) L_lambda
         umax umin xmin xmax xs None
       = Ok (mkProblem
               (costlist pc
                ++ map (fun t => HalfScaledQuad L_lambda (Col x t) (psd_wrap L))
                       (seq 0 N_cpl))
               (constrlist pc)).
Proof.
  intros Hfit HL Hcpl.
  eexists. split; [apply conventional_problem_form; [exact Hfit | now left]|].
  rewrite microcoupling_problem_form;
    [|exact Hfit|now left|intros Lm E; injection E as <-; auto].
  cbn [costlist constrlist coupling_costs]. unfold opt_separations.
  rewrite <- !app_assoc. reflexivity.
Qed.

Lemma meso_term_no_micro (A_mes B_mes : Mat F) N_mes (Q R_mes P : Mat F)
      (x0_mes : Vec F) (umax_mes umin_mes xmin_mes xmax_mes : option (Mat F))
      (xs : option (Vec F)) v tm :
  is_micro v = true ->
  In tm (costlist (meso_problem A_mes B_mes N_mes Q R_mes P x0_mes
                     umax_mes umin_mes xmin_mes xmax_mes xs)) ->
  term_mentions v tm = false.
Proof.
  intros Hv Hin.
  pose proof (meso_problem_no_micro A_mes B_mes N_mes Q R_mes P x0_mes
                umax_mes umin_mes xmin_mes xmax_mes xs v Hv) as Hm.
  unfold problem_mentions in Hm. apply orb_false_iff in Hm. destruct Hm as [Hm _].
  destruct (term_mentions v tm) eqn:E; [|reflexivity].
  assert (existsb (term_mentions v)
            (costlist (meso_problem A_mes B_mes N_mes Q R_mes P x0_mes
                         umax_mes umin_mes xmin_mes xmax_mes xs)) = true) as Ht
      by (apply existsb_exists; eauto).
  congruence.
Qed.

Lemma meso_constr_no_micro (A_mes B_mes : Mat F) N_mes (Q R_mes P : Mat F)
      (x0_mes : Vec F) (umax_mes umin_mes xmin_mes xmax_mes : option (Mat F))
      (xs : option (Vec F)) v c :
  is_micro v = true ->
  In c (constrlist (meso_problem A_mes B_mes N_mes Q R_mes P x0_mes
                      umax_mes umin_mes xmin_mes xmax_mes xs)) ->
  constr_mentions v c = false.
Proof.
  intros Hv Hin.
  pose proof (meso_problem_no_micro A_mes B_mes N_mes Q R_mes P x0_mes
                umax_mes umin_mes xmin_mes xmax_mes xs v Hv) as Hm.
  unfold problem_mentions in Hm. apply orb_false_iff in Hm. destruct Hm as [_ Hm].
  destruct (constr_mentions v c) eqn:E; [|reflexivity].
  assert (existsb (constr_mentions v)
            (constrlist (meso_problem A_mes B_mes N_mes Q R_mes P x0_mes
                           umax_mes umin_mes xmin_mes xmax_mes xs)) = true) as Ht
      by (apply existsb_exists; eauto).
  congruence.
Qed.

(** X5: for operands that fit, in the two-scale problem of
    [mesocoupling_solve] the micro-scale
    state enters the objective only through the coupling summands
    [0.5 * L_lambda * quad_form(x_mic[:, t], L)] with [t < N_mic]: the
    terminal column [x_mic[:, N_mic]] carries no cost, and neither [Q],
    [P] nor the reference weigh the micro-scale state. *)
Theorem mesocoupling_micro_state_cost
        (A_mes B_mes : Mat F) N_mes (Q R_mes P : Mat F)
        (x0_mes : Vec F) adim (A_mic B_mic : Mat F) N_mic (R_mic : Mat F)
        (x0_mic : Vec F) (L : Mat F) (L_lambda : F)
        (umax_mes umin_mes umax_mic umin_mic : option (Mat F))
        (xmin_mes xmax_mes xmin_mic xmax_mic : option (Mat F))
        (xs : option (Vec F)) (coll_d : option F) :
  single_scale_fits A_mes B_mes N_mes Q R_mes P x0_mes
    umax_mes umin_mes xmin_mes xmax_mes xs ->
  micro_scale_fits A_mic B_mic N_mic R_mic L x0_mic
    umax_mic umin_mic xmin_mic xmax_mic ->
  coll_d = None \/ adim <> 0 ->
  exists p,
    mesocoupling_problem A_mes B_mes N_mes Q R_mes P x0_mes adim
      A_mic B_mic N_mic R_mic x0_mic (Some L) L_lambda
      umax_mes umin_mes umax_mic umin_mic xmin_mes xmax_mes xmin_mic xmax_mic
      xs coll_d = Ok p
    /\ (forall tm, In tm (costlist p) ->
                   term_mentions x_mic tm = true <->
                   exists t, t < N_mic
                             /\ tm = HalfScaledQuad L_lambda (Col x_mic t) (psd_wrap L)).
Proof.
  intros Hfit Hmic Hc.
  eexists. split; [apply mesocoupling_problem_some; assumption|].
  intros tm Hin. unfold extend in Hin. cbn [costlist] in Hin.
  apply in_app_iff in Hin. destruct Hin as [Hin|Hin].
  - apply (meso_term_no_micro _ _ _ _ _ _ _ _ _ _ _ _ x_mic) in Hin; [|reflexivity].
    split; [congruence|]. intros (t & _ & ->). cbn in Hin. discriminate.
  - apply in_flat_map in Hin. destruct Hin as (t & Ht & Hin). apply in_seq in Ht.
    unfold micro_stage_costs in Hin. destruct Hin as [<-|[<-|[]]].
    + split; [|reflexivity]. intros _. exists t. split; [lia|reflexivity].
    + split; [cbn; discriminate|]. intros (? & _ & ?). discriminate.
Qed.

(** X6: for operands that fit, a micro-scale state bound given to
    [mesocoupling_solve] is
    imposed on the columns [t < N_mic] only: unlike the bounds of
    [conventional_solve], it leaves the terminal column
    [x_mic[:, N_mic]] unbounded. *)
Theorem mesocoupling_micro_bound_not_terminal
        (A_mes B_mes : Mat F) N_mes (Q R_mes P : Mat F)
        (x0_mes : Vec F) adim (A_mic B_mic : Mat F) N_mic (R_mic : Mat F)
        (x0_mic : Vec F) (L : Mat F) (L_lambda : F)
        (umax_mes umin_mes umax_mic umin_mic : option (Mat F))
        (xmin_mes xmax_mes xmin_mic xmax_mic : option (Mat F))
        (xs : option (Vec F)) (coll_d : option F) :
  single_scale_fits A_mes B_mes N_mes Q R_mes P x0_mes
    umax_mes umin_mes xmin_mes xmax_mes xs ->
  micro_scale_fits A_mic B_mic N_mic R_mic L x0_mic
    umax_mic umin_mic xmin_mic xmax_mic ->
  coll_d = None \/ adim <> 0 ->
  exists p,
    mesocoupling_problem A_mes B_mes N_mes Q R_mes P x0_mes adim
      A_mic B_mic N_mic R_mic x0_mic (Some L) L_lambda
      umax_mes umin_mes umax_mic umin_mic xmin_mes xmax_mes xmin_mic xmax_mic
      xs coll_d = Ok p
    /\ (forall t m, In (LeC (Col x_mic t) (Col0 m)) (constrlist p)
                    <-> xmax_mic = Some m /\ t < N_mic)
    /\ (forall t m, In (GeC (Col x_mic t) (Col0 m)) (constrlist p)
                    <-> xmin_mic = Some m /\ t < N_mic).
Proof.
  intros Hfit Hmic Hc.
  eexists. split; [apply mesocoupling_problem_some; assumption|].
  unfold extend. cbn [constrlist].
  split; intros t m; (split; [intros Hin | intros [Hm Ht]]).
  - apply in_app_iff in Hin. destruct Hin as [Hin|Hin].
    { apply (meso_constr_no_micro _ _ _ _ _ _ _ _ _ _ _ _ x_mic) in Hin;
        [discriminate Hin|reflexivity]. }
    apply in_app_iff in Hin. destruct Hin as [Hin|Hin].
    + apply in_flat_map in Hin. destruct Hin as (s & Hs & Hin). apply in_seq in Hs.
      apply in_app_iff in Hin. destruct Hin as [Hin|Hin].
      * unfold micro_stage_constrs in Hin. rewrite !in_app_iff in Hin.
        destruct Hin as [[Hin|[]]|[Hin|Hin]]; try discriminate.
        -- apply in_opt_constr in Hin. destruct Hin as (? & _ & ?). discriminate.
        -- apply in_opt_constr in Hin. destruct Hin as (m' & Hm & Hin).
           injection Hin as -> ->. split; [assumption|lia].
      * destruct coll_d as [d|]; [|destruct Hin].
        apply in_separations in Hin. destruct Hin as (? & ? & ? & _). discriminate.
    + unfold micro_closing_constrs in Hin. rewrite !in_app_iff in Hin.
      destruct Hin as [Hin|[Hin|Hin]].
      * apply in_opt_constr in Hin. destruct Hin as (? & _ & ?). discriminate.
      * apply in_opt_constr in Hin. destruct Hin as (? & _ & ?). discriminate.
      * destruct Hin as [Hin|[]]. discriminate.
  - rewrite !in_app_iff. right. left. apply in_flat_map. exists t.
    split; [apply in_seq; lia|]. apply in_app_iff. left.
    unfold micro_stage_constrs. rewrite !in_app_iff. right. right.
    apply in_opt_constr. eauto.
  - apply in_app_iff in Hin. destruct Hin as [Hin|Hin].
    { apply (meso_constr_no_micro _ _ _ _ _ _ _ _ _ _ _ _ x_mic) in Hin;
        [discriminate Hin|reflexivity]. }
    apply in_app_iff in Hin. destruct Hin as [Hin|Hin].
    + apply in_flat_map in Hin. destruct Hin as (s & Hs & Hin). apply in_seq in Hs.
      apply in_app_iff in Hin. destruct Hin as [Hin|Hin].
      * unfold micro_stage_constrs in Hin. rewrite !in_app_iff in Hin.
        destruct Hin as [[Hin|[]]|[Hin|Hin]]; try discriminate.
        -- apply in_opt_constr in Hin. destruct Hin as (m' & Hm & Hin).
           injection Hin as -> ->. split; [assumption|lia].
        -- apply in_opt_constr in Hin. destruct Hin as (? & _ & ?). discriminate.
      * destruct coll_d as [d|]; [|destruct Hin].
        apply in_separations in Hin. destruct Hin as (? & ? & ? & _). discriminate.
    + unfold micro_closing_constrs in Hin. rewrite !in_app_iff in Hin.
      destruct Hin as [Hin|[Hin|Hin]].
      * apply in_opt_constr in Hin. destruct Hin as (? & _ & ?). discriminate.
      * apply in_opt_constr in Hin. destruct Hin as (? & _ & ?). discriminate.
      * destruct Hin as [Hin|[]]. discriminate.
  - rewrite !in_app_iff. right. left. apply in_flat_map. exists t.
    split; [apply in_seq; lia|]. apply in_app_iff. left.
    unfold micro_stage_constrs. rewrite !in_app_iff. right. left.
    apply in_opt_constr. eauto.
Qed.

End Facts.
End mpc_more.

Lemma conventional_unconstrained_witness :
  exists p,
    mpc_solver.conventional_problem sample.I2 sample.I2 3 sample.I2 sample.I2 sample.I2
      [0%Z; 1%Z] 1 None None None None None None = Ok p
    /\ mpc_solver.constrlist p
       = map (fun t => mpc_solver.EqC (mpc_solver.Col mpc_solver.x (t + 1))
                         (mpc_solver.Add
                            (mpc_solver.Mul sample.I2 (mpc_solver.Col mpc_solver.x t))
                            (mpc_solver.Mul sample.I2 (mpc_solver.Col mpc_solver.u t))))
             (seq 0 3)
         ++ [mpc_solver.EqC (mpc_solver.Col mpc_solver.x 0)
               (mpc_solver.Const [0%Z; 1%Z])].
Proof.
  apply (@mpc_more.conventional_unconstrained Z
           sample.I2 sample.I2 3 sample.I2 sample.I2 sample.I2 [0%Z; 1%Z] 1 None).
  fits.
Defined.

Lemma conventional_state_bound_every_stage_witness :
  exists p,
    mpc_solver.conventional_problem sample.I1 sample.I1 2 sample.I1 sample.I1 sample.I1
      [0%Z] 1 None None None (Some sample.I1) None None = Ok p
    /\ (forall t, In (mpc_solver.LeC (mpc_solver.Col mpc_solver.x t)
                                     (mpc_solver.Col0 sample.I1))
                     (mpc_solver.constrlist p) <-> t <= 2)
    /\ (forall e b, In (mpc_solver.LeC e b) (mpc_solver.constrlist p) ->
                    (exists t, e = mpc_solver.Col mpc_solver.x t
                               /\ b = mpc_solver.Col0 sample.I1)
                    \/ (exists m, None = Some m /\ e = mpc_solver.Whole mpc_solver.u
                                  /\ b = mpc_solver.ConstM m)).
Proof.
  apply (@mpc_more.conventional_state_bound_every_stage Z
           sample.I1 sample.I1 2 sample.I1 sample.I1 sample.I1 [0%Z] 1
           None None None sample.I1 None None).
  - fits.
  - left; reflexivity.
Defined.

Lemma microcoupling_adds_coupling_terms_witness :
  exists pc,
    mpc_solver.conventional_problem sample.I1 sample.I1 2 sample.I1 sample.I1 sample.I1
      [0%Z] 1 None None None None (Some [5%Z]) None = Ok pc
    /\ mpc_solver.microcoupling_problem sample.I1 sample.I1 2 sample.I1 sample.I1
         sample.I1 [0%Z] 1 3 (Some sample.I1) 2%Z None None None None (Some [5%Z]) None
       = Ok (mpc_solver.mkProblem
               (mpc_solver.costlist pc
                ++ map (fun t => mpc_solver.HalfScaledQuad 2%Z
                                   (mpc_solver.Col mpc_solver.x t)
                                   (mpc_solver.psd_wrap sample.I1)) (seq 0 3))
               (mpc_solver.constrlist pc)).
Proof.
  apply (@mpc_more.microcoupling_adds_coupling_terms Z
           sample.I1 sample.I1 2 sample.I1 sample.I1 sample.I1 [0%Z] 1 3
           sample.I1 2%Z None None None None (Some [5%Z])).
  - fits.
  - fits.
  - simpl; lia.
Defined.

Lemma mesocoupling_micro_state_cost_witness :
  exists p,
    mpc_solver.mesocoupling_problem sample.I1 sample.I1 1 sample.I1 sample.I1
      sample.I1 [0%Z] 1 sample.I2 sample.I2 2 sample.I2 [0%Z; 1%Z]
      (Some sample.I2) 3%Z None None None None None None None (Some sample.I2)
      (Some [5%Z]) None = Ok p
    /\ (forall tm, In tm (mpc_solver.costlist p) ->
                   mpc_solver.term_mentions mpc_solver.x_mic tm = true <->
                   exists t, t < 2
                             /\ tm = mpc_solver.HalfScaledQuad 3%Z
                                       (mpc_solver.Col mpc_solver.x_mic t)
                                       (mpc_solver.psd_wrap sample.I2)).
Proof.
  apply (@mpc_more.mesocoupling_micro_state_cost Z
           sample.I1 sample.I1 1 sample.I1 sample.I1 sample.I1 [0%Z] 1
           sample.I2 sample.I2 2 sample.I2 [0%Z; 1%Z] sample.I2 3%Z
           None None None None None None None (Some sample.I2) (Some [5%Z])
           None).
  - fits.
  - fits.
  - left; reflexivity.
Defined.

Lemma mesocoupling_micro_bound_not_terminal_witness :
  exists p,
    mpc_solver.mesocoupling_problem sample.I1 sample.I1 1 sample.I1 sample.I1
      sample.I1 [0%Z] 1 sample.I2 sample.I2 2 sample.I2 [0%Z; 1%Z]
      (Some sample.I2) 3%Z None None None None None None None (Some sample.B21)
      None (Some 1%Z) = Ok p
    /\ (forall t m, In (mpc_solver.LeC (mpc_solver.Col mpc_solver.x_mic t)
                                       (mpc_solver.Col0 m)) (mpc_solver.constrlist p)
                    <-> Some sample.B21 = Some m /\ t < 2)
    /\ (forall t m, In (mpc_solver.GeC (mpc_solver.Col mpc_solver.x_mic t)
                                       (mpc_solver.Col0 m)) (mpc_solver.constrlist p)
                    <-> None = Some m /\ t < 2).
Proof.
  apply (@mpc_more.mesocoupling_micro_bound_not_terminal Z
           sample.I1 sample.I1 1 sample.I1 sample.I1 sample.I1 [0%Z] 1
           sample.I2 sample.I2 2 sample.I2 [0%Z; 1%Z] sample.I2 3%Z
           None None None None None None None (Some sample.B21) None
           (Some 1%Z)).
  - fits.
  - fits.
  - right; discriminate.
Defined.

(** ** Agents: which controls a constructed agent accepts *)

Module agent_more.
Import LinearAgentNd.
Section Facts.
Context {F : Type} `{Scalar F}.

Lemma init_fields (A0 B0 : Mat F) D (s : Vec F) a :
  init A0 B0 D s = Ok a ->
  a = mk A0 B0 s D
  /\ length s = D /\ nrows A0 = D /\ ncols A0 = D /\ ncols B0 = D.
Proof.
  unfold init, shape_eqb, shape; cbn [fst snd].
  destruct (Nat.eqb_spec (length s) D); [|discriminate].
  destruct (Nat.eqb_spec (nrows A0) D); [|discriminate].
  destruct (Nat.eqb_spec (ncols A0) D); [|discriminate].
  destruct (Nat.eqb_spec (ncols B0) D); [|discriminate].
  cbn [andb]. intros E; injection E as <-. auto.
Qed.

Lemma length_vzip op (a b r : Vec F) :
  vzip op a b = Ok r -> bcast_len (length a) (length b) = Some (length r).
Proof.
  unfold vzip. destruct (bcast_len (length a) (length b)) as [n|]; [|discriminate].
  intros E; injection E as <-. now rewrite length_map, length_seq.
Qed.

(** X7: an agent that [__init__] returned accepts in [propagate_input]
    exactly the controls with [agent_dim] entries, and only if the row
    count of [B] is [agent_dim] or one of the two is 1; every other call
    raises ValueError.  After a call that returns, the state has
    [agent_dim] entries, except that for [agent_dim = 1] it has as many
    entries as [B] has rows. *)
Theorem constructed_agent_propagate_input (A0 B0 : Mat F) D (s u : Vec F) a :
  init A0 B0 D s = Ok a ->
  match propagate_input a u with
  | Ok a' =>
      length u = D /\ (nrows B0 = D \/ nrows B0 = 1 \/ D = 1)
      /\ length (state a') = (if D =? 1 then nrows B0 else D)
  | Raise e =>
      (length u <> D \/ (nrows B0 <> D /\ nrows B0 <> 1 /\ D <> 1))
      /\ exists msg, e = ValueError msg
  end.
Proof.
  intros Hi. apply init_fields in Hi. destruct Hi as (-> & Hs & HAr & HAc & HBc).
  unfold propagate_input; cbn [A B state agent_dim].
  unfold matvec at 1. rewrite HAc, Hs, Nat.eqb_refl. cbn [obind].
  unfold matvec. rewrite HBc.
  destruct (Nat.eqb_spec D (length u)) as [Hu|Hu]; cbn [obind].
  2:{ split; [left; congruence | eauto]. }
  unfold vadd, vzip. rewrite !length_map. fold (nrows A0) (nrows B0). rewrite HAr.
  unfold bcast_len.
  destruct (Nat.eqb_spec D (nrows B0)) as [E1|E1]; cbn [obind state].
  { rewrite length_map, length_seq. split; [congruence|]. split; [auto|].
    destruct (Nat.eqb_spec D 1); congruence. }
  destruct (Nat.eqb_spec D 1) as [E2|E2]; cbn [obind state].
  { rewrite length_map, length_seq. auto. }
  destruct (Nat.eqb_spec (nrows B0) 1) as [E3|E3]; cbn [obind state].
  { rewrite length_map, length_seq. auto. }
  split; [right; auto | eauto].
Qed.

(** X8: the constructor accepts an agent of dimension 1 whose [B] has
    [r] rows.  For [r <> 1] the first [propagate_input] with a
    one-entry control returns and leaves a state of [r] entries, and
    from then on every [propagate_input] raises ValueError. *)
Theorem one_dimensional_agent_state_grows (A0 B0 : Mat F) (s u : Vec F) :
  length s = 1 -> shape A0 = (1, 1) -> ncols B0 = 1 -> nrows B0 <> 1 ->
  length u = 1 ->
  exists a a',
    init A0 B0 1 s = Ok a
    /\ propagate_input a u = Ok a'
    /\ length (state a') = nrows B0
    /\ forall v, exists msg, propagate_input a' v = Raise (ValueError msg).
Proof.
  intros Hs HA HB Hr Hu. unfold shape in HA. injection HA as HAr HAc.
  unfold init, shape_eqb, shape; cbn [fst snd].
  rewrite Hs, HAr, HAc, HB. cbn. eexists _, _. split; [reflexivity|].
  unfold propagate_input; cbn [A B state agent_dim].
  unfold matvec. rewrite HAc, Hs, HB, Hu. cbn [Nat.eqb obind].
  unfold vadd, vzip. rewrite !length_map. fold (nrows A0) (nrows B0). rewrite HAr.
  unfold bcast_len.
  destruct (Nat.eqb_spec 1 (nrows B0)) as [E|_]; [congruence|]. cbn [Nat.eqb obind].
  split; [reflexivity|]. cbn [state A B]. rewrite length_map, length_seq.
  split; [reflexivity|]. intros v.
  unfold propagate_input, matvec; cbn [A B state agent_dim].
  rewrite ?HAc, ?length_map, ?length_seq.
  destruct (Nat.eqb_spec 1 (nrows B0)) as [E|_]; [congruence|]. cbn [obind].
  eauto.
Qed.

End Facts.
End agent_more.

Lemma constructed_agent_propagate_input_witness :
  match LinearAgentNd.propagate_input
          (LinearAgentNd.mk sample.I2 sample.I2 [1%Z; 2%Z] 2) [3%Z; 4%Z] with
  | Ok a' =>
      length [3%Z; 4%Z] = 2 /\ (nrows sample.I2 = 2 \/ nrows sample.I2 = 1 \/ 2 = 1)
      /\ length (LinearAgentNd.state a') = (if 2 =? 1 then nrows sample.I2 else 2)
  | Raise e =>
      (length [3%Z; 4%Z] <> 2
       \/ (nrows sample.I2 <> 2 /\ nrows sample.I2 <> 1 /\ 2 <> 1))
      /\ exists msg, e = ValueError msg
  end.
Proof.
  apply (@agent_more.constructed_agent_propagate_input Z _
           sample.I2 sample.I2 2 [1%Z; 2%Z] [3%Z; 4%Z]
           (LinearAgentNd.mk sample.I2 sample.I2 [1%Z; 2%Z] 2)).
  reflexivity.
Defined.

Lemma one_dimensional_agent_state_grows_witness :
  exists a a',
    LinearAgentNd.init sample.I1 sample.B21 1 [7%Z] = Ok a
    /\ LinearAgentNd.propagate_input a [3%Z] = Ok a'
    /\ length (LinearAgentNd.state a') = nrows sample.B21
    /\ forall v, exists msg,
         LinearAgentNd.propagate_input a' v = Raise (ValueError msg).
Proof.
  apply (@agent_more.one_dimensional_agent_state_grows Z _
           sample.I1 sample.B21 [7%Z] [3%Z]);
    try reflexivity.
  cbv; discriminate.
Defined.

(** ** Clusters *)

Module cluster_facts.
Import LinearClusterNd cluster_spec.
Section Facts.
Context {F : Type} `{Scalar F}.

Lemma firstn_snoc {X : Type} (l : list X) j d :
  j < length l -> firstn (S j) l = firstn j l ++ [nth j l d].
Proof.
  revert j. induction l as [|a l IH]; intros j Hj; cbn [length] in Hj; [lia|].
  destruct j as [|j]; [reflexivity|].
  cbn [firstn nth app]. f_equal. apply IH. lia.
Qed.

Lemma upd_next (L R : list (Vec F)) j :
  length R = length L -> j < length L ->
  system_spec.upd j (nth j L []) (firstn j L ++ skipn j R)
  = firstn (S j) L ++ skipn (S j) R.
Proof.
  intros HR Hj. unfold system_spec.upd.
  assert (Hf : length (firstn j L) = j) by (rewrite length_firstn; lia).
  rewrite firstn_app, Hf, Nat.sub_diag, firstn_O, app_nil_r.
  rewrite firstn_all2 by lia.
  rewrite skipn_app, Hf.
  rewrite (skipn_all2 (n:=S j) (firstn j L)) by lia.
  replace (S j - j) with 1 by lia. rewrite skipn_skipn. cbn [app Nat.add].
  rewrite (firstn_snoc L []) by lia.
  now rewrite <- app_assoc.
Qed.

(** The loop of [update_centroid], lines 69-70, from row [j] on. *)
Lemma centroid_loop (st : store F) refs n D cen (R : list (Vec F)) m j :
  length R = length refs -> j + m = length refs ->
  (forall r, In r refs -> exists a, find_agent r st = Some a
                                    /\ length (LinearAgentNd.state a) = D) ->
  for_each (seq j m)
    (fun idx =>
       ags <~ gets agents ;;
       ref <~ lift (match nth_error ags idx with
                    | Some r => Ok r
                    | None => Raise IndexError
                    end) ;;
       agent <~ lift (match find_agent ref st with
                      | Some a => Ok a
                      | None => Raise KeyError
                      end) ;;
       fcs <~ gets full_cluster_state ;;
       fcs' <~ lift (set_row fcs idx (LinearAgentNd.state agent)) ;;
       modify (set_full_cluster_state fcs'))
    (mk refs n (mkMat D (firstn j (map (system_spec.state_of st) refs) ++ skipn j R)) cen)
  = (Ok tt,
     mk refs n (mkMat D (firstn (j + m) (map (system_spec.state_of st) refs)
                         ++ skipn (j + m) R)) cen).
Proof.
  intros HR. revert j. induction m as [|m IH]; intros j Hjm Hrefs.
  - cbn [seq for_each]. now rewrite Nat.add_0_r.
  - cbn [seq for_each]. msimp. cbn [agents full_cluster_state].
    destruct (nth_error refs j) as [r|] eqn:Er;
      [|apply nth_error_None in Er; lia].
    msimp. destruct (Hrefs r (nth_error_In _ _ Er)) as (a & Ha & Hlen).
    rewrite Ha. msimp.
    assert (HL : length (map (system_spec.state_of st) refs) = length refs)
      by apply length_map.
    cbn [full_cluster_state]. rewrite set_row_ok.
    2:{ unfold nrows; cbn [rows]. rewrite length_app, length_firstn, length_skipn.
        unfold Vec in *. lia. }
    2:{ exact Hlen. }
    msimp.
    cbn [ncols rows set_full_cluster_state agents n_agents centroid full_cluster_state].
    assert (Hs : LinearAgentNd.state a
                 = nth j (map (system_spec.state_of st) refs) []).
    { rewrite (nth_map_in _ _ 0) by lia.
      unfold system_spec.state_of.
      rewrite (nth_error_nth _ _ 0 Er). now rewrite Ha. }
    rewrite Hs, upd_next by (unfold Vec in *; lia).
    rewrite IH by (assumption || lia).
    replace (S j + m) with (j + S m) by lia. reflexivity.
Qed.

(** [update_centroid] rebuilds the state matrix from the members, row
    by row in the order of the dictionary, and takes the column means. *)
Lemma update_centroid_ok (st : store F) D (c : t F) :
  cluster_ok D c ->
  (forall r, In r (agents c) -> exists a, find_agent r st = Some a
                                          /\ length (LinearAgentNd.state a) = D) ->
  update_centroid st c
  = (Ok (mean_axis0 (member_states st (agents c) D)), refreshed st (agents c) D).
Proof.
  intros (Hn & Hr & Hc) Hrefs. destruct c as [refs n fcs cen].
  cbn [agents n_agents full_cluster_state] in *. subst n.
  unfold update_centroid. msimp. cbn [n_agents]. rewrite py_range_0.
  destruct fcs as [nc R]. cbn [ncols] in Hc. subst nc. unfold nrows in Hr; cbn in Hr.
  pose proof (@centroid_loop st refs (length refs) D cen R (length refs) 0 Hr
                eq_refl Hrefs) as E.
  cbn [firstn skipn app Nat.add] in E.
  erewrite bind_ok by exact E. msimp.
  cbn [full_cluster_state set_centroid agents n_agents].
  rewrite firstn_all2 by (rewrite length_map; lia).
  rewrite skipn_all2 by (unfold Vec in *; lia). rewrite app_nil_r.
  reflexivity.
Qed.

Lemma init_form (st : store F) refs n D :
  (forall r, In r refs -> exists a, find_agent r st = Some a
                                    /\ length (LinearAgentNd.state a) = D) ->
  init st refs n D
  = if n =? length refs then Ok (refreshed st refs D) else Raise AssertionError.
Proof.
  intros Hrefs. unfold init.
  destruct (Nat.eqb_spec n (length refs)) as [->|_]; [|reflexivity].
  rewrite (@update_centroid_ok st D).
  - reflexivity.
  - unfold cluster_ok, zeros, nrows; cbn. rewrite repeat_length. auto.
  - exact Hrefs.
Qed.

(** X9: when every member is in the store with a state of [agent_dim]
    entries, the constructor of a cluster raises AssertionError unless
    [n_agents] is the number of members, and otherwise returns the
    cluster whose state matrix has the members' states as its rows, in
    the order of the dictionary, and whose centroid is the column mean
    of that matrix. *)
Theorem cluster_init_closed_form (st : store F) refs n D :
  (forall r, In r refs -> exists a, find_agent r st = Some a
                                    /\ length (LinearAgentNd.state a) = D) ->
  init st refs n D
  = if n =? length refs then Ok (refreshed st refs D) else Raise AssertionError.
Proof. exact (@init_form st refs n D). Qed.

(** *** [propagate_input] *)

Lemma agent_moves (a : LinearAgentNd.t F) (u : Vec F) D C :
  system_spec.wf_agent D C a -> length u = C ->
  LinearAgentNd.propagate_input a u = Ok (moved u a)
  /\ system_spec.wf_agent D C (moved u a).
Proof.
  intros ((HAr & HAc & HAw) & (HBr & HBc & HBw) & Hs) Hu.
  unfold moved, LinearAgentNd.propagate_input.
  rewrite matvec_ok by congruence. cbn [obind].
  rewrite matvec_ok by congruence. cbn [obind].
  unfold vadd.
  rewrite vzip_same_length by (rewrite !length_map; unfold nrows in *; congruence).
  cbn [obind]. split; [reflexivity|].
  unfold system_spec.wf_agent, has_shape; cbn.
  rewrite length_map, length_seq, length_map. unfold nrows in *. auto 10.
Qed.

Lemma moved_all_nil (u : Vec F) (st : store F) : moved_all u [] st st.
Proof.
  split; [reflexivity|]. intros k. destruct (find_agent k st); reflexivity.
Qed.

Lemma moved_all_cons (u : Vec F) r l (st st' : store F) a :
  ~ In r l -> find_agent r st = Some a ->
  moved_all u l (put_agent r (moved u a) st) st' ->
  moved_all u (r :: l) st st'.
Proof.
  intros Hr Ha (Hk & Hf). split.
  - rewrite Hk. apply system_facts.keys_put_agent.
  - intros k. rewrite Hf, system_facts.find_put_agent.
    destruct (Nat.eqb_spec k r) as [->|Hne].
    + rewrite Ha. cbn [option_map].
      destruct (in_dec Nat.eq_dec r l) as [Hin|_]; [contradiction|].
      destruct (in_dec Nat.eq_dec r (r :: l)) as [_|Hn]; [reflexivity|].
      exfalso. apply Hn. now left.
    + destruct (find_agent k st) as [b|]; [|reflexivity]. cbn [option_map].
      destruct (in_dec Nat.eq_dec k l) as [Hin|Hnin];
        destruct (in_dec Nat.eq_dec k (r :: l)) as [Hin'|Hnin']; try reflexivity.
      * exfalso. apply Hnin'. now right.
      * destruct Hin' as [E|Hin']; [congruence | contradiction].
Qed.

(** The loop of lines 63-64 over members that accept the control. *)
Lemma move_loop (u : Vec F) D C (c : t F) l (st : store F) :
  NoDup l -> length u = C ->
  (forall r, In r l -> exists a, find_agent r st = Some a
                                 /\ system_spec.wf_agent D C a) ->
  exists st',
    for_each l
      (fun ref =>
         on_store (on_agent ref (fun a => LinearAgentNd.propagate_input a u)))
      (st, c)
    = (Ok tt, (st', c))
    /\ moved_all u l st st'.
Proof.
  intros Hnd Hu. revert st. induction l as [|r l IH]; intros st Hl.
  - exists st. split; [reflexivity | apply moved_all_nil].
  - apply NoDup_cons_iff in Hnd. destruct Hnd as (Hr & Hnd').
    destruct (Hl r (or_introl eq_refl)) as (a & Ha & Hwf).
    destruct (@agent_moves a u D C Hwf Hu) as (Em & Hwf').
    cbn [for_each].
    assert (E1 : on_store (on_agent r (fun a => LinearAgentNd.propagate_input a u))
                   (st, c)
                 = (Ok tt, (put_agent r (moved u a) st, c))).
    { unfold on_store, on_agent. cbn [fst snd]. now rewrite Ha, Em. }
    erewrite bind_ok by exact E1.
    destruct (IH Hnd' (put_agent r (moved u a) st)) as (st' & E & Hm).
    + intros r' Hr'. rewrite system_facts.find_put_agent.
      destruct (Nat.eqb_spec r' r) as [->|Hne]; [contradiction|].
      apply Hl. now right.
    + exists st'. split; [exact E|]. eapply moved_all_cons; eauto.
Qed.

(** X10: [propagate_input] of a cluster gives the control to every
    member and to no other agent of the system, keeps the dictionary of
    agents as it is, and leaves the cluster with the members' new states
    as the rows of its state matrix and their column mean as centroid. *)
Theorem cluster_propagate_input_spec (u : Vec F) D C (st : store F) (c : t F) :
  NoDup (agents c) -> cluster_ok D c -> length u = C ->
  (forall r, In r (agents c) -> exists a, find_agent r st = Some a
                                          /\ system_spec.wf_agent D C a) ->
  exists st',
    propagate_input u (st, c) = (Ok tt, (st', refreshed st' (agents c) D))
    /\ moved_all u (agents c) st st'.
Proof.
  intros Hnd Hok Hu Hrefs.
  destruct (@move_loop u D C c (agents c) st Hnd Hu Hrefs) as (st' & E & Hm).
  exists st'. split; [|exact Hm].
  unfold propagate_input. msimp. cbn [snd].
  erewrite bind_ok by exact E. msimp.
  assert (Ec : on_self update_centroid (st', c)
               = (Ok (mean_axis0 (member_states st' (agents c) D)),
                  (st', refreshed st' (agents c) D))).
  { unfold on_self. cbn [fst snd]. rewrite (@update_centroid_ok st' D c Hok).
    - reflexivity.
    - intros r Hr. destruct (Hrefs r Hr) as (a & Ha & Hwf).
      destruct Hm as (_ & Hf). rewrite Hf, Ha. cbn [option_map].
      destruct (in_dec Nat.eq_dec r (agents c)) as [_|Hn]; [|contradiction].
      eexists. split; [reflexivity|].
      destruct (@agent_moves a u D C Hwf Hu) as (_ & (_ & _ & Hlen)). exact Hlen. }
  erewrite bind_ok by exact Ec. reflexivity.
Qed.

Lemma for_each_app {S X : Type} (l1 l2 : list X) (body : X -> M S unit) s :
  for_each (l1 ++ l2) body s = bind (for_each l1 body) (fun _ => for_each l2 body) s.
Proof.
  revert s. induction l1 as [|i l1 IH]; intros s; cbn [app for_each].
  - reflexivity.
  - rewrite bind_bind.
    destruct (body i s) as [[[]|e] s1] eqn:E.
    + rewrite !(bind_ok _ _ _ E). apply IH.
    + now rewrite !(bind_fail _ _ _ E).
Qed.

(** X11: [propagate_input] of a cluster does not roll back.  When a
    member refuses the control, the exception leaves the method; the
    members before it in the dictionary keep their new states, the
    others are untouched, and the state matrix and the centroid of the
    cluster are the ones from before the call. *)
Theorem cluster_propagate_input_no_rollback
        (u : Vec F) D C (st : store F) (c : t F) done r rest a e :
  agents c = done ++ r :: rest -> NoDup (agents c) -> length u = C ->
  (forall r', In r' done -> exists a', find_agent r' st = Some a'
                                       /\ system_spec.wf_agent D C a') ->
  find_agent r st = Some a ->
  LinearAgentNd.propagate_input a u = Raise e ->
  exists st',
    propagate_input u (st, c) = (Raise e, (st', c))
    /\ moved_all u done st st'.
Proof.
  intros Hags Hnd Hu Hdone Ha He.
  rewrite Hags in Hnd.
  assert (Hnd1 : NoDup done) by (eapply NoDup_app_remove_r; exact Hnd).
  assert (Hr : ~ In r done).
  { intros Hin. apply NoDup_remove_2 in Hnd. apply Hnd, in_app_iff. now left. }
  destruct (@move_loop u D C c done st Hnd1 Hu Hdone) as (st' & E & Hm).
  exists st'. split; [|exact Hm].
  unfold propagate_input. msimp. cbn [snd]. rewrite Hags.
  apply bind_fail. rewrite for_each_app. erewrite bind_ok by exact E.
  cbn [for_each]. apply bind_fail.
  unfold on_store, on_agent. cbn [fst snd].
  destruct Hm as (_ & Hf). rewrite Hf, Ha. cbn [option_map].
  destruct (in_dec Nat.eq_dec r done) as [Hin|_]; [contradiction|].
  now rewrite He.
Qed.

End Facts.
End cluster_facts.

Lemma cluster_propagate_input_spec_witness :
  exists st',
    LinearClusterNd.propagate_input [1%Z; 1%Z]
      (sample.agents0, cluster_spec.refreshed sample.agents0 [0; 1] 2)
    = (Ok tt, (st', cluster_spec.refreshed st' [0; 1] 2))
    /\ cluster_spec.moved_all [1%Z; 1%Z] [0; 1] sample.agents0 st'.
Proof.
  apply (@cluster_facts.cluster_propagate_input_spec Z _ [1%Z; 1%Z] 2 2
           sample.agents0 (cluster_spec.refreshed sample.agents0 [0; 1] 2)).
  - repeat constructor; cbn; intuition lia.
  - repeat split.
  - reflexivity.
  - intros r Hr. cbn in Hr.
    destruct Hr as [<-|[<-|[]]]; (eexists; split; [reflexivity|]);
      repeat split; repeat constructor.
Defined.

Lemma cluster_init_closed_form_witness :
  LinearClusterNd.init sample.agents0 [0; 1] 2 2
  = if 2 =? length [0; 1]
    then Ok (cluster_spec.refreshed sample.agents0 [0; 1] 2)
    else Raise AssertionError.
Proof.
  apply (@cluster_facts.cluster_init_closed_form Z _ sample.agents0 [0; 1] 2 2).
  intros r Hr. cbn in Hr.
  destruct Hr as [<-|[<-|[]]]; eexists; split; reflexivity.
Defined.

Lemma cluster_propagate_input_no_rollback_witness :
  exists st',
    LinearClusterNd.propagate_input [1%Z; 1%Z]
      ([(0, LinearAgentNd.mk sample.I2 sample.I2 [0%Z; 0%Z] 2);
        (1, LinearAgentNd.mk sample.I2
              (mkMat 2 [[1%Z; 0%Z]; [0%Z; 1%Z]; [1%Z; 1%Z]]) [1%Z; 1%Z] 2)],
       LinearClusterNd.mk [0; 1] 2 (zeros 2 2) [])
    = (Raise (ValueError "operands could not be broadcast together"),
       (st', LinearClusterNd.mk [0; 1] 2 (zeros 2 2) []))
    /\ cluster_spec.moved_all [1%Z; 1%Z] [0]
         [(0, LinearAgentNd.mk sample.I2 sample.I2 [0%Z; 0%Z] 2);
          (1, LinearAgentNd.mk sample.I2
                (mkMat 2 [[1%Z; 0%Z]; [0%Z; 1%Z]; [1%Z; 1%Z]]) [1%Z; 1%Z] 2)]
         st'.
Proof.
  apply (@cluster_facts.cluster_propagate_input_no_rollback Z _ [1%Z; 1%Z] 2 2
           [(0, LinearAgentNd.mk sample.I2 sample.I2 [0%Z; 0%Z] 2);
            (1, LinearAgentNd.mk sample.I2
                  (mkMat 2 [[1%Z; 0%Z]; [0%Z; 1%Z]; [1%Z; 1%Z]]) [1%Z; 1%Z] 2)]
           (LinearClusterNd.mk [0; 1] 2 (zeros 2 2) []) [0] 1 []
           (LinearAgentNd.mk sample.I2
              (mkMat 2 [[1%Z; 0%Z]; [0%Z; 1%Z]; [1%Z; 1%Z]]) [1%Z; 1%Z] 2)
           (ValueError "operands could not be broadcast together")).
  - reflexivity.
  - repeat constructor; cbn; intuition lia.
  - reflexivity.
  - intros r Hr. cbn in Hr.
    destruct Hr as [<-|[]]. eexists. split; [reflexivity|].
    repeat split; repeat constructor.
  - reflexivity.
  - reflexivity.
Defined.

(** ** The orchestrator *)

Module system_more.
Import MultiAgentSystem system_spec.
Section Facts.
Context {F : Type} `{Scalar F}.
Variable ext : externals F.

(** *** [_re_eval_clusters], lines 138-148 *)

Import clustering_spec.

(** The loop of lines 141-148, from cluster [j] on. *)
Lemma cluster_loop (ls : list Z) (w : world F) m j :
  (forall i, i < length ls ->
             exists a, find_agent i (agents (self w)) = Some a
                       /\ length (LinearAgentNd.state a) = agent_dim (self w)) ->
  for_each (seq j m)
    (fun cdx =>
       labels <~ getf clust_labels ;;
       let agent_indices := where_eq labels (Z.of_nat cdx) in
       let n_agents_clust := length agent_indices in
       ags <~ getf agents ;;
       refs <~ lift (agent_refs ags agent_indices) ;;
       d <~ getf agent_dim ;;
       cluster <~ lift (LinearClusterNd.init ags refs n_agents_clust d) ;;
       cs <~ getf clusters ;;
       setf (set_clusters (cs ++ [(cdx, cluster)])) ;;;
       ccs <~ getf cluster_centroids ;;
       setf (set_cluster_centroids (ccs ++ [(cdx, LinearClusterNd.centroid cluster)])))
    (on_sys (with_clusters ls j) w)
  = (Ok tt, on_sys (with_clusters ls (j + m)) w).
Proof.
  intros Hls. revert j. induction m as [|m IH]; intros j.
  - cbn [seq for_each]. now rewrite Nat.add_0_r.
  - cbn [seq for_each]. msimp.
    cbn [with_clusters clust_labels agents agent_dim clusters cluster_centroids
         set_cluster_centroids set_clusters set_n_clusters set_clust_labels].
    assert (Hfound : forall i, In i (where_eq ls (Z.of_nat j)) ->
                       exists a, find_agent i (agents (self w)) = Some a
                                 /\ length (LinearAgentNd.state a)
                                    = agent_dim (self w)).
    { intros i Hi. apply Hls. eapply system_facts.in_where_eq. exact Hi. }
    rewrite system_facts.agent_refs_ok
      by (intros i Hi; destruct (Hfound i Hi) as (a & Ha & _); eauto).
    msimp.
    cbn [with_clusters clust_labels agents agent_dim clusters cluster_centroids
         set_cluster_centroids set_clusters set_n_clusters set_clust_labels].
    rewrite (@cluster_facts.init_form F _ _ _ _ _ Hfound), Nat.eqb_refl. msimp.
    cbn [with_clusters clust_labels agents agent_dim clusters cluster_centroids
         set_cluster_centroids set_clusters set_n_clusters set_clust_labels].
    replace (j + S m) with (S j + m) by lia. rewrite <- IH. f_equal.
    unfold with_clusters, on_sys, clusters_of, centroids_of.
    cbn [self trace ticks clust_labels agents agent_dim clusters cluster_centroids
         set_cluster_centroids set_clusters set_n_clusters set_clust_labels
         n_agents control_dim full_system_state system_goal clust_algo
         clust_algo_params avg_goal_dist control_solution_time n_clusters].
    rewrite seq_S, !map_app. reflexivity.
Qed.

Lemma n_clusters_of_cons l0 (ls : list Z) :
  n_clusters_of (l0 :: ls) = (fold_left Z.max ls l0 + 1)%Z.
Proof. reflexivity. Qed.

(** With one label per agent, [_re_eval_clusters] builds one cluster
    per label value [0 .. max], in that order, from the agents that
    carry the label. *)
Lemma re_eval_clusters_form (w : world F) ls :
  wf_system (self w) ->
  identify_clusters ext (clust_algo (self w)) (clust_algo_params (self w))
    (full_system_state (self w)) = Ok ls ->
  length ls = n_agents (self w) ->
  _re_eval_clusters ext w = (Ok tt, on_sys (clustered ls) w).
Proof.
  intros (Hnd & Hkeys & Hags & Hnr & Hnc & Hgoal & Hpos) Els Hlen.
  unfold _re_eval_clusters. msimp. rewrite Els. msimp.
  cbn [clust_labels set_clust_labels].
  destruct ls as [|l0 ls]; [cbn in Hlen; lia|].
  cbn [py_max]. msimp. cbn [n_clusters set_n_clusters set_clusters set_cluster_centroids].
  rewrite py_range_0. unfold clustered. rewrite n_clusters_of_cons.
  match goal with
  | |- for_each _ _ ?w0 = _ =>
      change w0 with (on_sys (with_clusters (l0 :: ls) 0) w)
  end.
  rewrite cluster_loop; [reflexivity|].
  intros i Hi. rewrite Hlen in Hi. apply Hkeys in Hi.
  destruct (system_facts.in_find_agent _ _ Hi) as (a & Ha).
  exists a. split; [exact Ha|]. now destruct (Hags _ _ Ha) as (_ & _ & Hs).
Qed.

(** X12: with one label per agent, [_re_eval_clusters] stores the
    labels, sets [n_clusters] to [max(labels) + 1] and rebuilds both
    dictionaries with the keys [0 .. n_clusters - 1] in order: cluster
    [cdx] holds the agents labelled [cdx], in index order, with their
    states as the rows of its state matrix and their column mean as
    centroid.  Nothing else in the system changes. *)
Theorem re_eval_clusters_closed_form (w : world F) ls :
  wf_system (self w) ->
  identify_clusters ext (clust_algo (self w)) (clust_algo_params (self w))
    (full_system_state (self w)) = Ok ls ->
  length ls = n_agents (self w) ->
  _re_eval_clusters ext w = (Ok tt, on_sys (clustered ls) w).
Proof. exact (@re_eval_clusters_form w ls). Qed.

Lemma find_cluster_tabulate (f : nat -> LinearClusterNd.t F) n cdx :
  find_cluster cdx (map (fun c => (c, f c)) (seq 0 n))
  = if cdx <? n then Some (f cdx) else None.
Proof.
  induction n as [|n IH].
  - reflexivity.
  - rewrite seq_S, map_app. cbn [Nat.add map].
    assert (Happ : forall l1 l2 : list (nat * LinearClusterNd.t F),
               find_cluster cdx (l1 ++ l2)
               = match find_cluster cdx l1 with
                 | Some c => Some c
                 | None => find_cluster cdx l2
                 end).
    { induction l1 as [|[k c] l1 IH1]; intros l2; cbn [app find_cluster];
        [reflexivity|]. destruct (cdx =? k); [reflexivity | apply IH1]. }
    rewrite Happ, IH. cbn [find_cluster].
    destruct (Nat.ltb_spec cdx n); destruct (Nat.ltb_spec cdx (S n)); try lia;
      try reflexivity.
    + assert (cdx = n) by lia. subst. now rewrite Nat.eqb_refl.
    + destruct (Nat.eqb_spec cdx n); [lia | reflexivity].
Qed.

Lemma fold_max_init (ls : list Z) a : (a <= fold_left Z.max ls a)%Z.
Proof.
  revert a. induction ls as [|l ls IH]; intros a; cbn [fold_left]; [lia|].
  specialize (IH (Z.max a l)). lia.
Qed.

Lemma fold_max_ge (ls : list Z) l0 x :
  In x (l0 :: ls) -> (x <= fold_left Z.max ls l0)%Z.
Proof.
  intros [->|Hin]; [apply fold_max_init|].
  revert l0. induction ls as [|l ls IH]; intros l0; cbn [fold_left]; [destruct Hin|].
  destruct Hin as [->|Hin].
  - pose proof (fold_max_init ls (Z.max l0 x)). lia.
  - now apply IH.
Qed.

Lemma in_where_eq_iff (ls : list Z) cdx i :
  In i (where_eq ls cdx) <-> i < length ls /\ nth i ls 0%Z = cdx.
Proof.
  unfold where_eq. rewrite filter_In, in_seq, Z.eqb_eq. intuition lia.
Qed.

(** X13: after [_re_eval_clusters] an agent belongs to the cluster
    stored under [cdx] exactly when its label is [cdx]: every agent
    with a non-negative label is in exactly one cluster, and an agent
    labelled [-1] (noise, for hdbscan) is in none. *)
Theorem clusters_partition_by_label (w : world F) ls :
  wf_system (self w) ->
  identify_clusters ext (clust_algo (self w)) (clust_algo_params (self w))
    (full_system_state (self w)) = Ok ls ->
  length ls = n_agents (self w) ->
  exists w',
    _re_eval_clusters ext w = (Ok tt, w')
    /\ forall i cdx,
         (exists c, find_cluster cdx (clusters (self w')) = Some c
                    /\ In i (LinearClusterNd.agents c))
         <-> i < n_agents (self w) /\ nth i ls 0%Z = Z.of_nat cdx.
Proof.
  intros Hwf Els Hlen. eexists. split; [apply re_eval_clusters_form; eassumption|].
  intros i cdx. cbn [on_sys self]. unfold clustered, with_clusters.
  cbn [clusters set_cluster_centroids set_clusters]. unfold clusters_of.
  rewrite find_cluster_tabulate. rewrite <- Hlen. split.
  - intros (c & Hc & Hin).
    destruct (Nat.ltb_spec cdx (Z.to_nat (n_clusters_of ls))); [|discriminate].
    injection Hc as <-. unfold cluster_of, cluster_spec.refreshed in Hin.
    cbn [LinearClusterNd.agents] in Hin. now apply in_where_eq_iff in Hin.
  - intros (Hi & Hl).
    assert (Hcdx : cdx < Z.to_nat (n_clusters_of ls)).
    { destruct ls as [|l0 ls']; [cbn in Hi; lia|]. rewrite n_clusters_of_cons.
      assert (Hle : (nth i (l0 :: ls') 0 <= fold_left Z.max ls' l0)%Z)
        by (apply fold_max_ge, nth_In; exact Hi).
      lia. }
    destruct (Nat.ltb_spec cdx (Z.to_nat (n_clusters_of ls))); [|lia].
    eexists. split; [reflexivity|].
    unfold cluster_of, cluster_spec.refreshed. cbn [LinearClusterNd.agents].
    now apply in_where_eq_iff.
Qed.

(** *** [_re_eval_system] and [__init__] *)

Lemma re_eval_system_form (w : world F) :
  wf_system (self w) -> labelling_ok ext (self w) ->
  exists ls,
    identify_clusters ext (clust_algo (self w)) (clust_algo_params (self w))
      (full_system_state
         (self (gathered (mkWorld (self w) (trace w ++ [EvReEval]) (ticks w)))))
    = Ok ls
    /\ length ls = n_agents (self w)
    /\ _re_eval_system ext w
       = (Ok tt,
          on_sys (clustered ls)
            (gathered (mkWorld (self w) (trace w ++ [EvReEval]) (ticks w))))
    /\ consistent
         (self (gathered (mkWorld (self w) (trace w ++ [EvReEval]) (ticks w)))).
Proof.
  intros Hwf Hlab.
  set (wl := mkWorld (self w) (trace w ++ [EvReEval]) (ticks w)).
  destruct (system_facts.gather_agent_states_ok wl Hwf)
    as (Eg & Hcons & _ & _ & _ & _).
  pose proof Hcons as (Hrows & _).
  assert (Hnr : nrows (full_system_state (self (gathered wl))) = n_agents (self w)).
  { unfold nrows. rewrite Hrows, length_map, length_seq. reflexivity. }
  assert (Hwf1 : wf_system (self (gathered wl))).
  { apply (system_facts.wf_system_transfer (s:=self w)); auto.
    unfold gathered, scatter; cbn. apply Hwf. }
  destruct (Hlab _ Hnr) as (ls & Els & Hlen).
  exists ls. split; [exact Els|]. split; [exact Hlen|]. split; [|exact Hcons].
  unfold _re_eval_system. msimp. fold wl.
  erewrite bind_ok by exact Eg.
  apply re_eval_clusters_form; assumption.
Qed.

(** X14: on a well-formed system [_re_eval_system] first copies every
    agent's state into its row of the state matrix and recomputes the
    average goal distance, and only then clusters: the labels are those
    of the new state matrix, and the clusters are built from them.  The
    agents, the configuration and the solve time are as before. *)
Theorem re_eval_system_spec (w : world F) :
  wf_system (self w) -> labelling_ok ext (self w) ->
  exists ls w',
    _re_eval_system ext w = (Ok tt, w')
    /\ re_evaluated w w'
    /\ identify_clusters ext (clust_algo (self w)) (clust_algo_params (self w))
         (full_system_state (self w')) = Ok ls
    /\ clustering (self w')
       = (ls, n_clusters_of ls,
          clusters_of (agents (self w)) ls (agent_dim (self w))
            (Z.to_nat (n_clusters_of ls)),
          centroids_of (agents (self w)) ls (agent_dim (self w))
            (Z.to_nat (n_clusters_of ls))).
Proof.
  intros Hwf Hlab.
  destruct (re_eval_system_form w Hwf Hlab) as (ls & Els & Hlen & E & Hrows & Hdist).
  exists ls. eexists. split; [exact E|].
  split; [|split; [exact Els | reflexivity]].
  unfold re_evaluated, consistent. cbn.
  repeat split; auto.
Qed.

(** X15: when the state generator returns a well-formed dictionary of
    agents and the clustering answers, [__init__] returns a system
    that holds these agents and the given configuration, with a solve
    time of zero, and whose state matrix and average goal distance
    agree with the agents: the zero matrix and the infinite distance
    of lines 100 and 105 do not survive the constructor. *)
Theorem init_establishes_consistency n d c (goal : Vec F)
        (state_gen : state_generator) args algo params w0 ags :
  state_gen LinearAgentNd.init d n args = Ok ags ->
  wf_system (new_system n d c goal ags algo params) ->
  labelling_ok ext (new_system n d c goal ags algo params) ->
  exists w',
    init ext n d c goal state_gen args algo params w0 = (Ok tt, w')
    /\ agents (self w') = ags
    /\ (n_agents (self w'), agent_dim (self w'), control_dim (self w'),
        system_goal (self w'), clust_algo (self w'), clust_algo_params (self w'))
       = (n, d, c, goal, algo, params)
    /\ control_solution_time (self w') = f0
    /\ consistent (self w')
    /\ trace w' = fst w0 ++ [EvReEval] /\ ticks w' = snd w0.
Proof.
  intros Egen Hwf Hlab. unfold init. rewrite Egen.
  destruct (system_facts.re_eval_system_ok
              (mkWorld (new_system n d c goal ags algo params) (fst w0) (snd w0))
              Hwf Hlab)
    as (w' & E & (Ea & En & Ed & Ec & Eg & Eal & Ep & Et & Htr & Htk & Hcons) & _).
  cbn in Ea, En, Ed, Ec, Eg, Eal, Ep, Et, Htr, Htk.
  exists w'. split; [exact E|]. split; [exact Ea|].
  split; [congruence|]. auto.
Qed.

(** X16: a parameter list that does not fit the configured algorithm
    stops [_re_eval_clusters] before the clustering library is called
    and before anything is assigned: ['hierarchy'] without a threshold
    raises IndexError, ['hdbscan'] with other than three parameters
    raises ValueError. *)
Theorem re_eval_clusters_bad_parameters (w : world F) :
  (clust_algo (self w) = "hierarchy" /\ clust_algo_params (self w) = [])
  \/ (clust_algo (self w) = "hdbscan" /\ length (clust_algo_params (self w)) <> 3) ->
  exists e,
    _re_eval_clusters ext w = (Raise e, w)
    /\ (if String.eqb (clust_algo (self w)) "hierarchy"
        then e = IndexError
        else exists msg, e = ValueError msg).
Proof.
  intros [(Ha & Hp)|(Ha & Hp)]; unfold _re_eval_clusters; msimp;
    unfold identify_clusters; rewrite Ha; cbn [String.eqb Ascii.eqb Bool.eqb].
  - rewrite Hp. cbn [obind]. msimp. eauto.
  - destruct (clust_algo_params (self w)) as [|a [|b [|c [|d l]]]];
      cbn [length] in Hp; try lia; cbn [obind]; msimp; eauto.
Qed.

(** X17: when the solver raises, [update_system_mpc] lets the exception
    through after one reading of the clock: no agent has moved, the
    solve time is not accounted, and the system is not re-evaluated. *)
Theorem update_system_mpc_solver_raises (Q R P : Mat F) n_t
        (umax umin : option (Mat F)) (w : world F) e :
  wf_system (self w) ->
  use_modeling_tool ext (block_diag_A (self w)) (block_diag_B (self w)) n_t Q R P
    (flatten (full_system_state (self w)))
    (Some (kron (ones (n_agents (self w))) (system_goal (self w)))) umax umin
  = Raise e ->
  update_system_mpc ext Q R P n_t umax umin w
  = (Raise e,
     mkWorld (self w)
       (trace w ++ [EvSolve (block_diag_A (self w)) (block_diag_B (self w)) n_t Q R P
                      (flatten (full_system_state (self w)))
                      (Some (kron (ones (n_agents (self w))) (system_goal (self w))))
                      umax umin])
       (S (ticks w))).
Proof.
  intros Hwf Hsolve. unfold update_system_mpc. msimp.
  rewrite (system_facts.joint_dynamics_ok Hwf). msimp.
  unfold solve. msimp. rewrite Hsolve. msimp. reflexivity.
Qed.

(** X18: when the solver returns no trajectory ([x.value] is [None]),
    [update_system_mpc] raises TypeError at the first agent: the solve
    time has been accounted and the clock read twice, but no agent has
    moved and the system is not re-evaluated. *)
Theorem update_system_mpc_no_solution (Q R P : Mat F) n_t
        (umax umin : option (Mat F)) (w : world F) U cost :
  wf_system (self w) ->
  use_modeling_tool ext (block_diag_A (self w)) (block_diag_B (self w)) n_t Q R P
    (flatten (full_system_state (self w)))
    (Some (kron (ones (n_agents (self w))) (system_goal (self w)))) umax umin
  = Ok (None, U, cost) ->
  update_system_mpc ext Q R P n_t umax umin w
  = (Raise TypeError,
     mkWorld
       (set_control_solution_time
          (fadd (control_solution_time (self w))
                (fsub (time_time ext (S (ticks w))) (time_time ext (ticks w))))
          (self w))
       (trace w ++ [EvSolve (block_diag_A (self w)) (block_diag_B (self w)) n_t Q R P
                      (flatten (full_system_state (self w)))
                      (Some (kron (ones (n_agents (self w))) (system_goal (self w))))
                      umax umin])
       (S (S (ticks w)))).
Proof.
  intros Hwf Hsolve. pose proof Hwf as (_ & Hkeys & _ & _ & _ & _ & Hpos).
  unfold update_system_mpc. msimp.
  rewrite (system_facts.joint_dynamics_ok Hwf). msimp.
  unfold solve. msimp. rewrite Hsolve. msimp.
  cbn [control_solution_time set_control_solution_time agents agent_dim].
  destruct (agents (self w)) as [|[k a] ags] eqn:Eags.
  - exfalso. exact (proj2 (Hkeys 0) Hpos).
  - cbn [map fst for_each terminal_slice]. msimp. reflexivity.
Qed.

(** *** [update_system_mpc_distributed]: a solve that fails *)

Lemma for_fold_app {S X Acc : Type} (l1 l2 : list X) (body : X -> Acc -> M S Acc)
      acc s :
  for_fold (l1 ++ l2) body acc s
  = bind (for_fold l1 body acc) (fun acc' => for_fold l2 body acc') s.
Proof.
  revert acc s. induction l1 as [|i l1 IH]; intros acc s; cbn [app for_fold].
  - reflexivity.
  - rewrite bind_bind.
    destruct (body i acc s) as [[acc1|e] s1] eqn:E.
    + rewrite !(bind_ok _ _ _ E). apply IH.
    + now rewrite !(bind_fail _ _ _ E).
Qed.

(** X19: [update_system_mpc_distributed] stops at the first agent whose
    problem the solver does not solve, with the solver's exception or,
    when the solver returns no trajectory, with TypeError.  The agents
    before it in the dictionary have been given their new states and
    the system has been re-evaluated after each of them; the failing
    agent and the agents after it are untouched, and the time spent is
    not added to [control_solution_time]. *)
Theorem update_system_mpc_distributed_stops_at_failure
        (Q R P : Mat F) n_t (umax umin : option (Mat F)) (w : world F)
        done k a rest e :
  wf_system (self w) -> labelling_ok ext (self w) ->
  agents (self w) = done ++ (k, a) :: rest ->
  (forall k' a', In (k', a') done ->
                 solvable ext Q R P n_t umax umin (system_goal (self w))
                   (agent_dim (self w)) a') ->
  solved ext Q R P n_t umax umin (system_goal (self w)) a = Raise e
  \/ (exists U c, solved ext Q R P n_t umax umin (system_goal (self w)) a
                  = Ok (None, U, c)
                  /\ e = TypeError) ->
  exists w1,
    rounds_done ext Q R P n_t umax umin (system_goal (self w)) done
      (mkWorld (self w) (trace w) (S (ticks w))) w1
    /\ update_system_mpc_distributed ext Q R P n_t umax umin w
       = (Raise e,
          mkWorld (self w1)
            (trace w1 ++ [EvSolve (LinearAgentNd.A a) (LinearAgentNd.B a) n_t Q R P
                            (LinearAgentNd.state a) (Some (system_goal (self w)))
                            umax umin])
            (ticks w1)).
Proof.
  intros Hwf Hlab Hags Hdone Hfail.
  pose proof Hwf as (Hnd & _).
  set (w0 := mkWorld (self w) (trace w) (S (ticks w))).
  assert (Hnd' : NoDup (map fst done ++ k :: map fst rest)).
  { rewrite Hags, map_app in Hnd. exact Hnd. }
  assert (Hnd1 : NoDup (map fst done)) by (eapply NoDup_app_remove_r; exact Hnd').
  assert (Hk : ~ In k (map fst done)).
  { intros Hin. apply NoDup_remove_2 in Hnd'. apply Hnd', in_app_iff. now left. }
  assert (Hin : forall k' a', In (k', a') (done ++ (k, a) :: rest) ->
                              find_agent k' (agents (self w)) = Some a').
  { intros k' a' Hi. apply system_facts.NoDup_find_agent; [exact Hnd|].
    rewrite Hags. exact Hi. }
  destruct (@system_facts.distributed_loop F _ ext Q R P n_t umax umin
              (system_goal (self w)) (agent_dim (self w)) done w0 f0
              eq_refl eq_refl Hwf Hlab Hnd1)
    as (w1 & E1 & Hrd & _ & _).
  { intros k' a' Hi. split; [|now apply (Hdone k' a')].
    apply Hin, in_app_iff. now left. }
  exists w1. split; [exact Hrd|].
  destruct Hrd as (_ & _ & _ & Eg & _ & _ & _ & _ & _ & _ & Hfind & _).
  cbn [self w0] in Eg, Hfind.
  assert (Ha1 : find_agent k (agents (self w1)) = Some a).
  { rewrite Hfind, (Hin k a) by (apply in_app_iff; right; now left).
    cbn [option_map].
    destruct (in_dec Nat.eq_dec k (map fst done)); [contradiction | reflexivity]. }
  unfold update_system_mpc_distributed. msimp. fold w0. cbn [self w0].
  rewrite Hags, map_app. cbn [map fst].
  apply bind_fail. rewrite for_fold_app.
  erewrite bind_ok by exact E1.
  cbn [for_fold]. unfold solve_round. msimp.
  erewrite bind_ok by (apply system_facts.the_agent_ok; exact Ha1). msimp.
  rewrite Eg. unfold solve. msimp. unfold solved in Hfail.
  destruct Hfail as [Hs|(U & c & Hs & ->)]; rewrite Hs; msimp; reflexivity.
Qed.

(** *** The solve time *)

(** X20: a call of [update_system_mpc] that returns reads the clock
    twice and adds the difference of the two readings to
    [control_solution_time]. *)
Theorem update_system_mpc_solve_time (Q R P : Mat F) n_t
        (umax umin : option (Mat F)) (w : world F) (X : Mat F) U cost :
  wf_system (self w) -> labelling_ok ext (self w) ->
  use_modeling_tool ext (block_diag_A (self w)) (block_diag_B (self w)) n_t Q R P
    (flatten (full_system_state (self w)))
    (Some (kron (ones (n_agents (self w))) (system_goal (self w)))) umax umin
  = Ok (Some X, U, cost) ->
  nrows X = n_agents (self w) * agent_dim (self w) ->
  0 < ncols X ->
  exists w',
    update_system_mpc ext Q R P n_t umax umin w
    = (Ok (avg_goal_dist (self w'), cost), w')
    /\ control_solution_time (self w')
       = fadd (control_solution_time (self w))
              (fsub (time_time ext (S (ticks w))) (time_time ext (ticks w)))
    /\ ticks w' = S (S (ticks w)).
Proof.
  intros Hwf Hlab Hsolve HXr HXc.
  pose proof Hwf as (Hnd & Hkeys & Hags & Hnr & Hnc & Hgoal & Hpos).
  unfold update_system_mpc. msimp.
  rewrite (system_facts.joint_dynamics_ok Hwf). msimp.
  unfold solve. msimp. rewrite Hsolve. msimp.
  cbn [control_solution_time set_control_solution_time agents agent_dim].
  match goal with
  | |- exists w', bind (for_each _ _) _ ?w2t = _ /\ _ =>
      set (w2 := w2t);
      destruct (system_facts.commit_loop X (D:=agent_dim (self w))
                  (map fst (agents (self w))) w2 HXc)
        as (w3 & E3 & Hcm)
  end.
  { intros k Hk. split.
    - apply Hkeys in Hk. rewrite HXr. nia.
    - destruct (system_facts.in_find_agent _ _ Hk) as (a & Ha).
      exists a. split; [exact Ha|].
      now destruct (Hags _ _ Ha) as (_ & _ & Hs). }
  erewrite bind_ok by exact E3.
  assert (Hwf3 : wf_system (self w3)).
  { apply (system_facts.committed_wf (D:=agent_dim (self w)) (w:=w2)
             (l:=map fst (agents (self w)))
             (new_state:=terminal_block X (agent_dim (self w)))); auto.
    intros k Hk. apply system_facts.terminal_block_length.
    apply Hkeys in Hk. rewrite HXr. nia. }
  destruct Hcm as (Hb & Htk3 & _ & _ & _).
  unfold but_agents in Hb. cbn in Hb, Htk3.
  injection Hb as En Ed Ec Ef Eg Eal Ep Eavg Et Ecl.
  assert (Hlab3 : labelling_ok ext (self w3))
    by (apply (system_facts.labelling_ok_transfer (s:=self w)); auto).
  destruct (system_facts.re_eval_system_ok w3 Hwf3 Hlab3) as (w4 & E4 & Hre & _ & _).
  erewrite bind_ok by exact E4. msimp.
  destruct Hre as (_ & _ & _ & _ & _ & _ & _ & Et4 & _ & Htk4 & _).
  exists w4. split; [reflexivity|]. split; congruence.
Qed.

(** X21: a call of [update_system_mpc_distributed] that returns reads
    the clock twice, however many agents there are, and adds the
    difference of the two readings to [control_solution_time]. *)
Theorem update_system_mpc_distributed_solve_time (Q R P : Mat F) n_t
        (umax umin : option (Mat F)) (w : world F) :
  wf_system (self w) ->
  labelling_ok ext (self w) ->
  (forall k a, find_agent k (agents (self w)) = Some a ->
               solvable ext Q R P n_t umax umin (system_goal (self w))
                 (agent_dim (self w)) a) ->
  exists r w',
    update_system_mpc_distributed ext Q R P n_t umax umin w = (Ok r, w')
    /\ control_solution_time (self w')
       = fadd (control_solution_time (self w))
              (fsub (time_time ext (S (ticks w))) (time_time ext (ticks w)))
    /\ ticks w' = S (S (ticks w)).
Proof.
  intros Hwf Hlab Hsolv.
  pose proof Hwf as (Hnd & Hkeys & Hags & Hnr & Hnc & Hgoal & Hpos).
  unfold update_system_mpc_distributed. msimp.
  set (w0 := mkWorld (self w) (trace w) (S (ticks w))).
  destruct (@system_facts.distributed_loop F _ ext Q R P n_t umax umin
              (system_goal (self w)) (agent_dim (self w)) (agents (self w)) w0 f0
              eq_refl eq_refl Hwf Hlab Hnd)
    as (w1 & E1 & Hrd & _ & _).
  { intros k a Hin. pose proof (system_facts.NoDup_find_agent _ _ _ Hnd Hin) as Hf.
    split; [exact Hf | exact (Hsolv k a Hf)]. }
  erewrite bind_ok by exact E1. msimp.
  destruct Hrd as (En & _ & _ & _ & _ & _ & Et & Htk & _).
  cbn in En, Et, Htk.
  cbn [n_agents set_control_solution_time]. unfold divide_cost. rewrite En.
  destruct (agents (self w)) as [|ka0 ags0] eqn:Eags.
  { exfalso. exact (proj2 (Hkeys 0) Hpos). }
  cbn [length Nat.eqb negb andb]. msimp.
  eexists _, _. split; [reflexivity|].
  cbn [self on_sys control_solution_time set_control_solution_time ticks].
  rewrite Et, Htk. split; reflexivity.
Qed.

(** *** A key outside the state matrix *)

(** X22: [_re_eval_system] raises IndexError at the first agent whose
    key is not a row index of the state matrix.  The rows of the agents
    before it in the dictionary have been written; the average goal
    distance and the clustering are the ones from before the call. *)
Theorem re_eval_system_key_out_of_range (w : world F) done k rest :
  map fst (agents (self w)) = done ++ k :: rest ->
  (forall k', In k' done ->
              k' < nrows (full_system_state (self w))
              /\ exists a, find_agent k' (agents (self w)) = Some a
                           /\ length (LinearAgentNd.state a)
                              = ncols (full_system_state (self w))) ->
  nrows (full_system_state (self w)) <= k ->
  _re_eval_system ext w
  = (Raise IndexError,
     mkWorld
       (set_full_system_state
          (scatter (agents (self w)) done (full_system_state (self w))) (self w))
       (trace w ++ [EvReEval]) (ticks w)).
Proof.
  intros Hkeys Hdone Hk.
  assert (Hin : In k (map fst (agents (self w))))
    by (rewrite Hkeys; apply in_app_iff; right; now left).
  destruct (system_facts.in_find_agent _ _ Hin) as (a & Ha).
  set (wl := mkWorld (self w) (trace w ++ [EvReEval]) (ticks w)).
  pose proof (@system_facts.gather_loop F _ (agents (self w)) done wl eq_refl Hdone)
    as E.
  assert (Hlen : length (rows (scatter (agents (self w)) done
                                 (full_system_state (self w))))
                 = nrows (full_system_state (self w))).
  { unfold scatter; cbn [rows]. apply system_facts.fold_upd_length.
    intros k' Hk'. apply (Hdone k' Hk'). }
  unfold _re_eval_system. msimp. fold wl. apply bind_fail.
  unfold gather_agent_states. msimp. cbn [self wl]. rewrite Hkeys.
  apply bind_fail. rewrite cluster_facts.for_each_app.
  erewrite bind_ok by exact E.
  cbn [for_each]. apply bind_fail.
  unfold the_agent. msimp.
  cbn [self wl agents set_full_system_state full_system_state].
  rewrite Ha. msimp.
  cbn [self wl agents set_full_system_state full_system_state].
  unfold set_row, nrows. rewrite Hlen.
  destruct (Nat.ltb_spec k (nrows (full_system_state (self w)))); [lia|].
  msimp. reflexivity.
Qed.

End Facts.
End system_more.

Lemma re_eval_clusters_bad_parameters_witness :
  MultiAgentSystem._re_eval_clusters sample.ext sample_more.no_threshold
  = (Raise IndexError, sample_more.no_threshold).
Proof.
  destruct (@system_more.re_eval_clusters_bad_parameters Z _ sample.ext
              sample_more.no_threshold) as (e & E & He).
  - left. split; reflexivity.
  - cbn in He. rewrite E, He. reflexivity.
Defined.

Lemma update_system_mpc_solver_raises_witness :
  fst (MultiAgentSystem.update_system_mpc sample_more.solver_error
         sample.I2 sample.I2 sample.I2 3 None None sample.world0)
  = Raise (LibraryError "SolverError").
Proof.
  rewrite (@system_more.update_system_mpc_solver_raises Z _ sample_more.solver_error
             sample.I2 sample.I2 sample.I2 3 None None sample.world0
             (LibraryError "SolverError") world0_wf eq_refl).
  reflexivity.
Defined.

Lemma update_system_mpc_no_solution_witness :
  fst (MultiAgentSystem.update_system_mpc sample_more.no_solution
         sample.I2 sample.I2 sample.I2 3 None None sample.world0)
  = Raise TypeError.
Proof.
  rewrite (@system_more.update_system_mpc_no_solution Z _ sample_more.no_solution
             sample.I2 sample.I2 sample.I2 3 None None sample.world0
             None 0%Z world0_wf eq_refl).
  reflexivity.
Defined.

Lemma re_eval_clusters_closed_form_witness :
  MultiAgentSystem._re_eval_clusters sample.ext sample.world0
  = (Ok tt,
     MultiAgentSystem.on_sys (clustering_spec.clustered [0%Z; 0%Z]) sample.world0).
Proof.
  apply (@system_more.re_eval_clusters_closed_form Z _ sample.ext sample.world0
           [0%Z; 0%Z] world0_wf); reflexivity.
Defined.

Lemma clusters_partition_by_label_witness :
  exists w',
    MultiAgentSystem._re_eval_clusters sample.ext sample.world0 = (Ok tt, w')
    /\ forall i cdx,
         (exists c,
             MultiAgentSystem.find_cluster cdx
               (MultiAgentSystem.clusters (MultiAgentSystem.self w')) = Some c
             /\ In i (LinearClusterNd.agents c))
         <-> i < 2 /\ nth i [0%Z; 0%Z] 0%Z = Z.of_nat cdx.
Proof.
  apply (@system_more.clusters_partition_by_label Z _ sample.ext sample.world0
           [0%Z; 0%Z] world0_wf); reflexivity.
Defined.

Lemma re_eval_system_spec_witness :
  exists w',
    MultiAgentSystem._re_eval_system sample.ext sample.world0 = (Ok tt, w')
    /\ system_spec.re_evaluated sample.world0 w'.
Proof.
  destruct (@system_more.re_eval_system_spec Z _ sample.ext sample.world0
              world0_wf world0_labelling) as (ls & w' & E & Hre & _).
  exists w'. split; [exact E | exact Hre].
Defined.

Lemma init_establishes_consistency_witness :
  exists w',
    sample.two_agents = (Ok tt, w')
    /\ system_spec.consistent (MultiAgentSystem.self w').
Proof.
  destruct (@system_more.init_establishes_consistency Z _ sample.ext 2 2 2
              [5%Z; 5%Z] sample.blobs [] "hierarchy" [2%Z] ([], 0) sample.agents0)
    as (w' & E & _ & _ & _ & Hc & _).
  - vm_compute. reflexivity.
  - apply agents0_wf.
  - intros M HM. cbn in HM. eexists. split; [reflexivity|].
    rewrite length_map, repeat_length. exact HM.
  - exists w'. split; [exact E | exact Hc].
Defined.

Lemma update_system_mpc_distributed_stops_at_failure_witness :
  fst (MultiAgentSystem.update_system_mpc_distributed sample_more.from_origin_only
         sample.I2 sample.I2 sample.I2 3 None None sample.world0)
  = Raise TypeError.
Proof.
  destruct (@system_more.update_system_mpc_distributed_stops_at_failure Z _
              sample_more.from_origin_only sample.I2 sample.I2 sample.I2 3 None None
              sample.world0
              [(0, LinearAgentNd.mk sample.I2 sample.I2 [0%Z; 0%Z] 2)] 1
              (LinearAgentNd.mk sample.I2 sample.I2 [1%Z; 1%Z] 2) []
              TypeError world0_wf)
    as (w1 & _ & E).
  - intros M HM. cbn in HM. eexists. split; [reflexivity|].
    rewrite length_map, repeat_length. exact HM.
  - reflexivity.
  - intros k' a' [Hin|[]]. injection Hin as <- <-.
    eexists _, _, _. split; [vm_compute; reflexivity|]. cbn. split; lia.
  - right. exists None, 0%Z. split; reflexivity.
  - rewrite E. reflexivity.
Defined.

Lemma update_system_mpc_solve_time_witness :
  exists w',
    MultiAgentSystem.update_system_mpc sample.ext sample.I2 sample.I2 sample.I2 3
      None None sample.world0
    = (Ok (MultiAgentSystem.avg_goal_dist (MultiAgentSystem.self w'), 3%Z), w')
    /\ MultiAgentSystem.control_solution_time (MultiAgentSystem.self w') = 1%Z
    /\ MultiAgentSystem.ticks w' = 2.
Proof.
  destruct (@system_more.update_system_mpc_solve_time Z _ sample.ext
              sample.I2 sample.I2 sample.I2 3 None None sample.world0
              sample.joint_trajectory (Some (zeros 4 3)) 3%Z
              world0_wf world0_labelling) as (w' & E & Ht & Htk).
  - vm_compute. reflexivity.
  - reflexivity.
  - cbn. lia.
  - exists w'. split; [exact E|]. split; [exact Ht | exact Htk].
Defined.

Lemma update_system_mpc_distributed_solve_time_witness :
  exists r w',
    MultiAgentSystem.update_system_mpc_distributed sample.ext
      sample.I2 sample.I2 sample.I2 3 None None sample.world0 = (Ok r, w')
    /\ MultiAgentSystem.control_solution_time (MultiAgentSystem.self w') = 1%Z
    /\ MultiAgentSystem.ticks w' = 2.
Proof.
  destruct (@system_more.update_system_mpc_distributed_solve_time Z _ sample.ext
              sample.I2 sample.I2 sample.I2 3 None None sample.world0
              world0_wf world0_labelling) as (r & w' & E & Ht & Htk).
  - intros k a. destruct k as [|[|k]]; cbn; intros Ea; inversion Ea; subst;
      unfold system_spec.solvable;
      eexists _, _, _; (split; [vm_compute; reflexivity|]); cbn; split; lia.
  - exists r, w'. split; [exact E|]. split; [exact Ht | exact Htk].
Defined.

Lemma re_eval_system_key_out_of_range_witness :
  fst (MultiAgentSystem._re_eval_system sample.ext
         (MultiAgentSystem.mkWorld
            (MultiAgentSystem.new_system 1 2 2 [5%Z; 5%Z] sample.agents0
               "hierarchy" [2%Z]) [] 0))
  = Raise IndexError.
Proof.
  rewrite (@system_more.re_eval_system_key_out_of_range Z _ sample.ext
             (MultiAgentSystem.mkWorld
                (MultiAgentSystem.new_system 1 2 2 [5%Z; 5%Z] sample.agents0
                   "hierarchy" [2%Z]) [] 0)
             [0] 1 []).
  - reflexivity.
  - reflexivity.
  - intros k' [<-|[]]. split; [cbn; lia|].
    eexists. split; reflexivity.
  - cbn. lia.
Defined.

(** * The two MPC updates and the state they leave *)

Module system_claims.
Import MultiAgentSystem system_spec clustering_spec evaluation_spec.
Section Facts.
Context {F : Type} `{Scalar F}.
Variable ext : externals F.

(** ** The derived fields after a re-evaluation *)

Lemma goal_distance_explicit (M : Mat F) (goal : Vec F) :
  ncols M = length goal ->
  goal_distance M goal = Ok (mean_distance goal (rows M)).
Proof.
  intros Hc. unfold goal_distance, msub_row, bcast_len.
  rewrite Hc, Nat.eqb_refl. cbn [obind]. f_equal.
  unfold vmean, mean_distance, vsum. rewrite !length_map, !map_map.
  f_equal. f_equal. apply map_ext. intros r.
  unfold norm2, distance_to, vsum. rewrite map_map. f_equal. f_equal.
  apply map_ext_in. intros j Hj. apply in_seq in Hj. unfold bget.
  destruct (Nat.eqb_spec (length goal) 1) as [E1|_]; [|reflexivity].
  assert (j = 0) by lia. subst j. reflexivity.
Qed.

Lemma mean_axis0_explicit D (rs : list (Vec F)) :
  mean_axis0 (mkMat D rs) = column_means D rs.
Proof.
  unfold mean_axis0, column_means, vmean, vsum. cbn [ncols rows].
  apply map_ext. intros j. now rewrite length_map.
Qed.

Lemma fold_max_in (ls : list Z) l0 : In (fold_left Z.max ls l0) (l0 :: ls).
Proof.
  revert l0. induction ls as [|l ls IH]; intros l0; cbn [fold_left]; [now left|].
  destruct (IH (Z.max l0 l)) as [E|Hin].
  - rewrite <- E. destruct (Z.max_spec l0 l) as [(_ & ->)|(_ & ->)];
      [right; now left | now left].
  - right. now right.
Qed.

Lemma mat_eta (M : Mat F) : M = mkMat (ncols M) (rows M).
Proof. destruct M; reflexivity. Qed.

(** The system [clustered ls] of a world whose state matrix and
    average distance are up to date is evaluated. *)
Lemma clustered_evaluated (w : world F) ls :
  full_system_state (self w) = mkMat (agent_dim (self w)) (agent_states (self w)) ->
  avg_goal_dist (self w) = mean_distance (system_goal (self w)) (agent_states (self w)) ->
  identify_clusters ext (clust_algo (self w)) (clust_algo_params (self w))
    (full_system_state (self w)) = Ok ls ->
  length ls = n_agents (self w) ->
  0 < n_agents (self w) ->
  evaluated ext (on_sys (clustered ls) w).
Proof.
  intros Hfss Havg Els Hlen Hpos.
  unfold evaluated, clustered, with_clusters, agent_states in *.
  cbn [self on_sys full_system_state agent_dim agents n_agents avg_goal_dist
       system_goal clust_algo clust_algo_params clust_labels n_clusters clusters
       cluster_centroids set_cluster_centroids set_clusters set_n_clusters
       set_clust_labels].
  split; [exact Hfss|]. split; [exact Havg|].
  split; [rewrite <- Hfss; exact Els|]. split; [exact Hlen|].
  destruct ls as [|l0 ls]; [cbn in Hlen; lia|].
  split.
  { rewrite system_more.n_clusters_of_cons.
    replace (fold_left Z.max ls l0 + 1 - 1)%Z with (fold_left Z.max ls l0) by lia.
    apply fold_max_in. }
  split.
  { intros l Hl. rewrite system_more.n_clusters_of_cons.
    pose proof (system_more.fold_max_ge Hl). lia. }
  split.
  { unfold clusters_of. rewrite map_map. cbn [fst]. apply map_id. }
  split.
  { intros cdx c Hc. unfold clusters_of in Hc.
    rewrite (system_more.find_cluster_tabulate
               (cluster_of (agents (self w)) (l0 :: ls) (agent_dim (self w)))) in Hc.
    destruct (cdx <? _); [|discriminate]. injection Hc as <-.
    unfold cluster_of, cluster_spec.refreshed, cluster_spec.member_states,
      where_eq, members.
    cbn [LinearClusterNd.agents LinearClusterNd.n_agents
         LinearClusterNd.full_cluster_state LinearClusterNd.centroid].
    repeat split. apply mean_axis0_explicit. }
  unfold centroids_of, clusters_of. rewrite map_map. reflexivity.
Qed.

(** What [_re_eval_system] returns on a well-formed system is
    evaluated. *)
Lemma re_eval_system_evaluated (w3 w' : world F) :
  wf_system (self w3) -> labelling_ok ext (self w3) ->
  _re_eval_system ext w3 = (Ok tt, w') ->
  evaluated ext w'.
Proof.
  intros Hwf Hlab E'.
  destruct (system_more.re_eval_system_form w3 Hwf Hlab)
    as (ls & Els & Hlen & E & Hrows & Hdist).
  rewrite E in E'. injection E' as <-.
  pose proof Hwf as (_ & _ & _ & _ & Hnc & Hgoal & Hpos).
  set (wl := mkWorld (self w3) (trace w3 ++ [EvReEval]) (ticks w3)) in *.
  assert (Hnc' : ncols (full_system_state (self (gathered wl))) = agent_dim (self w3))
    by exact Hnc.
  assert (Hfss : full_system_state (self (gathered wl))
                 = mkMat (agent_dim (self (gathered wl))) (agent_states (self (gathered wl)))).
  { rewrite (mat_eta (full_system_state (self (gathered wl)))), Hnc', Hrows.
    reflexivity. }
  apply clustered_evaluated; [exact Hfss| |exact Els|exact Hlen|exact Hpos].
  assert (Hg : ncols (full_system_state (self (gathered wl)))
               = length (system_goal (self (gathered wl))))
    by (rewrite Hnc'; symmetry; exact Hgoal).
  apply goal_distance_explicit in Hg. rewrite Hrows in Hg.
  rewrite Hg in Hdist. injection Hdist as Hd. symmetry. exact Hd.
Qed.

(** ** [update_system_mpc] *)

(** C1: on a well-formed system, when the solver returns a trajectory
    for the joint problem, [update_system_mpc] calls the solver once, with
    the block-diagonal pair built from the agents' matrices, the rows of
    the state matrix one after the other and the goal repeated once per
    agent; it then gives every agent its slice of the last column of the
    trajectory and re-evaluates the system once.  It returns the mean distance of these
    slices from the goal with the solver's cost, and leaves a system whose
    state matrix, average distance, labels, clusters and centroids are
    those of the agents' new states. *)
Theorem update_system_mpc_spec (Q R P : Mat F) n_t (umax umin : option (Mat F))
        (w : world F) (X : Mat F) (U : option (Mat F)) (cost : F) :
  (forall a, fmul f1 a = a) ->
  wf_system (self w) ->
  labelling_ok ext (self w) ->
  use_modeling_tool ext (block_diag_A (self w)) (block_diag_B (self w)) n_t Q R P
    (concat (rows (full_system_state (self w)))) (Some (tiled_goal (self w))) umax umin
  = Ok (Some X, U, cost) ->
  nrows X = n_agents (self w) * agent_dim (self w) ->
  0 < ncols X ->
  exists w',
    update_system_mpc ext Q R P n_t umax umin w
    = (Ok (mean_distance (system_goal (self w))
             (map (terminal_block X (agent_dim (self w)))
                  (seq 0 (n_agents (self w)))),
           cost),
       w')
    /\ joint_dynamics (self w) = Ok (block_diag_A (self w), block_diag_B (self w))
    /\ (forall adx a i j,
           find_agent adx (agents (self w)) = Some a ->
           i < agent_dim (self w) ->
           (j < agent_dim (self w) ->
            entry (block_diag_A (self w))
                  (adx * agent_dim (self w) + i) (adx * agent_dim (self w) + j)
            = entry (LinearAgentNd.A a) i j)
           /\ (j < control_dim (self w) ->
               entry (block_diag_B (self w))
                     (adx * agent_dim (self w) + i) (adx * control_dim (self w) + j)
               = entry (LinearAgentNd.B a) i j))
    /\ kron (ones (n_agents (self w))) (system_goal (self w)) = tiled_goal (self w)
    /\ (forall adx a,
           find_agent adx (agents (self w)) = Some a ->
           find_agent adx (agents (self w'))
           = Some (with_state (terminal_block X (agent_dim (self w)) adx) a))
    /\ map fst (agents (self w')) = map fst (agents (self w))
    /\ trace w'
       = trace w
         ++ EvSolve (block_diag_A (self w)) (block_diag_B (self w)) n_t Q R P
              (concat (rows (full_system_state (self w)))) (Some (tiled_goal (self w)))
              umax umin
            :: map (fun adx => EvSetState adx (terminal_block X (agent_dim (self w)) adx))
                   (map fst (agents (self w)))
         ++ [EvReEval]
    /\ (n_agents (self w') = n_agents (self w)
        /\ agent_dim (self w') = agent_dim (self w)
        /\ system_goal (self w') = system_goal (self w))
    /\ evaluated ext w'.
Proof.
  intros Hone Hwf Hlab Hsolve HXr HXc.
  destruct (@system_facts.update_system_mpc_run F _ ext Q R P n_t umax umin
              w X U cost Hone Hwf Hlab Hsolve HXr HXc)
    as (w' & E & Hjd & Hent & Hkron & Hfind & Hkeys' & Htr & _ & (En & Ed & Eg)
        & w3 & Hwf3 & Hlab3 & E3).
  pose proof (@re_eval_system_evaluated w3 w' Hwf3 Hlab3 E3) as Hev.
  pose proof Hwf as (_ & Hkeys & _).
  exists w'. split; [|split; [exact Hjd|split; [exact Hent|split; [exact Hkron|
    split; [exact Hfind|split; [exact Hkeys'|split; [exact Htr|split; [auto|exact Hev]]]]]]]].
  rewrite E. f_equal. f_equal. f_equal.
  destruct Hev as (_ & Havg & _). rewrite Havg, Eg. f_equal.
  unfold agent_states. rewrite En. apply map_ext_in. intros k Hk.
  apply in_seq in Hk.
  destruct (@system_facts.in_find_agent F k (agents (self w))) as (a & Ha);
    [apply Hkeys; lia|].
  unfold state_of. now rewrite (Hfind k a Ha).
Qed.

(** ** [update_system_mpc_distributed] *)

(** C2: on a well-formed system, when the solver returns a trajectory
    for every agent's own problem, [update_system_mpc_distributed] goes
    through the agents in the order of the dictionary and, for each,
    calls the solver with that agent's [A], [B] and state and the system
    goal, gives the agent the last column of the trajectory and
    re-evaluates the system.  It returns the mean distance of the agents'
    new states from the goal and the sum of the agents' costs divided by
    [n_agents], and leaves an evaluated system.  The system is evaluated
    after every single agent: when the loop has dealt with the agents up
    to [(k, a)], these agents and no others have their new states, and
    the state matrix, average distance, labels, clusters and centroids are
    those of the agents at that point; the loop goes on from there. *)
Theorem update_system_mpc_distributed_spec (Q R P : Mat F) n_t
        (umax umin : option (Mat F)) (w : world F) :
  wf_system (self w) ->
  labelling_ok ext (self w) ->
  (forall k a, find_agent k (agents (self w)) = Some a ->
               solvable ext Q R P n_t umax umin (system_goal (self w))
                 (agent_dim (self w)) a) ->
  exists w',
    update_system_mpc_distributed ext Q R P n_t umax umin w
    = (Ok (mean_distance (system_goal (self w)) (agent_states (self w')),
           fdiv (fold_left fadd
                   (map (fun ka => solved_cost ext Q R P n_t umax umin
                                     (system_goal (self w)) (snd ka))
                        (agents (self w))) f0)
                (fof_nat (n_agents (self w)))),
       w')
    /\ (forall k a,
           find_agent k (agents (self w)) = Some a ->
           find_agent k (agents (self w'))
           = Some (with_state (solved_state ext Q R P n_t umax umin
                                 (system_goal (self w)) a) a))
    /\ map fst (agents (self w')) = map fst (agents (self w))
    /\ trace w'
       = trace w
         ++ flat_map (agent_round ext Q R P n_t umax umin (system_goal (self w)))
                     (agents (self w))
    /\ (n_agents (self w') = n_agents (self w)
        /\ agent_dim (self w') = agent_dim (self w)
        /\ system_goal (self w') = system_goal (self w))
    /\ evaluated ext w'
    /\ (forall done k a rest,
           agents (self w) = done ++ (k, a) :: rest ->
           exists w1,
             for_fold (map fst (done ++ [(k, a)]))
               (solve_round ext Q R P n_t umax umin) f0
               (mkWorld (self w) (trace w) (S (ticks w)))
             = (Ok (fold_left fadd
                      (map (fun ka => solved_cost ext Q R P n_t umax umin
                                        (system_goal (self w)) (snd ka))
                           (done ++ [(k, a)])) f0),
                w1)
             /\ evaluated ext w1
             /\ (n_agents (self w1) = n_agents (self w)
                 /\ agent_dim (self w1) = agent_dim (self w)
                 /\ system_goal (self w1) = system_goal (self w))
             /\ (forall k',
                    find_agent k' (agents (self w1))
                    = option_map
                        (fun a' => if in_dec Nat.eq_dec k' (map fst (done ++ [(k, a)]))
                                   then with_state
                                          (solved_state ext Q R P n_t umax umin
                                             (system_goal (self w)) a') a'
                                   else a')
                        (find_agent k' (agents (self w))))
             /\ for_fold (map fst (agents (self w)))
                  (solve_round ext Q R P n_t umax umin) f0
                  (mkWorld (self w) (trace w) (S (ticks w)))
                = for_fold (map fst rest) (solve_round ext Q R P n_t umax umin)
                    (fold_left fadd
                       (map (fun ka => solved_cost ext Q R P n_t umax umin
                                         (system_goal (self w)) (snd ka))
                            (done ++ [(k, a)])) f0)
                    w1).
Proof.
  intros Hwf Hlab Hsolv.
  pose proof Hwf as (Hnd & Hkeys & Hags & Hnr & Hnc & Hgoal & Hpos).
  set (w0 := mkWorld (self w) (trace w) (S (ticks w))).
  assert (Hne : agents (self w) <> []).
  { intros E. assert (H0 : In 0 (map fst (agents (self w)))) by now apply Hkeys.
    rewrite E in H0. exact H0. }
  assert (Hall : forall l, incl l (agents (self w)) ->
                 forall k a, In (k, a) l ->
                   find_agent k (agents (self w)) = Some a
                   /\ solvable ext Q R P n_t umax umin (system_goal (self w))
                        (agent_dim (self w)) a).
  { intros l Hl k a Hin.
    pose proof (system_facts.NoDup_find_agent _ _ _ Hnd (Hl _ Hin)) as Hf.
    split; [exact Hf | exact (Hsolv k a Hf)]. }
  destruct (@system_facts.distributed_loop F _ ext Q R P n_t umax umin
              (system_goal (self w)) (agent_dim (self w)) (agents (self w)) w0 f0
              eq_refl eq_refl Hwf Hlab Hnd (Hall _ (incl_refl _)))
    as (w1 & E1 & Hrd & Hwf1 & Hlab1 & Hlast).
  destruct (Hlast Hne) as (w3 & Hwf3 & Hlab3 & E3).
  pose proof (@re_eval_system_evaluated w3 w1 Hwf3 Hlab3 E3) as Hev.
  destruct Hrd as (En & Ed & Ec & Eg & Eal & Ep & Et & Htk & Htr & Hk' & Hfind & _).
  cbn [self trace ticks w0] in En, Ed, Ec, Eg, Eal, Ep, Et, Htk, Htr, Hk', Hfind.
  assert (Hlen0 : (length (agents (self w)) =? 0) = false)
    by (destruct (agents (self w)); [congruence | reflexivity]).
  unfold update_system_mpc_distributed. msimp. fold w0.
  erewrite bind_ok by exact E1. msimp.
  cbn [n_agents set_control_solution_time]. unfold divide_cost.
  rewrite Hlen0, En. cbn [negb andb].
  match goal with
  | |- exists w', _ ?wt = _ /\ _ => exists wt
  end.
  msimp.
  cbn [self on_sys agents trace set_control_solution_time full_system_state
       n_agents system_goal avg_goal_dist agent_dim].
  split.
  { f_equal. f_equal. f_equal. destruct Hev as (_ & Havg & _).
    rewrite Havg, Eg. reflexivity. }
  split.
  { intros k a Ha. rewrite Hfind, Ha. cbn [option_map].
    destruct (in_dec Nat.eq_dec k (map fst (agents (self w)))) as [_|Hn];
      [reflexivity|].
    exfalso. apply Hn. eapply system_facts.find_agent_in. exact Ha. }
  split; [exact Hk'|]. split; [exact Htr|]. split; [auto|].
  split; [exact Hev|].
  intros done k a rest Hsplit.
  assert (Hsplit' : agents (self w) = (done ++ [(k, a)]) ++ rest)
    by (rewrite <- app_assoc; exact Hsplit).
  assert (Hnd2 : NoDup (map fst (done ++ [(k, a)]))).
  { rewrite Hsplit', map_app in Hnd. eapply NoDup_app_remove_r. exact Hnd. }
  assert (Hincl : incl (done ++ [(k, a)]) (agents (self w)))
    by (rewrite Hsplit'; apply incl_appl, incl_refl).
  destruct (@system_facts.distributed_loop F _ ext Q R P n_t umax umin
              (system_goal (self w)) (agent_dim (self w)) (done ++ [(k, a)]) w0 f0
              eq_refl eq_refl Hwf Hlab Hnd2 (Hall _ Hincl))
    as (w2 & E2 & Hrd2 & _ & _ & Hlast2).
  destruct Hlast2 as (w4 & Hwf4 & Hlab4 & E4).
  { intros Hc. apply app_eq_nil in Hc. destruct Hc as (_ & Hc). discriminate. }
  destruct Hrd2 as (En2 & Ed2 & _ & Eg2 & _ & _ & _ & _ & _ & _ & Hfind2 & _).
  exists w2. split; [exact E2|].
  split; [exact (@re_eval_system_evaluated w4 w2 Hwf4 Hlab4 E4)|].
  split; [auto|]. split; [exact Hfind2|].
  rewrite Hsplit' at 1. rewrite map_app, system_more.for_fold_app.
  erewrite bind_ok by exact E2. reflexivity.
Qed.

End Facts.
End system_claims.

Lemma update_system_mpc_spec_witness :
  exists w',
    MultiAgentSystem.update_system_mpc sample.ext sample.I2 sample.I2 sample.I2 3
      None None sample.world0
    = (Ok (0%Z, 3%Z), w')
    /\ evaluation_spec.evaluated sample.ext w'.
Proof.
  destruct (@system_claims.update_system_mpc_spec Z _ sample.ext
              sample.I2 sample.I2 sample.I2 3 None None sample.world0
              sample.joint_trajectory (Some (zeros 4 3)) 3%Z)
    as (w' & E & _ & _ & _ & _ & _ & _ & _ & Hev).
  - intros a. destruct a; reflexivity.
  - exact world0_wf.
  - exact world0_labelling.
  - vm_compute. reflexivity.
  - reflexivity.
  - cbn. lia.
  - exists w'. split; [exact E | exact Hev].
Defined.

Lemma update_system_mpc_distributed_spec_witness :
  exists w',
    MultiAgentSystem.update_system_mpc_distributed sample.ext
      sample.I2 sample.I2 sample.I2 3 None None sample.world0
    = (Ok (evaluation_spec.mean_distance [5%Z; 5%Z]
             (evaluation_spec.agent_states (MultiAgentSystem.self w')),
           3%Z),
       w')
    /\ evaluation_spec.evaluated sample.ext w'.
Proof.
  destruct (@system_claims.update_system_mpc_distributed_spec Z _ sample.ext
              sample.I2 sample.I2 sample.I2 3 None None sample.world0)
    as (w' & E & _ & _ & _ & _ & Hev & _).
  - exact world0_wf.
  - exact world0_labelling.
  - intros k a. destruct k as [|[|k]]; cbn; intros Ea; inversion Ea; subst;
      unfold system_spec.solvable;
      eexists _, _, _; (split; [vm_compute; reflexivity|]); cbn; split; lia.
  - exists w'. split; [exact E | exact Hev].
Defined.
